(** * CellSearch: the controller of the LTE cell search

    A shallow embedding of [src/C++/src/CellSearch.cpp]: the option loop and
    the sanity checks of [parse_commandline], the search grid built at the
    top of [main], the threshold vector, the loop that examines each
    correlation peak, [dedup], [freq_formatter] and the correction factor
    printed with each reported cell.

    Numbers.  A C++ [double] is modelled as an exact rational ([Q]) wherever
    the code only adds, multiplies, divides and compares; rounding is outside
    the model.  Infinities and NaN are modelled where they can enter the
    program, in the values that [strtod] reads from the command line
    ([Module Extended]).  The threshold alone needs the chi-squared
    quantile and is modelled over the reals ([R]) in [Module Threshold].
    Integers ([int], [int8], [int16]) are [Z]; a value stored in a [uint16] is
    reduced modulo 2^16 where the code stores it. *)

From Stdlib Require Import String Ascii.
From Stdlib Require Import ZArith QArith Qabs Qround Qpower List Bool Lia Psatz.
From Stdlib Require Import Permutation Reals Epsilon.
Import ListNotations.

Open Scope Z_scope.
Open Scope Q_scope.

(** ** Comparisons of doubles, as booleans *)

(** [a < b] on doubles. *)
Definition Qltb (a b : Q) : bool :=
  match a ?= b with
  | Lt => true
  | _ => false
  end.

(** The literals of the source ([1e6], [2.5e3], ...) are kept as they are
    written; this tactic turns them into plain fractions for the arithmetic
    tactics. *)
Ltac plain_literals :=
  change 1e6 with (1000000 # 1) in *;
  change 100e3 with (100000 # 1) in *;
  change 5e3 with (5000 # 1) in *;
  change 2.5e3 with (25000 # 10) in *;
  change 1000e-6 with (1000 # 1000000) in *.

(** Case analysis on a hypothesis [H : In x [a; b; ...]]. *)
Ltac in_cases H :=
  simpl in H; repeat (destruct H as [<-|H]; [|try contradiction]).

(** ** The data model: [Cell] (declared in common.h, used field by field) *)

Module cp_type_t.
Inductive cp_type_t : Set := NORMAL | EXTENDED | UNKNOWN.
End cp_type_t.

Module phich_duration_t.
Inductive phich_duration_t : Set := NORMAL | EXTENDED | UNKNOWN.
End phich_duration_t.

Module phich_resource_t.
Inductive phich_resource_t : Set := UNKNOWN | oneSixth | half | one | two.
End phich_resource_t.

(** The fields of [Cell] that CellSearch.cpp reads or tests.  [n_id_2] is the
    primary-sync identity found by the peak search; the sentinel of [n_id_1]
    and of [n_rb_dl] is [-1]. *)
Record Cell : Set := mkCell {
  fc : Q;                 (* center frequency the cell was found under *)
  pss_pow : Q;            (* correlation power of the peak *)
  freq_superfine : Q;     (* residual frequency offset *)
  n_id_2 : Z;
  n_id_1 : Z;
  cp_type : cp_type_t.cp_type_t;
  n_rb_dl : Z;
  phich_duration : phich_duration_t.phich_duration_t;
  phich_resource : phich_resource_t.phich_resource_t
}.

(** The field [fc], for the places where [fc] names the center frequency of
    the sweep. *)
Definition cell_fc (c : Cell) : Q := fc c.

(** ** [dedup] (CellSearch.cpp, lines 248-282) *)

Section Dedup.

(** [Cell::n_id_cell()] is declared in common.h, which is not among the
    sources; it is a parameter of the development. *)
Variable n_id_cell : Cell -> Z.

(** The frequency at which a cell is seen: [fc + freq_superfine]. *)
Definition corrected_freq (c : Cell) : Q := fc c + freq_superfine c.

(** The test of lines 261-264, with [n] the new cell ([*it_n]) and [f] the
    cell of [cells_final] it is compared with ([*it_f]). *)
Definition same_cell (n f : Cell) : bool :=
  (n_id_cell n =? n_id_cell f)%Z
  && Qltb (Qabs (corrected_freq n - corrected_freq f)) 1e6.

(** The inner [while] over [cells_final] (lines 257-273): [Some] of the
    updated list when a cell matched ([match=true], then [break]), [None]
    when the end of the list is reached with [match] still false. *)
Fixpoint dedup_scan (n : Cell) (cells_final : list Cell) : option (list Cell) :=
  match cells_final with
  | [] => None
  | f :: rest =>
      if same_cell n f then
        Some ((if Qltb (pss_pow f) (pss_pow n) then n else f) :: rest)
      else
        option_map (cons f) (dedup_scan n rest)
  end.

(** One turn of the loop over [detected_cells[t]] (lines 256-279). *)
Definition dedup_insert (cells_final : list Cell) (n : Cell) : list Cell :=
  match dedup_scan n cells_final with
  | Some updated => updated
  | None => cells_final ++ [n]
  end.

(** The loop over one list [detected_cells[t]]. *)
Definition dedup_list (cells_final : list Cell) (cells : list Cell) : list Cell :=
  fold_left dedup_insert cells cells_final.

(** [dedup]: [cells_final] is cleared, then every list of [detected_cells]
    is processed in turn.  The index [t] is a [uint16]: the vector is taken
    to hold fewer than 65536 lists, as the one [main] builds does (lemma
    [detected_cells_length]). *)
Definition dedup (detected_cells : list (list Cell)) : list Cell :=
  fold_left dedup_list detected_cells [].

End Dedup.

(** ** Integer conversions and ranges used by [main] *)

(** A value stored in a [uint16]. *)
Definition to_uint16 (z : Z) : Z := z mod 65536.

(** IT++'s [floor_i]: the floor of a double, as an [int] (the range of
    [int] is not modelled). *)
Definition floor_i (x : Q) : Z := Qfloor x.

(** IT++'s [round]: the nearest integer, as a double; a tie goes to the even
    neighbour (the library rounds with [rint]). *)
Definition round (x : Q) : Q :=
  let f := Qfloor x in
  match (x - inject_Z f) ?= 1 # 2 with
  | Lt => inject_Z f
  | Gt => inject_Z (f + 1)
  | Eq => if Z.even f then inject_Z f else inject_Z (f + 1)
  end.

(** Modelled from the spec: [itpp_ext::matlab_range] is defined in
    itpp_ext.cpp, which is not among the sources.  [matlab_range first incr
    last] is the range [first:incr:last]: the points [first + k*incr], for
    [k = 0, 1, ...], that do not pass [last] (every 100 kHz point from
    freq_start to freq_end inclusive; 5 kHz-spaced points).  This is the
    version on integers, used for the frequency offsets. *)
Definition matlab_range (first incr last : Z) : list Z :=
  if (last <? first)%Z then []
  else map (fun k => (first + Z.of_nat k * incr)%Z)
           (seq 0 (Z.to_nat ((last - first) / incr + 1))).

(** Modelled from the spec: the same range on doubles, used for the center
    frequencies. *)
Definition matlab_range_d (first incr last : Q) : list Q :=
  if Qltb last first then []
  else map (fun k => first + inject_Z (Z.of_nat k) * incr)
           (seq 0 (Z.to_nat (Qfloor ((last - first) / incr) + 1))).

(** IT++'s [to_vec]: a vector of integers as a vector of doubles. *)
Definition to_vec (v : list Z) : list Q := map inject_Z v.

(** ** The search grid (CellSearch.cpp, lines 325-328) *)

(** [n_extra] (line 325): the result of [floor_i] stored in a [uint16]. *)
Definition n_extra (freq_start ppm : Q) : Z :=
  to_uint16 (floor_i ((freq_start * ppm / 1e6 + 2.5e3) / 5e3)).

(** The frequency offsets, as the integers [matlab_range] returns. *)
Definition f_search_ints (freq_start ppm : Q) : list Z :=
  let n_extra := n_extra freq_start ppm in
  matlab_range (- n_extra * 5000) 5000 (n_extra * 5000).

(** [f_search_set] (line 326). *)
Definition f_search_set (freq_start ppm : Q) : list Q :=
  to_vec (f_search_ints freq_start ppm).

(** [fc_search_set] (line 327). *)
Definition fc_search_set (freq_start freq_end : Q) : list Q :=
  matlab_range_d freq_start 100e3 freq_end.

(** ** The sanity checks of [parse_commandline] (lines 181-225) *)

Module CommandLine.

(** The variables of [parse_commandline] when the [getopt_long] loop ends
    without an exit: the defaults of lines 87-93 overwritten by the options
    that were given, and whether arguments are left over
    ([optind < argc]).  The values are numbers here; [Module Extended] has
    the same checks on the infinities and the NaN that [strtod] also
    returns. *)
Record options : Set := mkOptions {
  freq_start : Q;
  freq_end : Q;
  ppm : Q;
  correction : Q;
  save_cap : bool;
  use_recorded_data : bool;
  extra_arguments : bool
}.

(** The messages written to [cerr] before [exit(-1)]. *)
Inductive error : Set :=
| extra_arguments_given
| start_frequency_below_1MHz
| end_frequency_below_start
| ppm_negative
| read_and_write_capture.

(** The warnings written to [cout]; they never change the control flow. *)
Inductive warning : Set :=
| start_frequency_rounded
| end_frequency_rounded
| ppm_unreasonably_high
| correction_unreasonable.

(** How [parse_commandline] ends: the process exits with a status, or the
    function returns the checked values (with the warnings it printed). *)
Inductive outcome : Set :=
| Exit (status : Z) (e : error)
| Return (o : options) (w : list warning).

(** [x/100e3 != itpp::round(x/100e3)]. *)
Definition off_raster (x : Q) : bool :=
  negb (Qeq_bool (x / 100e3) (round (x / 100e3))).

(** [itpp::round(x/100e3)*100e3]. *)
Definition to_raster (x : Q) : Q := round (x / 100e3) * 100e3.

(** Lines 181-225, in the order of the source. *)
Definition parse_commandline (a : options) : outcome :=
  if extra_arguments a then Exit (-1) extra_arguments_given else
  if Qltb (freq_start a) 1e6 then Exit (-1) start_frequency_below_1MHz else
  let w1 := if off_raster (freq_start a) then [start_frequency_rounded] else [] in
  let freq_start' :=
    if off_raster (freq_start a) then to_raster (freq_start a) else freq_start a in
  let freq_end1 :=
    if Qeq_bool (freq_end a) (-1) then freq_start' else freq_end a in
  if Qltb freq_end1 freq_start' then Exit (-1) end_frequency_below_start else
  let w2 := if off_raster freq_end1 then [end_frequency_rounded] else [] in
  let freq_end' := if off_raster freq_end1 then to_raster freq_end1 else freq_end1 in
  if Qltb (ppm a) 0 then Exit (-1) ppm_negative else
  let w3 := if Qltb 200 (ppm a) then [ppm_unreasonably_high] else [] in
  let w4 :=
    if Qltb 1000e-6 (Qabs (correction a - 1)) then [correction_unreasonable] else [] in
  if save_cap a && use_recorded_data a then Exit (-1) read_and_write_capture else
  Return (mkOptions freq_start' freq_end' (ppm a) (correction a)
                    (save_cap a) (use_recorded_data a) false)
         (w1 ++ w2 ++ w3 ++ w4).

(** The process ends with a nonzero exit status. *)
Definition fails (r : outcome) : Prop :=
  exists status e, r = Exit status e /\ status <> 0%Z.

End CommandLine.

(** ** The examination of the correlation peaks in [main] (lines 333-434) *)

(** The external stages a peak is sent through, in the order of the source. *)
Inductive stage : Set :=
| stage_sss_detect
| stage_pss_sss_foe
| stage_extract_tfg
| stage_tfoec
| stage_decode_mib.

(** The collaborators of [main] (capbuf.h, searcher.h, lte_lib.h), by their
    inputs and the outputs [main] uses.  The capture buffer, a
    time-frequency grid with its timestamps and the reference signals
    ([RS_DL]) are values the controller only passes on.
    [peak_search_cells] stands for lines 346-371 ([xcorr_pss], the threshold
    vector and [peak_search]): from the capture buffer, the frequency
    offsets and the center frequency to the list of that name. *)
Record Collaborators : Type := {
  capbuf_t : Type;
  tfg_t : Type;
  rs_dl_t : Type;
  capture_data : Q -> Q -> bool -> bool -> capbuf_t;
  peak_search_cells : capbuf_t -> list Q -> Q -> list Cell;
  sss_detect : Cell -> capbuf_t -> Z -> Q -> Cell;
  pss_sss_foe : Cell -> capbuf_t -> Q -> Cell;
  extract_tfg : Cell -> capbuf_t -> Q -> tfg_t;
  RS_DL : Z -> Z -> cp_type_t.cp_type_t -> rs_dl_t;
  tfoec : Cell -> tfg_t -> Q -> rs_dl_t -> Cell * tfg_t;
  decode_mib : Cell -> tfg_t -> rs_dl_t -> Cell
}.

Definition THRESH2_N_SIGMA : Z := 3.

Section Pipeline.

Variable n_id_cell : Cell -> Z.
Variable E : Collaborators.

(** The body of the [while] loop (lines 380-428) on the cell under the
    iterator: the stages that were called, and the cell left in the list
    ([None] when it was erased). *)
Definition examine_peak (capbuf : capbuf_t E) (fc : Q) (peak : Cell)
  : list stage * option Cell :=
  let c1 := sss_detect E peak capbuf THRESH2_N_SIGMA fc in
  if (n_id_1 c1 =? -1)%Z then ([stage_sss_detect], None)
  else
    let c2 := pss_sss_foe E c1 capbuf fc in
    let tfg := extract_tfg E c2 capbuf fc in
    let rs_dl := RS_DL E (n_id_cell c2) 6 (cp_type c2) in
    let (c3, tfg_comp) := tfoec E c2 tfg fc rs_dl in
    let c4 := decode_mib E c3 tfg_comp rs_dl in
    let called := [stage_sss_detect; stage_pss_sss_foe; stage_extract_tfg;
                   stage_tfoec; stage_decode_mib] in
    if (n_rb_dl c4 =? -1)%Z then (called, None) else (called, Some c4).

(** The cell that [decode_mib] returns (lines 397-414) for a cell [c1] in
    which [sss_detect] found a secondary identity. *)
Definition mib_decoded (capbuf : capbuf_t E) (fc : Q) (c1 : Cell) : Cell :=
  let c2 := pss_sss_foe E c1 capbuf fc in
  let tfg := extract_tfg E c2 capbuf fc in
  let rs_dl := RS_DL E (n_id_cell c2) 6 (cp_type c2) in
  let (c3, tfg_comp) := tfoec E c2 tfg fc rs_dl in
  decode_mib E c3 tfg_comp rs_dl.

(** The [while] loop over [detected_cells[fci]] (lines 375-429): every cell
    is replaced by what the stages made of it, or erased. *)
Fixpoint examine_peaks (capbuf : capbuf_t E) (fc : Q) (cells : list Cell)
  : list Cell :=
  match cells with
  | [] => []
  | peak :: rest =>
      match snd (examine_peak capbuf fc peak) with
      | Some c => c :: examine_peaks capbuf fc rest
      | None => examine_peaks capbuf fc rest
      end
  end.

(** One turn of the loop over the center frequencies: [detected_cells[fci]]
    when the turn ends. *)
Definition examine_center_frequency
  (f_search_set : list Q) (correction : Q) (save_cap use_recorded_data : bool)
  (fc : Q) : list Cell :=
  let capbuf := capture_data E fc correction save_cap use_recorded_data in
  examine_peaks capbuf fc (peak_search_cells E capbuf f_search_set fc).

(** [detected_cells] when the loop of lines 333-430 ends; [n_fc] is the
    length of [fc_search_set] stored in a [uint16]. *)
Definition detected_cells
  (freq_start freq_end ppm correction : Q) (save_cap use_recorded_data : bool)
  : list (list Cell) :=
  let f_search_set := f_search_set freq_start ppm in
  let fc_search_set := fc_search_set freq_start freq_end in
  let n_fc := to_uint16 (Z.of_nat (length fc_search_set)) in
  map (examine_center_frequency f_search_set correction save_cap use_recorded_data)
      (firstn (Z.to_nat n_fc) fc_search_set).

(** [cells_final] (lines 433-434): the list that is printed. *)
Definition cells_final
  (freq_start freq_end ppm correction : Q) (save_cap use_recorded_data : bool)
  : list Cell :=
  dedup n_id_cell
        (detected_cells freq_start freq_end ppm correction save_cap use_recorded_data).

End Pipeline.

(** ** The correction factor (lines 461-469) *)

(** [correction_new] for the cell [it] of the report, with the names of the
    source. *)
Definition correction_new (correction : Q) (it : Cell) : Q :=
  let true_location := fc it in
  let crystal_freq_actual := fc it - freq_superfine it in
  let correction_residual := true_location / crystal_freq_actual in
  correction * correction_residual.

(** The last column of the report: one correction factor per cell. *)
Definition report_corrections (correction : Q) (cells_final : list Cell) : list Q :=
  map (correction_new correction) cells_final.

(** The correction factor in the words of the specification:
    previous_correction * (center_frequency_hz /
    (center_frequency_hz - fine_frequency_offset_hz)). *)
Definition correction_factor_spec
  (previous_correction center_frequency_hz fine_frequency_offset_hz : Q) : Q :=
  previous_correction
  * (center_frequency_hz / (center_frequency_hz - fine_frequency_offset_hz)).

(** ** The threshold vector (lines 360-364), over the reals *)

Module Threshold.

Local Open Scope R_scope.

(** The partial sum [1 + y + y^2/2! + ... + y^(m-1)/(m-1)!]. *)
Fixpoint exp_partial (m : nat) (y : R) : R :=
  match m with
  | O => 0
  | S k => exp_partial k y + y ^ k / INR (fact k)
  end.

(** Modelled from the spec: [chi2cdf_inv] is defined in dsp.cpp, which is not
    among the sources; it is the inverse CDF of a chi-squared distribution.
    For an even number [dof = 2m] of degrees of freedom, the only case
    [main] asks for, the distribution function has the closed form
    [1 - exp(-x/2) * (1 + (x/2) + ... + (x/2)^(m-1)/(m-1)!)]. *)
Definition chi2cdf (dof : Z) (x : R) : R :=
  1 - exp (- (x / 2)) * exp_partial (Z.to_nat (dof / 2)) (x / 2).

(** Modelled from the spec: the inverse CDF, as the point [x >= 0] at which
    the distribution function takes the value [p]. *)
Definition chi2cdf_inv (p : R) (dof : Z) : R :=
  epsilon (inhabits 0) (fun x => 0 <= x /\ chi2cdf dof x = p).

Definition DS_COMB_ARM : Z := 2.

Definition thresh1_n_nines : nat := 12.

(** [R_th1] (line 362); [pow(10.0,-thresh1_n_nines)] is [1/10^12]. *)
Definition R_th1 (n_comb_xc : Z) : R :=
  chi2cdf_inv (1 - / 10 ^ thresh1_n_nines) (2 * n_comb_xc * (2 * DS_COMB_ARM + 1)).

(** [rx_cutoff] (line 363); [FS_LTE] is a constant of constants.h, which is
    not among the sources. *)
Definition rx_cutoff (FS_LTE : R) : R :=
  (6 * 12 * 15e3 / 2 + 4 * 15e3) / (FS_LTE / 16 / 2).

(** [Z_th1] (line 364): a scalar times the vector [sp_incoherent], divided
    by scalars one after the other. *)
Definition Z_th1 (FS_LTE : R) (n_comb_xc : Z) (sp_incoherent : list R) : list R :=
  map (fun sp =>
         R_th1 n_comb_xc * sp / rx_cutoff FS_LTE / 137 / 2
         / IZR n_comb_xc / IZR (2 * DS_COMB_ARM + 1))
      sp_incoherent.

(** What multiplies each noise-power estimate in [Z_th1]. *)
Definition threshold_gain (FS_LTE : R) (n_comb_xc : Z) : R :=
  R_th1 n_comb_xc / rx_cutoff FS_LTE / 137 / 2
  / IZR n_comb_xc / IZR (2 * DS_COMB_ARM + 1).

(** The threshold in the words of the specification: the inverse CDF at
    [1 - 10^(-12)], multiplied by the noise-power estimate and divided by
    the receiver-bandwidth normalization, the hypothesis count and the
    combining width. *)
Definition threshold_spec (FS_LTE : R) (n_comb_xc : Z) (sp_incoherent : list R)
  : list R :=
  map (fun sp =>
         chi2cdf_inv (1 - / 10 ^ 12) (2 * n_comb_xc * (2 * DS_COMB_ARM + 1)) * sp
         / rx_cutoff FS_LTE / IZR n_comb_xc / IZR (2 * DS_COMB_ARM + 1))
      sp_incoherent.

End Threshold.

(** ** Predicates used to state the properties of [dedup] *)

Section DedupSpec.

Variable n_id_cell : Cell -> Z.

(** The candidates of [l] fall into groups: on [l], matching is transitive
    (it is always reflexive and symmetric). *)
Definition grouped (l : list Cell) : Prop :=
  forall a b c, In a l -> In b l -> In c l ->
    same_cell n_id_cell a b = true -> same_cell n_id_cell b c = true ->
    same_cell n_id_cell a c = true.

(** No two entries of the list match each other. *)
Fixpoint separated (l : list Cell) : Prop :=
  match l with
  | [] => True
  | x :: rest =>
      (forall y, In y rest -> same_cell n_id_cell x y = false) /\ separated rest
  end.

(** Every cell of [seen] has a matching entry in [kept] that is at least as
    strong. *)
Definition represented (seen kept : list Cell) : Prop :=
  forall x, In x seen ->
    exists y, In y kept /\ same_cell n_id_cell x y = true /\ pss_pow x <= pss_pow y.

(** No two cells of [l] that match each other have the same power. *)
Definition no_ties (l : list Cell) : Prop :=
  forall a b, In a l -> In b l ->
    same_cell n_id_cell a b = true -> pss_pow a == pss_pow b -> a = b.

End DedupSpec.

(** ** Concrete inputs *)

(** An instance of [n_id_cell]: the LTE physical-layer cell identity,
    [3*n_id_1 + n_id_2], or [-1] while one of the two is unset. *)
Definition lte_cell_id (c : Cell) : Z :=
  if (0 <=? n_id_1 c)%Z && (0 <=? n_id_2 c)%Z then (n_id_2 c + 3 * n_id_1 c)%Z
  else (-1)%Z.

(** A decoded cell with identity 301, seen at frequency [fc + foff] with
    power [pow]. *)
Definition cell_301 (fc foff pow : Q) : Cell :=
  mkCell fc pow foff 1 100 cp_type_t.NORMAL 25
         phich_duration_t.NORMAL phich_resource_t.one.

(** Three sightings of cell 301, 0.9 MHz apart from one to the next. *)
Definition sighting_A : Cell := cell_301 739000000 0 1.
Definition sighting_B : Cell := cell_301 739900000 0 5.
Definition sighting_C : Cell := cell_301 740800000 0 3.

(** A sighting of cell 301 on another carrier, 10 MHz away. *)
Definition sighting_D : Cell := cell_301 749000000 0 2.

(** A sighting of cell 301 half a MHz above [sighting_A], with the power of
    [sighting_A]. *)
Definition sighting_E : Cell := cell_301 739500000 0 1.

(** A command line that asks for the range from 1000.04 MHz down to
    1000 MHz: [-s 1000040000 -e 1000000000]. *)
Definition descending_range : CommandLine.options :=
  CommandLine.mkOptions 1000040000 1000000000 100 1 false false false.

(** A command line on the raster that asks for a descending range:
    [-s 1000100000 -e 1000000000]. *)
Definition descending_raster_range : CommandLine.options :=
  CommandLine.mkOptions 1000100000 1000000000 100 1 false false false.

(** A cell reported at 1 GHz with a residual offset of 100 Hz. *)
Definition cell_at_1GHz : Cell :=
  mkCell 1000000000 5 100 1 100 cp_type_t.NORMAL 25
         phich_duration_t.NORMAL phich_resource_t.one.

(** A raw correlation peak, as the peak search leaves it: nothing decoded
    yet. *)
Definition raw_peak (fc pow : Q) : Cell :=
  mkCell fc pow 0 1 (-1) cp_type_t.UNKNOWN (-1)
         phich_duration_t.UNKNOWN phich_resource_t.UNKNOWN.

(** Collaborators for a synthetic sweep: the secondary sync is found on
    peaks of power 3 or more, the MIB is decoded on peaks of power 4 or
    more, and the other stages leave the cell as it is. *)
Module Synthetic.

Definition capture_data (fc correction : Q) (save_cap use_recorded_data : bool)
  : unit := tt.

Definition peak_search_cells (capbuf : unit) (f_search_set : list Q) (fc : Q)
  : list Cell :=
  [raw_peak fc 2; raw_peak fc 3; raw_peak fc 5].

Definition sss_detect (c : Cell) (capbuf : unit) (n_sigma : Z) (fc : Q) : Cell :=
  if Qltb (pss_pow c) (inject_Z n_sigma) then c
  else mkCell (cell_fc c) (pss_pow c) (freq_superfine c) (n_id_2 c) 100
              cp_type_t.NORMAL (n_rb_dl c) (phich_duration c) (phich_resource c).

Definition pss_sss_foe (c : Cell) (capbuf : unit) (fc : Q) : Cell := c.

Definition extract_tfg (c : Cell) (capbuf : unit) (fc : Q) : unit := tt.

Definition RS_DL (n_id_cell n_rb : Z) (cp : cp_type_t.cp_type_t) : unit := tt.

Definition tfoec (c : Cell) (tfg : unit) (fc : Q) (rs_dl : unit) : Cell * unit :=
  (c, tt).

Definition decode_mib (c : Cell) (tfg : unit) (rs_dl : unit) : Cell :=
  if Qltb (pss_pow c) 4 then c
  else mkCell (cell_fc c) (pss_pow c) (freq_superfine c) (n_id_2 c) (n_id_1 c)
              (cp_type c) 25 phich_duration_t.NORMAL phich_resource_t.one.

Definition collaborators : Collaborators :=
  Build_Collaborators unit unit unit capture_data peak_search_cells sss_detect
                      pss_sss_foe extract_tfg RS_DL tfoec decode_mib.

End Synthetic.

(** ** The values that the sanity checks work on *)

Module Checked.

(** [freq_start] after lines 194-197. *)
Definition start (a : CommandLine.options) : Q :=
  if CommandLine.off_raster (CommandLine.freq_start a)
  then CommandLine.to_raster (CommandLine.freq_start a)
  else CommandLine.freq_start a.

(** [freq_end] after lines 198-200. *)
Definition given_end (a : CommandLine.options) : Q :=
  if Qeq_bool (CommandLine.freq_end a) (-1) then start a
  else CommandLine.freq_end a.

(** [freq_end] after lines 205-208. *)
Definition final_end (a : CommandLine.options) : Q :=
  if CommandLine.off_raster (given_end a)
  then CommandLine.to_raster (given_end a)
  else given_end a.

End Checked.

(** ** The option loop of [parse_commandline] (lines 86-179) *)

Module GetOpt.

(** What one call of [getopt_long] hands to the [switch] of line 118: the
    option, and for an option with a numeric argument what [strtod] made of
    [optarg] ([None] when nothing, or not all of it, was read as a number:
    the test of lines 138, 145, 152 and 159).  The arguments are numbers
    here; what the checks do with "inf" and "nan" is in [Module Extended]. *)
Inductive option_seen : Set :=
| opt_0                       (* a long option with a flag: case 0 *)
| opt_h
| opt_v
| opt_b
| opt_s (fs : option Q)
| opt_e (fe : option Q)
| opt_p (ppm : option Q)
| opt_c (c : option Q)
| opt_r
| opt_l
| opt_d (dir : string)
| opt_unknown.                (* '?' and default *)

(** The output variables of [parse_commandline], with the global
    [verbosity]. *)
Record variables : Set := mkVariables {
  freq_start : Q;
  freq_end : Q;
  ppm : Q;
  correction : Q;
  save_cap : bool;
  use_recorded_data : bool;
  data_dir : string;
  verbosity : Z
}.

(** Lines 87-93, and line 37 for [verbosity]. *)
Definition defaults : variables :=
  mkVariables (-1) (-1) 100 1 false false "." 1.

(** Why the loop calls [exit(-1)]. *)
Inductive stop : Set :=
| check_code
| help_requested
| bad_start_frequency
| bad_end_frequency
| bad_ppm
| bad_correction
| bad_option.

(** One turn of the [switch] (lines 118-178): the exit, or the variables
    after the turn. *)
Definition step (s : variables) (o : option_seen) : stop + variables :=
  match o with
  | opt_0 => inl check_code
  | opt_h => inl help_requested
  | opt_v =>
      inr (mkVariables (freq_start s) (freq_end s) (ppm s) (correction s)
             (save_cap s) (use_recorded_data s) (data_dir s) 2)
  | opt_b =>
      inr (mkVariables (freq_start s) (freq_end s) (ppm s) (correction s)
             (save_cap s) (use_recorded_data s) (data_dir s) 0)
  | opt_s None => inl bad_start_frequency
  | opt_s (Some v) =>
      inr (mkVariables v (freq_end s) (ppm s) (correction s)
             (save_cap s) (use_recorded_data s) (data_dir s) (verbosity s))
  | opt_e None => inl bad_end_frequency
  | opt_e (Some v) =>
      inr (mkVariables (freq_start s) v (ppm s) (correction s)
             (save_cap s) (use_recorded_data s) (data_dir s) (verbosity s))
  | opt_p None => inl bad_ppm
  | opt_p (Some v) =>
      inr (mkVariables (freq_start s) (freq_end s) v (correction s)
             (save_cap s) (use_recorded_data s) (data_dir s) (verbosity s))
  | opt_c None => inl bad_correction
  | opt_c (Some v) =>
      inr (mkVariables (freq_start s) (freq_end s) (ppm s) v
             (save_cap s) (use_recorded_data s) (data_dir s) (verbosity s))
  | opt_r =>
      inr (mkVariables (freq_start s) (freq_end s) (ppm s) (correction s)
             true (use_recorded_data s) (data_dir s) (verbosity s))
  | opt_l =>
      inr (mkVariables (freq_start s) (freq_end s) (ppm s) (correction s)
             (save_cap s) true (data_dir s) (verbosity s))
  | opt_d dir =>
      inr (mkVariables (freq_start s) (freq_end s) (ppm s) (correction s)
             (save_cap s) (use_recorded_data s) dir (verbosity s))
  | opt_unknown => inl bad_option
  end.

(** The [while (1)] loop (lines 95-179) over the options that
    [getopt_long] returns before it returns [-1]. *)
Fixpoint loop (s : variables) (seen : list option_seen) : stop + variables :=
  match seen with
  | [] => inr s
  | o :: rest =>
      match step s o with
      | inl cause => inl cause
      | inr s' => loop s' rest
      end
  end.

(** The variables as the sanity checks read them; [extra_arguments] is
    [optind < argc]. *)
Definition to_options (s : variables) (extra_arguments : bool)
  : CommandLine.options :=
  CommandLine.mkOptions (freq_start s) (freq_end s) (ppm s) (correction s)
                        (save_cap s) (use_recorded_data s) extra_arguments.

(** How the whole of [parse_commandline] ends. *)
Inductive result : Set :=
| Exit_in_loop (status : Z) (cause : stop)
| Exit_in_checks (status : Z) (e : CommandLine.error)
| Return (o : CommandLine.options) (verbosity : Z) (data_dir : string)
         (w : list CommandLine.warning).

(** [parse_commandline] (lines 73-243): the loop, then the checks. *)
Definition parse_commandline (seen : list option_seen) (extra_arguments : bool)
  : result :=
  match loop defaults seen with
  | inl cause => Exit_in_loop (-1) cause
  | inr s =>
      match CommandLine.parse_commandline (to_options s extra_arguments) with
      | CommandLine.Exit status e => Exit_in_checks status e
      | CommandLine.Return o w => Return o (verbosity s) (data_dir s) w
      end
  end.

(** The process ends with a nonzero exit status. *)
Definition fails (r : result) : Prop :=
  match r with
  | Exit_in_loop status _ | Exit_in_checks status _ => status <> 0%Z
  | Return _ _ _ _ => False
  end.

(** The options on which the [switch] exits at once. *)
Definition fatal (o : option_seen) : bool :=
  match o with
  | opt_0 | opt_h | opt_unknown
  | opt_s None | opt_e None | opt_p None | opt_c None => true
  | _ => false
  end.

Definition is_opt_s (o : option_seen) : bool :=
  match o with opt_s _ => true | _ => false end.

Definition is_opt_r (o : option_seen) : bool :=
  match o with opt_r => true | _ => false end.

Definition is_opt_l (o : option_seen) : bool :=
  match o with opt_l => true | _ => false end.

End GetOpt.

(** ** The sanity checks on every value that [strtod] returns *)

(** [strtod] also reads "inf", "-inf" and "nan", and it reads them
    completely, so the tests of lines 138, 145, 152 and 159 let them through.
    This module repeats the checks of lines 181-225 on doubles that may be an
    infinity or NaN; on numbers it agrees with [CommandLine] (lemma
    [checks_agree]). *)
Module Extended.

(** A [double]: a number, an infinity, or NaN. *)
Inductive double : Set :=
| finite (q : Q)
| pos_inf
| neg_inf
| nan.

(** [x < y]: false as soon as one side is NaN. *)
Definition lt (x y : double) : bool :=
  match x, y with
  | finite p, finite q => Qltb p q
  | finite _, pos_inf => true
  | neg_inf, finite _ => true
  | neg_inf, pos_inf => true
  | _, _ => false
  end.

(** [x == y]: false as soon as one side is NaN. *)
Definition eq (x y : double) : bool :=
  match x, y with
  | finite p, finite q => Qeq_bool p q
  | pos_inf, pos_inf => true
  | neg_inf, neg_inf => true
  | _, _ => false
  end.

(** [x != y]: true as soon as one side is NaN. *)
Definition ne (x y : double) : bool := negb (eq x y).

(** [x / c] and [x * c] for a positive number [c], [x - c] for a number
    [c], and [itpp::round(x)]: the operation on a number; an infinity or NaN
    stays what it is. *)
Definition on_number (f : Q -> Q) (x : double) : double :=
  match x with
  | finite q => finite (f q)
  | pos_inf => pos_inf
  | neg_inf => neg_inf
  | nan => nan
  end.

(** [abs(x)]. *)
Definition abs (x : double) : double :=
  match x with
  | finite q => finite (Qabs q)
  | pos_inf => pos_inf
  | neg_inf => pos_inf
  | nan => nan
  end.

(** The variables of [parse_commandline] when the loop ends without an
    exit, as in [CommandLine.options]. *)
Record options : Set := mkOptions {
  freq_start : double;
  freq_end : double;
  ppm : double;
  correction : double;
  save_cap : bool;
  use_recorded_data : bool;
  extra_arguments : bool
}.

Inductive outcome : Set :=
| Exit (status : Z) (e : CommandLine.error)
| Return (o : options) (w : list CommandLine.warning).

(** [x/100e3 != itpp::round(x/100e3)]: true of NaN, false of an infinity. *)
Definition off_raster (x : double) : bool :=
  ne (on_number (fun q => q / 100e3) x)
     (on_number round (on_number (fun q => q / 100e3) x)).

(** [itpp::round(x/100e3)*100e3]. *)
Definition to_raster (x : double) : double :=
  on_number (fun q => q * 100e3)
            (on_number round (on_number (fun q => q / 100e3) x)).

(** Lines 181-225, in the order of the source. *)
Definition parse_commandline (a : options) : outcome :=
  if extra_arguments a then Exit (-1) CommandLine.extra_arguments_given else
  if lt (freq_start a) (finite 1e6)
  then Exit (-1) CommandLine.start_frequency_below_1MHz else
  let w1 :=
    if off_raster (freq_start a) then [CommandLine.start_frequency_rounded]
    else [] in
  let freq_start' :=
    if off_raster (freq_start a) then to_raster (freq_start a) else freq_start a in
  let freq_end1 :=
    if eq (freq_end a) (finite (-1)) then freq_start' else freq_end a in
  if lt freq_end1 freq_start'
  then Exit (-1) CommandLine.end_frequency_below_start else
  let w2 :=
    if off_raster freq_end1 then [CommandLine.end_frequency_rounded] else [] in
  let freq_end' := if off_raster freq_end1 then to_raster freq_end1 else freq_end1 in
  if lt (ppm a) (finite 0) then Exit (-1) CommandLine.ppm_negative else
  let w3 :=
    if lt (finite 200) (ppm a) then [CommandLine.ppm_unreasonably_high] else [] in
  let w4 :=
    if lt (finite 1000e-6) (abs (on_number (fun q => q - 1) (correction a)))
    then [CommandLine.correction_unreasonable] else [] in
  if save_cap a && use_recorded_data a
  then Exit (-1) CommandLine.read_and_write_capture else
  Return (mkOptions freq_start' freq_end' (ppm a) (correction a)
                    (save_cap a) (use_recorded_data a) false)
         (w1 ++ w2 ++ w3 ++ w4).

(** [freq_start] after lines 194-197. *)
Definition start (a : options) : double :=
  if off_raster (freq_start a) then to_raster (freq_start a) else freq_start a.

(** [freq_end] after lines 198-200. *)
Definition given_end (a : options) : double :=
  if eq (freq_end a) (finite (-1)) then start a else freq_end a.

(** [freq_end] after lines 205-208. *)
Definition final_end (a : options) : double :=
  if off_raster (given_end a) then to_raster (given_end a) else given_end a.

(** [x <= y], used to state what the comparisons leave: false as soon as one
    side is NaN. *)
Definition le (x y : double) : bool :=
  match x, y with
  | finite p, finite q => Qle_bool p q
  | finite _, pos_inf => true
  | neg_inf, finite _ => true
  | neg_inf, pos_inf => true
  | pos_inf, pos_inf => true
  | neg_inf, neg_inf => true
  | _, _ => false
  end.

(** The kinds of doubles. *)
Definition is_nan (x : double) : bool :=
  match x with nan => true | _ => false end.

Definition is_number (x : double) : bool :=
  match x with finite _ => true | _ => false end.

(** A number that is a multiple of 100 kHz. *)
Definition on_raster (q : Q) : Prop :=
  exists k : Z, q == inject_Z k * 100e3.

(** The options of [CommandLine], as doubles. *)
Definition of_options (a : CommandLine.options) : options :=
  mkOptions (finite (CommandLine.freq_start a)) (finite (CommandLine.freq_end a))
            (finite (CommandLine.ppm a)) (finite (CommandLine.correction a))
            (CommandLine.save_cap a) (CommandLine.use_recorded_data a)
            (CommandLine.extra_arguments a).

Definition of_outcome (r : CommandLine.outcome) : outcome :=
  match r with
  | CommandLine.Exit status e => Exit status e
  | CommandLine.Return o w => Return (of_options o) w
  end.

End Extended.

(** ** [freq_formatter] (lines 285-303) *)

(** What the insertions of [freq_formatter] write: a double with
    [setprecision(P)] and [setw(n)] in a stream whose other flags are the
    default ones.  The number is rounded to [P] significant decimal digits
    (a tie goes to the even digit, as in [round]) and written as printf's
    [%.Pg] writes it; [setw] holds for the number only. *)
Module Stream.

(** The nearest integer; a tie goes to the even neighbour. *)
Definition nearest (x : Q) : Z :=
  let f := Qfloor x in
  match (x - inject_Z f ?= 1 # 2)%Q with
  | Lt => f
  | Gt => (f + 1)%Z
  | Eq => if Z.even f then f else (f + 1)%Z
  end.

(** The largest [X] from [lo] to [lo + n] with [10^X <= a], or [lo]. *)
Fixpoint exponent_search (lo : Z) (n : nat) (a : Q) : Z :=
  match n with
  | O => lo
  | S k =>
      if Qle_bool (10 ^ (lo + Z.of_nat n))%Q a then (lo + Z.of_nat n)%Z
      else exponent_search lo k a
  end.

(** The decimal exponent of a positive double [a]: [10^X <= a < 10^(X+1)].
    The exponents of doubles lie between -324 and 308. *)
Definition decimal_exponent (a : Q) : Z := exponent_search (-324) 632 a.

(** The character of a decimal digit. *)
Definition digit (d : Z) : ascii := ascii_of_nat (48 + Z.to_nat d).

(** The last [n] decimal digits of [z]. *)
Fixpoint digits (n : nat) (z : Z) : string :=
  match n with
  | O => EmptyString
  | S k => (digits k (z / 10) ++ String (digit (z mod 10)) EmptyString)%string
  end.

(** The decimal digits of a natural number [z]. *)
Definition decimal (z : Z) : string :=
  if (z <? 10)%Z then digits 1 z
  else digits (S (Z.to_nat (exponent_search 0 30 (inject_Z z)))) z.

(** [n] times the character [c]. *)
Fixpoint repeat_char (c : ascii) (n : nat) : string :=
  match n with
  | O => EmptyString
  | S k => String c (repeat_char c k)
  end.

(** A string of digits without its trailing zeros. *)
Fixpoint strip_zeros (s : string) : string :=
  match s with
  | EmptyString => EmptyString
  | String c rest =>
      match strip_zeros rest with
      | EmptyString => if Ascii.eqb c "0" then EmptyString else String c EmptyString
      | kept => String c kept
      end
  end.

(** The digits after the point, with the point; nothing when they are all
    zero. *)
Definition fraction (ds : string) : string :=
  match strip_zeros ds with
  | EmptyString => EmptyString
  | kept => String "." kept
  end.

(** [m], of [P] digits, times [10^(X-P+1)], in fixed notation
    ([-4 <= X < P]). *)
Definition fixed (P : nat) (m X : Z) : string :=
  let ds := digits P m in
  if (X <? 0)%Z then
    String "0" (fraction (repeat_char "0" (Z.to_nat (- X - 1)) ++ ds)%string)
  else
    (substring 0 (S (Z.to_nat X)) ds
     ++ fraction (substring (S (Z.to_nat X)) (P - S (Z.to_nat X)) ds))%string.

(** The same number with an exponent of two digits or more: [d.dde+XX]. *)
Definition scientific (P : nat) (m X : Z) : string :=
  let ds := digits P m in
  (substring 0 1 ds ++ fraction (substring 1 (P - 1) ds)
   ++ "e" ++ (if (X <? 0)%Z then "-" else "+")
   ++ (if (Z.abs X <? 10)%Z then "0" else "") ++ decimal (Z.abs X))%string.

(** A double written to a stream whose precision is [P] and whose float
    field is unset: the conversion [%.Pg] of printf.  [P] significant digits
    of the nearest decimal number, with an exponent when the decimal exponent
    [X] is below -4 or not below [P], without trailing zeros. *)
Definition general (P : nat) (x : Q) : string :=
  if Qeq_bool x 0 then "0"%string else
  let a := Qabs x in
  let X0 := decimal_exponent a in
  let m0 := nearest (a / 10 ^ (X0 - Z.of_nat P + 1)) in
  let m := if (m0 =? 10 ^ Z.of_nat P)%Z then (10 ^ (Z.of_nat P - 1))%Z else m0 in
  let X := if (m0 =? 10 ^ Z.of_nat P)%Z then (X0 + 1)%Z else X0 in
  ((if Qltb x 0 then "-" else "")
   ++ (if (X <? -4)%Z || (Z.of_nat P <=? X)%Z then scientific P m X
       else fixed P m X))%string.

(** [setw(n)]: the text is padded with spaces on the left to [n]
    characters. *)
Definition setw (n : nat) (s : string) : string :=
  (repeat_char " " (n - String.length s) ++ s)%string.

(** The value of a decimal digit. *)
Definition digit_value (c : ascii) : option Z :=
  let n := nat_of_ascii c in
  if (48 <=? n)%nat && (n <=? 57)%nat then Some (Z.of_nat (n - 48)) else None.

(** The digits after the point: [num / den] is what was read so far. *)
Fixpoint read_fraction (s : string) (num : Z) (den : positive) : option Q :=
  match s with
  | EmptyString => Some (num # den)
  | String c rest =>
      match digit_value c with
      | Some d => read_fraction rest (10 * num + d)%Z (10 * den)%positive
      | None => None
      end
  end.

(** The digits before the point, or up to the end. *)
Fixpoint read_integer (s : string) (num : Z) : option Q :=
  match s with
  | EmptyString => Some (inject_Z num)
  | String c rest =>
      if Ascii.eqb c "." then read_fraction rest num 1
      else match digit_value c with
           | Some d => read_integer rest (10 * num + d)%Z
           | None => None
           end
  end.

(** The number that a text in fixed notation denotes: spaces, then digits,
    then possibly a point and more digits; [None] for any other text (a
    sign, an exponent).  Used to state what [freq_formatter] writes. *)
Fixpoint read_number (s : string) : option Q :=
  match s with
  | EmptyString => None
  | String c rest =>
      if Ascii.eqb c " " then read_number rest
      else match digit_value c with
           | Some d => read_integer rest d
           | None => None
           end
  end.

End Stream.

(** [freq_formatter]: the text that the stream [temp] holds at the end. *)
Definition freq_formatter (freq : Q) : string :=
  if Qltb freq 998.0 then (Stream.setw 4 (Stream.general 3 freq) ++ "h")%string
  else if Qltb freq 998000.0
  then (Stream.setw 4 (Stream.general 3 (freq / 1e3)) ++ "k")%string
  else if Qltb freq 998000000.0
  then (Stream.setw 4 (Stream.general 3 (freq / 1e6)) ++ "m")%string
  else if Qltb freq 998000000000.0
  then (Stream.setw 4 (Stream.general 3 (freq / 1e9)) ++ "g")%string
  else if Qltb freq 998000000000000.0
  then (Stream.setw 4 (Stream.general 3 (freq / 1e12)) ++ "t")%string
  else Stream.general 6 freq.

(** ** One more predicate on the lists of [dedup] *)

Section DedupCover.

Variable n_id_cell : Cell -> Z.

(** Every cell of [seen] has an entry of [kept] with its identity and at
    least its power. *)
Definition covered (seen kept : list Cell) : Prop :=
  forall x, In x seen ->
    exists y, In y kept /\ n_id_cell y = n_id_cell x /\ pss_pow x <= pss_pow y.

End DedupCover.

(** ** Predicates used to state the properties of the examination *)

Section PipelineSpec.

Variable n_id_cell : Cell -> Z.
Variable E : Collaborators.

(** The two tests of the loop body (lines 391 and 415) both pass on the
    peak. *)
Definition confirmed (capbuf : capbuf_t E) (fc : Q) (peak : Cell) : bool :=
  let c1 := sss_detect E peak capbuf THRESH2_N_SIGMA fc in
  negb (n_id_1 c1 =? -1)%Z
  && negb (n_rb_dl (mib_decoded n_id_cell E capbuf fc c1) =? -1)%Z.

End PipelineSpec.

(** ** More concrete inputs *)

(** The synthetic collaborators with a peak search that finds one weak peak
    per center frequency. *)
Definition weak_peaks : Collaborators :=
  Build_Collaborators unit unit unit Synthetic.capture_data
    (fun _ _ fc => [raw_peak fc 2])
    Synthetic.sss_detect Synthetic.pss_sss_foe Synthetic.extract_tfg
    Synthetic.RS_DL Synthetic.tfoec Synthetic.decode_mib.

(** A cell with identity 302, seen at frequency [fc + foff] with power
    [pow]. *)
Definition cell_302 (fc foff pow : Q) : Cell :=
  mkCell fc pow foff 2 100 cp_type_t.NORMAL 25
         phich_duration_t.NORMAL phich_resource_t.one.

(** The variables after [-s 739000000]: one center frequency. *)
Definition single_frequency : CommandLine.options :=
  CommandLine.mkOptions 739000000 (-1) 100 1 false false false.

(** The variables after [-s nan]. *)
Definition nan_start : Extended.options :=
  Extended.mkOptions Extended.nan (Extended.finite (-1)) (Extended.finite 100)
                     (Extended.finite 1) false false false.

(** The command line [-s 739000000 -p 50 -r]. *)
Definition typical_options : list GetOpt.option_seen :=
  [GetOpt.opt_s (Some 739000000); GetOpt.opt_p (Some 50); GetOpt.opt_r].

(** * Properties *)

(** ** Comparisons *)

Lemma Qltb_lt (a b : Q) : Qltb a b = true <-> a < b.
Proof.
  unfold Qltb. rewrite Qlt_alt.
  destruct (a ?= b); split; intro H; try reflexivity; discriminate H.
Qed.

Lemma Qltb_ge (a b : Q) : Qltb a b = false <-> b <= a.
Proof.
  rewrite <- not_true_iff_false, Qltb_lt. split.
  - apply Qnot_lt_le.
  - apply Qle_not_lt.
Qed.

(** ** [dedup]: one new cell against [cells_final] *)

Section DedupFacts.

Variable n_id_cell : Cell -> Z.

Lemma same_cell_spec (n f : Cell) :
  same_cell n_id_cell n f = true <->
  n_id_cell n = n_id_cell f /\ Qabs (corrected_freq n - corrected_freq f) < 1e6.
Proof.
  unfold same_cell. rewrite andb_true_iff, Z.eqb_eq, Qltb_lt. tauto.
Qed.

Lemma same_cell_far (n f : Cell) :
  1e6 <= Qabs (corrected_freq n - corrected_freq f) ->
  same_cell n_id_cell n f = false.
Proof.
  intro H. unfold same_cell.
  apply Qltb_ge in H. rewrite H. apply andb_false_r.
Qed.

Lemma same_cell_sym (a b : Cell) :
  same_cell n_id_cell a b = same_cell n_id_cell b a.
Proof.
  unfold same_cell.
  rewrite (Z.eqb_sym (n_id_cell a)), Qabs_Qminus. reflexivity.
Qed.

Lemma same_cell_refl (a : Cell) : same_cell n_id_cell a a = true.
Proof.
  apply same_cell_spec. split; [reflexivity|].
  setoid_replace (corrected_freq a - corrected_freq a) with 0 by ring.
  reflexivity.
Qed.

(** The scan finds nothing when no cell of the list matches. *)
Lemma dedup_scan_none (n : Cell) (l : list Cell) :
  (forall z, In z l -> same_cell n_id_cell n z = false) ->
  dedup_scan n_id_cell n l = None.
Proof.
  induction l as [|f rest IH]; intro H; simpl; [reflexivity|].
  rewrite (H f (or_introl eq_refl)), IH; [reflexivity|].
  intros z Hz. apply H. right. exact Hz.
Qed.

(** The scan stops at the first matching cell and touches only that one. *)
Lemma dedup_scan_first (n f : Cell) (pre post : list Cell) :
  (forall z, In z pre -> same_cell n_id_cell n z = false) ->
  same_cell n_id_cell n f = true ->
  dedup_scan n_id_cell n (pre ++ f :: post)
  = Some (pre ++ (if Qltb (pss_pow f) (pss_pow n) then n else f) :: post).
Proof.
  intros Hpre Hf. induction pre as [|z pre IH]; simpl.
  - rewrite Hf. reflexivity.
  - rewrite (Hpre z (or_introl eq_refl)), IH; [reflexivity|].
    intros y Hy. apply Hpre. right. exact Hy.
Qed.

(** Every list either holds no match, or splits at its first match. *)
Lemma first_match_split (n : Cell) (l : list Cell) :
  (forall z, In z l -> same_cell n_id_cell n z = false) \/
  (exists pre f post,
      l = pre ++ f :: post /\
      (forall z, In z pre -> same_cell n_id_cell n z = false) /\
      same_cell n_id_cell n f = true).
Proof.
  induction l as [|f rest IH].
  - left. intros z [].
  - destruct (same_cell n_id_cell n f) eqn:Hf.
    + right. exists [], f, rest. repeat split; [intros z []|exact Hf].
    + destruct IH as [Hnone|(pre & g & post & -> & Hpre & Hg)].
      * left. intros z [<-|Hz]; [exact Hf|apply Hnone, Hz].
      * right. exists (f :: pre), g, post. repeat split; [|exact Hg].
        intros z [<-|Hz]; [exact Hf|apply Hpre, Hz].
Qed.

Lemma dedup_insert_none (n : Cell) (l : list Cell) :
  (forall z, In z l -> same_cell n_id_cell n z = false) ->
  dedup_insert n_id_cell l n = l ++ [n].
Proof.
  intro H. unfold dedup_insert. rewrite dedup_scan_none by exact H.
  reflexivity.
Qed.

Lemma dedup_insert_first (n f : Cell) (pre post : list Cell) :
  (forall z, In z pre -> same_cell n_id_cell n z = false) ->
  same_cell n_id_cell n f = true ->
  dedup_insert n_id_cell (pre ++ f :: post) n
  = pre ++ (if Qltb (pss_pow f) (pss_pow n) then n else f) :: post.
Proof.
  intros Hpre Hf. unfold dedup_insert.
  rewrite dedup_scan_first by assumption. reflexivity.
Qed.

(** The two nested loops process the cells of all the lists, in order. *)
Lemma dedup_list_app (acc l1 l2 : list Cell) :
  dedup_list n_id_cell acc (l1 ++ l2)
  = dedup_list n_id_cell (dedup_list n_id_cell acc l1) l2.
Proof. unfold dedup_list. apply fold_left_app. Qed.

Lemma dedup_from_concat (detected_cells : list (list Cell)) (acc : list Cell) :
  fold_left (dedup_list n_id_cell) detected_cells acc
  = dedup_list n_id_cell acc (concat detected_cells).
Proof.
  revert acc. induction detected_cells as [|l rest IH]; intro acc; simpl.
  - reflexivity.
  - rewrite IH, dedup_list_app. reflexivity.
Qed.

Lemma dedup_concat (detected_cells : list (list Cell)) :
  dedup n_id_cell detected_cells = dedup_list n_id_cell [] (concat detected_cells).
Proof. apply dedup_from_concat. Qed.

(** ** [dedup]: ties, and an input of two candidates *)

(** C10.  When the new cell [n] matches a cell [f] of [cells_final] (the
    first one it matches), [f] is replaced by [n] only if the power of [n] is
    strictly greater: with equal powers, and more generally whenever
    [pss_pow n <= pss_pow f], [cells_final] is left as it is, so the
    first-seen cell stays and the new one is dropped. *)
Theorem dedup_tie_keeps_first_seen (n f : Cell) (pre post : list Cell) :
  (forall z, In z pre -> same_cell n_id_cell n z = false) ->
  same_cell n_id_cell n f = true ->
  (pss_pow n == pss_pow f ->
   dedup_insert n_id_cell (pre ++ f :: post) n = pre ++ f :: post) /\
  (pss_pow n <= pss_pow f ->
   dedup_insert n_id_cell (pre ++ f :: post) n = pre ++ f :: post) /\
  (pss_pow f < pss_pow n ->
   dedup_insert n_id_cell (pre ++ f :: post) n = pre ++ n :: post).
Proof.
  intros Hpre Hf. rewrite dedup_insert_first by assumption.
  assert (Hle : pss_pow n <= pss_pow f ->
                pre ++ (if Qltb (pss_pow f) (pss_pow n) then n else f) :: post
                = pre ++ f :: post).
  { intro H. apply Qltb_ge in H. rewrite H. reflexivity. }
  repeat split.
  - intro Heq. apply Hle. rewrite Heq. apply Qle_refl.
  - exact Hle.
  - intro H. apply Qltb_lt in H. rewrite H. reflexivity.
Qed.

(** [dedup] on an input that holds two cells, [a] before [b], wherever the
    two stand in the vector of lists. *)
Lemma dedup_pair (detected_cells : list (list Cell)) (a b : Cell) :
  concat detected_cells = [a; b] ->
  dedup n_id_cell detected_cells
  = if same_cell n_id_cell b a
    then [if Qltb (pss_pow a) (pss_pow b) then b else a]
    else [a; b].
Proof.
  intro H. rewrite dedup_concat, H. unfold dedup_list. simpl.
  unfold dedup_insert at 2. simpl.
  unfold dedup_insert. simpl.
  destruct (same_cell n_id_cell b a); reflexivity.
Qed.

End DedupFacts.

(** ** [dedup] on candidates that fall into groups *)

Section DedupGroups.

Variable n_id_cell : Cell -> Z.

Lemma separated_In (l : list Cell) (a b : Cell) :
  separated n_id_cell l -> In a l -> In b l ->
  same_cell n_id_cell a b = true -> a = b.
Proof.
  induction l as [|x rest IH]; simpl; [intros _ []|].
  intros [Hx Hrest] Ha Hb Hab.
  destruct Ha as [<-|Ha], Hb as [<-|Hb].
  - reflexivity.
  - rewrite (Hx b Hb) in Hab. discriminate.
  - rewrite same_cell_sym, (Hx a Ha) in Hab. discriminate.
  - apply IH; assumption.
Qed.

Lemma separated_app (l1 l2 : list Cell) :
  separated n_id_cell (l1 ++ l2) <->
  separated n_id_cell l1 /\ separated n_id_cell l2 /\
  (forall x y, In x l1 -> In y l2 -> same_cell n_id_cell x y = false).
Proof.
  induction l1 as [|a l1 IH]; simpl.
  - intuition.
  - rewrite IH. split.
    + intros (Ha & H1 & H2 & H12). repeat split; try assumption.
      * intros y Hy. apply Ha, in_or_app. left. exact Hy.
      * intros x y [<-|Hx] Hy; [apply Ha, in_or_app; right; exact Hy|].
        apply H12; assumption.
    + intros ((Ha & H1) & H2 & H12). repeat split; try assumption.
      * intros y Hy. apply in_app_or in Hy. destruct Hy as [Hy|Hy].
        -- apply Ha, Hy.
        -- apply H12; [left; reflexivity|exact Hy].
      * intros x y Hx Hy. apply H12; [right; exact Hx|exact Hy].
Qed.

(** Replacing an entry by a cell that matches none of the others. *)
Lemma separated_replace (pre post : list Cell) (f n : Cell) :
  separated n_id_cell (pre ++ f :: post) ->
  (forall z, In z pre \/ In z post -> same_cell n_id_cell n z = false) ->
  separated n_id_cell (pre ++ n :: post).
Proof.
  rewrite !separated_app. simpl.
  intros (Hpre & (_ & Hpost) & Hcross) Hn. repeat split; try assumption.
  - intros y Hy. apply Hn. right. exact Hy.
  - intros x y Hx [<-|Hy].
    + rewrite same_cell_sym. apply Hn. left. exact Hx.
    + apply Hcross; [exact Hx|right; exact Hy].
Qed.

(** What one turn of the loop keeps true: the entries of [cells_final] are
    cells that were processed, no two of them match, and every processed
    cell has a matching entry at least as strong. *)
Lemma dedup_insert_invariant (all done acc : list Cell) (n : Cell) :
  grouped n_id_cell all -> incl (n :: done) all ->
  incl acc done -> separated n_id_cell acc -> represented n_id_cell done acc ->
  incl (dedup_insert n_id_cell acc n) (done ++ [n]) /\
  separated n_id_cell (dedup_insert n_id_cell acc n) /\
  represented n_id_cell (done ++ [n]) (dedup_insert n_id_cell acc n).
Proof.
  intros Hgr Hall Hincl Hsep Hrep.
  assert (Hn : In n all) by (apply Hall; left; reflexivity).
  assert (Hdone : forall x, In x done -> In x all)
    by (intros x Hx; apply Hall; right; exact Hx).
  destruct (first_match_split n_id_cell n acc)
    as [Hnone|(pre & f & post & -> & Hpre & Hf)].
  - (* no match: [n] is appended *)
    rewrite dedup_insert_none by exact Hnone. repeat split.
    + apply incl_app; [apply incl_appl, Hincl|apply incl_appr, incl_refl].
    + apply separated_app. simpl. repeat split; try assumption.
      * intros y [].
      * intros x y Hx [<-|[]]. rewrite same_cell_sym. apply Hnone, Hx.
    + intros x Hx. apply in_app_or in Hx. destruct Hx as [Hx|[<-|[]]].
      * destruct (Hrep x Hx) as (y & Hy & Hxy & Hpow).
        exists y. repeat split; try assumption. apply in_or_app. left. exact Hy.
      * exists n. repeat split.
        -- apply in_or_app. right. left. reflexivity.
        -- apply same_cell_refl.
        -- apply Qle_refl.
  - (* [f] is the first match *)
    rewrite dedup_insert_first by assumption.
    assert (Hfacc : In f (pre ++ f :: post))
      by (apply in_or_app; right; left; reflexivity).
    destruct (Qltb (pss_pow f) (pss_pow n)) eqn:Hpow.
    + (* [n] is stronger and takes the place of [f] *)
      apply Qltb_lt in Hpow. repeat split.
      * intros z Hz. apply in_app_or in Hz. apply in_or_app.
        destruct Hz as [Hz|[<-|Hz]].
        -- left. apply Hincl, in_or_app. left. exact Hz.
        -- right. left. reflexivity.
        -- left. apply Hincl, in_or_app. right. right. exact Hz.
      * apply (separated_replace pre post f n Hsep).
        intros z Hz.
        assert (Hzacc : In z (pre ++ f :: post)).
        { apply in_or_app. destruct Hz as [Hz|Hz]; [left|right; right]; exact Hz. }
        destruct (same_cell n_id_cell n z) eqn:Hnz; [|reflexivity].
        exfalso.
        assert (Hfz : same_cell n_id_cell f z = true).
        { apply (Hgr f n z); auto. rewrite same_cell_sym. exact Hf. }
        apply separated_app in Hsep. simpl in Hsep.
        destruct Hsep as (_ & (Hfpost & _) & Hcross).
        destruct Hz as [Hz|Hz].
        -- rewrite same_cell_sym, (Hcross z f Hz (or_introl eq_refl)) in Hfz.
           discriminate.
        -- rewrite (Hfpost z Hz) in Hfz. discriminate.
      * intros x Hx. apply in_app_or in Hx. destruct Hx as [Hx|[<-|[]]].
        -- destruct (Hrep x Hx) as (y & Hy & Hxy & Hle).
           apply in_app_or in Hy. destruct Hy as [Hy|[<-|Hy]].
           ++ exists y. repeat split; try assumption. apply in_or_app. left. exact Hy.
           ++ exists n. repeat split.
              ** apply in_or_app. right. left. reflexivity.
              ** apply (Hgr x f n); auto. rewrite same_cell_sym. exact Hf.
              ** apply Qlt_le_weak. eapply Qle_lt_trans; eassumption.
           ++ exists y. repeat split; try assumption.
              apply in_or_app. right. right. exact Hy.
        -- exists n. repeat split.
           ++ apply in_or_app. right. left. reflexivity.
           ++ apply same_cell_refl.
           ++ apply Qle_refl.
    + (* [f] is at least as strong and stays *)
      apply Qltb_ge in Hpow. repeat split.
      * apply incl_appl, Hincl.
      * exact Hsep.
      * intros x Hx. apply in_app_or in Hx. destruct Hx as [Hx|[<-|[]]].
        -- apply Hrep, Hx.
        -- exists f. repeat split; assumption.
Qed.

Lemma dedup_list_invariant (all rest done acc : list Cell) :
  grouped n_id_cell all -> incl (done ++ rest) all ->
  incl acc done -> separated n_id_cell acc -> represented n_id_cell done acc ->
  incl (dedup_list n_id_cell acc rest) (done ++ rest) /\
  separated n_id_cell (dedup_list n_id_cell acc rest) /\
  represented n_id_cell (done ++ rest) (dedup_list n_id_cell acc rest).
Proof.
  intro Hgr. revert done acc.
  induction rest as [|n rest IH]; intros done acc Hall Hincl Hsep Hrep.
  - rewrite app_nil_r. auto.
  - change (dedup_list n_id_cell acc (n :: rest))
      with (dedup_list n_id_cell (dedup_insert n_id_cell acc n) rest).
    replace (done ++ n :: rest) with ((done ++ [n]) ++ rest) in *
      by (rewrite <- app_assoc; reflexivity).
    destruct (dedup_insert_invariant all done acc n Hgr) as (H1 & H2 & H3);
      try assumption.
    { intros z [<-|Hz]; apply Hall, in_or_app; left; apply in_or_app;
        [right; left; reflexivity|left; exact Hz]. }
    apply IH; assumption.
Qed.

(** The output of [dedup] on grouped candidates. *)
Lemma dedup_groups (detected_cells : list (list Cell)) :
  grouped n_id_cell (concat detected_cells) ->
  incl (dedup n_id_cell detected_cells) (concat detected_cells) /\
  separated n_id_cell (dedup n_id_cell detected_cells) /\
  represented n_id_cell (concat detected_cells) (dedup n_id_cell detected_cells).
Proof.
  intro Hgr. rewrite dedup_concat.
  apply (dedup_list_invariant (concat detected_cells) (concat detected_cells) [] []);
    simpl; auto using incl_refl.
  intros x [].
Qed.

(** The entry kept for a group is a strongest cell of the group. *)
Lemma dedup_keeps_maximum (detected_cells : list (list Cell)) (x y : Cell) :
  grouped n_id_cell (concat detected_cells) ->
  In y (dedup n_id_cell detected_cells) -> In x (concat detected_cells) ->
  same_cell n_id_cell x y = true -> pss_pow x <= pss_pow y.
Proof.
  intros Hgr Hy Hx Hxy.
  destruct (dedup_groups detected_cells Hgr) as (Hincl & Hsep & Hrep).
  destruct (Hrep x Hx) as (y0 & Hy0 & Hxy0 & Hle).
  assert (Hyy0 : same_cell n_id_cell y y0 = true).
  { apply (Hgr y x y0); auto. rewrite same_cell_sym. exact Hxy. }
  rewrite (separated_In _ y y0 Hsep Hy Hy0 Hyy0). exact Hle.
Qed.

Lemma grouped_Permutation (l l' : list Cell) :
  Permutation l l' -> grouped n_id_cell l -> grouped n_id_cell l'.
Proof.
  intros Hp Hgr a b c Ha Hb Hc. apply Permutation_sym in Hp.
  apply Hgr; eapply Permutation_in; eassumption.
Qed.

(** Whatever the order, the entry kept for a group has the same power. *)
Lemma dedup_same_power (dc dc' : list (list Cell)) (y : Cell) :
  Permutation (concat dc) (concat dc') -> grouped n_id_cell (concat dc) ->
  In y (dedup n_id_cell dc) ->
  exists y', In y' (dedup n_id_cell dc') /\
             same_cell n_id_cell y y' = true /\ pss_pow y == pss_pow y'.
Proof.
  intros Hp Hgr Hy.
  assert (Hgr' := grouped_Permutation _ _ Hp Hgr).
  destruct (dedup_groups dc Hgr) as (Hincl & _ & _).
  destruct (dedup_groups dc' Hgr') as (Hincl' & _ & Hrep').
  destruct (Hrep' y) as (y' & Hy' & Hyy' & Hle).
  { eapply Permutation_in; [exact Hp|]. apply Hincl, Hy. }
  exists y'. repeat split; try assumption.
  apply Qle_antisym; [exact Hle|].
  apply (dedup_keeps_maximum dc y' y Hgr Hy).
  - eapply Permutation_in; [apply Permutation_sym, Hp|]. apply Hincl', Hy'.
  - rewrite same_cell_sym. exact Hyy'.
Qed.

(** C2 (as amended).  When the candidates fall into groups (matching is
    transitive on the input), the output of [dedup] is made of input
    candidates, holds exactly one entry per group, and that entry has the
    maximum power of its group.  Processing the candidates in another order
    ([dc'] holds the cells of [dc], permuted) keeps, for every group, an entry
    of the same power; when no two matching cells have equal power, the two
    outputs have the same members. *)
Theorem dedup_order_independent_on_groups (dc dc' : list (list Cell)) :
  Permutation (concat dc) (concat dc') ->
  grouped n_id_cell (concat dc) ->
  incl (dedup n_id_cell dc) (concat dc) /\
  separated n_id_cell (dedup n_id_cell dc) /\
  (forall x, In x (concat dc) ->
     exists y, In y (dedup n_id_cell dc) /\ same_cell n_id_cell x y = true) /\
  (forall x y, In y (dedup n_id_cell dc) -> In x (concat dc) ->
     same_cell n_id_cell x y = true -> pss_pow x <= pss_pow y) /\
  (forall y, In y (dedup n_id_cell dc) ->
     exists y', In y' (dedup n_id_cell dc') /\
                same_cell n_id_cell y y' = true /\ pss_pow y == pss_pow y') /\
  (no_ties n_id_cell (concat dc) ->
   forall y, In y (dedup n_id_cell dc) <-> In y (dedup n_id_cell dc')).
Proof.
  intros Hp Hgr.
  assert (Hgr' := grouped_Permutation _ _ Hp Hgr).
  destruct (dedup_groups dc Hgr) as (Hincl & Hsep & Hrep).
  destruct (dedup_groups dc' Hgr') as (Hincl' & _ & _).
  split; [exact Hincl|]. split; [exact Hsep|]. split; [|split; [|split]].
  - intros x Hx. destruct (Hrep x Hx) as (y & Hy & Hxy & _). eauto.
  - intros x y Hy Hx. apply (dedup_keeps_maximum dc); assumption.
  - intros y Hy. apply (dedup_same_power dc); assumption.
  - intros Hties y. split; intro Hy.
    + destruct (dedup_same_power dc dc' y Hp Hgr Hy) as (y' & Hy' & Hyy' & Heq).
      replace y with y'; [exact Hy'|]. symmetry.
      apply Hties; try assumption; [apply Hincl, Hy|].
      eapply Permutation_in; [apply Permutation_sym, Hp|]. apply Hincl', Hy'.
    + destruct (dedup_same_power dc' dc y (Permutation_sym Hp) Hgr' Hy)
        as (y' & Hy' & Hyy' & Heq).
      replace y with y'; [exact Hy'|]. symmetry.
      apply Hties; try assumption; [|apply Hincl, Hy'].
      eapply Permutation_in; [apply Permutation_sym, Hp|]. apply Hincl', Hy.
Qed.

End DedupGroups.

(** ** [dedup]: two candidates of the input *)

Section DedupPairs.

Variable n_id_cell : Cell -> Z.

(** C1 (as amended).  Two candidates [a] and [b] with the same cell
    identity.

    When they are the whole input of [dedup] ([a] before [b], in one list or
    in two): if their corrected frequencies are less than 1 MHz apart, the
    output is one of them alone, the one with the strictly greater power
    ([a], the first seen, when the powers are equal); if they are 1 MHz or
    more apart, the output holds both, as two entries.

    When the input holds other candidates too, and matching is transitive on
    it: if [a] and [b] are less than 1 MHz apart, the output holds at most
    one of them, it does not hold the strictly weaker one, and it holds an
    entry that matches both and is at least as strong as each; if they are
    1 MHz or more apart, they are represented by two different entries, each
    matching its candidate and at least as strong. *)
Theorem dedup_two_candidates (detected_cells : list (list Cell)) (a b : Cell) :
  n_id_cell a = n_id_cell b ->
  (concat detected_cells = [a; b] ->
   (Qabs (corrected_freq a - corrected_freq b) < 1e6 ->
    (dedup n_id_cell detected_cells = [a] \/ dedup n_id_cell detected_cells = [b]) /\
    (pss_pow b < pss_pow a -> dedup n_id_cell detected_cells = [a]) /\
    (pss_pow a < pss_pow b -> dedup n_id_cell detected_cells = [b]) /\
    (pss_pow a == pss_pow b -> dedup n_id_cell detected_cells = [a])) /\
   (1e6 <= Qabs (corrected_freq a - corrected_freq b) ->
    dedup n_id_cell detected_cells = [a; b])) /\
  (grouped n_id_cell (concat detected_cells) ->
   In a (concat detected_cells) -> In b (concat detected_cells) ->
   (Qabs (corrected_freq a - corrected_freq b) < 1e6 ->
    (In a (dedup n_id_cell detected_cells) ->
     In b (dedup n_id_cell detected_cells) -> a = b) /\
    (pss_pow a < pss_pow b -> ~ In a (dedup n_id_cell detected_cells)) /\
    (pss_pow b < pss_pow a -> ~ In b (dedup n_id_cell detected_cells)) /\
    (exists y, In y (dedup n_id_cell detected_cells) /\
               same_cell n_id_cell a y = true /\ same_cell n_id_cell b y = true /\
               pss_pow a <= pss_pow y /\ pss_pow b <= pss_pow y)) /\
   (1e6 <= Qabs (corrected_freq a - corrected_freq b) ->
    exists ya yb,
      In ya (dedup n_id_cell detected_cells) /\
      In yb (dedup n_id_cell detected_cells) /\ ya <> yb /\
      same_cell n_id_cell a ya = true /\ same_cell n_id_cell b yb = true /\
      pss_pow a <= pss_pow ya /\ pss_pow b <= pss_pow yb)).
Proof.
  intro Hid. split.
  - (* the two candidates alone *)
    intro Hin. rewrite (dedup_pair n_id_cell _ _ _ Hin). split.
    + intro Hnear.
      assert (Hs : same_cell n_id_cell b a = true).
      { apply same_cell_spec. split; [symmetry; exact Hid|].
        rewrite Qabs_Qminus. exact Hnear. }
      rewrite Hs. repeat split.
      * destruct (Qltb (pss_pow a) (pss_pow b)); [right|left]; reflexivity.
      * intro H. apply Qlt_le_weak, Qltb_ge in H. rewrite H. reflexivity.
      * intro H. apply Qltb_lt in H. rewrite H. reflexivity.
      * intro H. assert (Hle : pss_pow b <= pss_pow a)
          by (rewrite H; apply Qle_refl).
        apply Qltb_ge in Hle. rewrite Hle. reflexivity.
    + intro Hfar. rewrite same_cell_far; [reflexivity|].
      rewrite Qabs_Qminus. exact Hfar.
  - (* two candidates among others, in groups *)
    intros Hgr Ha Hb.
    destruct (dedup_groups n_id_cell detected_cells Hgr) as (Hincl & Hsep & Hrep).
    split.
    + intro Hnear.
      assert (Hab : same_cell n_id_cell a b = true)
        by (apply same_cell_spec; split; assumption).
      assert (Hba : same_cell n_id_cell b a = true)
        by (rewrite same_cell_sym; exact Hab).
      split; [|split; [|split]].
      * intros Hao Hbo. apply (separated_In n_id_cell _ a b Hsep Hao Hbo Hab).
      * intros Hlt Hao.
        apply (Qlt_not_le _ _ Hlt).
        apply (dedup_keeps_maximum n_id_cell detected_cells b a Hgr Hao Hb Hba).
      * intros Hlt Hbo.
        apply (Qlt_not_le _ _ Hlt).
        apply (dedup_keeps_maximum n_id_cell detected_cells a b Hgr Hbo Ha Hab).
      * destruct (Hrep a Ha) as (y & Hy & Hay & Hpow).
        assert (Hby : same_cell n_id_cell b y = true).
        { apply (Hgr b a y); auto. }
        exists y. repeat split; try assumption.
        apply (dedup_keeps_maximum n_id_cell detected_cells b y Hgr Hy Hb Hby).
    + intro Hfar.
      destruct (Hrep a Ha) as (ya & Hya & Haya & Hpa).
      destruct (Hrep b Hb) as (yb & Hyb & Hbyb & Hpb).
      exists ya, yb. repeat split; try assumption.
      intros ->.
      assert (Hab : same_cell n_id_cell a b = true).
      { apply (Hgr a yb b); auto. rewrite same_cell_sym. exact Hbyb. }
      rewrite (same_cell_far n_id_cell a b Hfar) in Hab. discriminate.
Qed.

End DedupPairs.

(** ** [dedup] on concrete sightings *)

Lemma sightings_grouped :
  grouped lte_cell_id [sighting_A; sighting_B; sighting_D].
Proof.
  intros a b c Ha Hb Hc Hab Hbc.
  in_cases Ha; in_cases Hb; in_cases Hc;
    first [ reflexivity | discriminate Hab | discriminate Hbc ].
Qed.

Lemma sightings_no_ties :
  no_ties lte_cell_id [sighting_A; sighting_B; sighting_D].
Proof.
  intros a b Ha Hb Hab Hpow.
  in_cases Ha; in_cases Hb;
    first [ reflexivity | discriminate Hab | discriminate Hpow ].
Qed.

Lemma pair_grouped : grouped lte_cell_id [sighting_A; sighting_B].
Proof.
  intros a b c Ha Hb Hc Hab Hbc.
  in_cases Ha; in_cases Hb; in_cases Hc; reflexivity.
Qed.

(** C1 (as amended) at two sightings 0.9 MHz apart that are the whole input,
    the second one stronger: the second one alone is reported, and the first
    one is not in the report. *)
Lemma dedup_two_candidates_witness :
  lte_cell_id sighting_A = lte_cell_id sighting_B /\
  concat [[sighting_A]; [sighting_B]] = [sighting_A; sighting_B] /\
  grouped lte_cell_id (concat [[sighting_A]; [sighting_B]]) /\
  Qabs (corrected_freq sighting_A - corrected_freq sighting_B) < 1e6 /\
  pss_pow sighting_A < pss_pow sighting_B /\
  dedup lte_cell_id [[sighting_A]; [sighting_B]] = [sighting_B] /\
  ~ In sighting_A (dedup lte_cell_id [[sighting_A]; [sighting_B]]).
Proof.
  assert (Hnear : Qabs (corrected_freq sighting_A - corrected_freq sighting_B) < 1e6)
    by reflexivity.
  assert (Hpow : pss_pow sighting_A < pss_pow sighting_B) by reflexivity.
  split; [reflexivity|]. split; [reflexivity|]. split; [exact pair_grouped|].
  split; [exact Hnear|]. split; [exact Hpow|].
  destruct (dedup_two_candidates lte_cell_id [[sighting_A]; [sighting_B]]
              sighting_A sighting_B eq_refl) as [Halone Hamong].
  split.
  - exact (proj1 (proj2 (proj2 (proj1 (Halone eq_refl) Hnear))) Hpow).
  - exact (proj1 (proj2 (proj1 (Hamong pair_grouped (or_introl eq_refl)
                                        (or_intror (or_introl eq_refl)))
                                Hnear)) Hpow).
Defined.

(** C1, as stated, fails as soon as the input holds a third candidate.  A and
    C have the same identity and are 1.8 MHz apart, and the order A, B, C
    reports neither of them: B took the place of A, and C matched B.  B and
    C have the same identity and are 0.9 MHz apart, and the order A, C, B
    reports both: B matched A first. *)
Lemma dedup_third_candidate :
  lte_cell_id sighting_A = lte_cell_id sighting_C /\
  1e6 <= Qabs (corrected_freq sighting_A - corrected_freq sighting_C) /\
  dedup lte_cell_id [[sighting_A]; [sighting_B]; [sighting_C]] = [sighting_B] /\
  corrected_freq sighting_A < corrected_freq sighting_B /\
  corrected_freq sighting_B < corrected_freq sighting_C /\
  lte_cell_id sighting_B = lte_cell_id sighting_C /\
  Qabs (corrected_freq sighting_B - corrected_freq sighting_C) < 1e6 /\
  dedup lte_cell_id [[sighting_A]; [sighting_C]; [sighting_B]]
  = [sighting_B; sighting_C].
Proof.
  split; [reflexivity|]. split; [discriminate|].
  repeat split; reflexivity.
Qed.

(** C10 at two sightings of equal power: the one already in [cells_final]
    stays. *)
Lemma dedup_tie_keeps_first_seen_witness :
  same_cell lte_cell_id sighting_E sighting_A = true /\
  pss_pow sighting_E == pss_pow sighting_A /\
  dedup_insert lte_cell_id [sighting_A] sighting_E = [sighting_A].
Proof.
  repeat (split; [reflexivity|]).
  apply (proj1 (dedup_tie_keeps_first_seen lte_cell_id sighting_E sighting_A [] []
                  (fun z (H : In z []) => match H with end) eq_refl)).
  reflexivity.
Defined.

(** C2, as stated, fails: three sightings of one cell, 0.9 MHz apart from one
    to the next, processed in the orders A, B, C and A, C, B.  The first order
    reports B alone, the second one reports B and C; C matches B and is
    weaker. *)
Lemma dedup_depends_on_order :
  Permutation [sighting_A; sighting_B; sighting_C]
              [sighting_A; sighting_C; sighting_B] /\
  dedup lte_cell_id [[sighting_A]; [sighting_B]; [sighting_C]] = [sighting_B] /\
  dedup lte_cell_id [[sighting_A]; [sighting_C]; [sighting_B]]
  = [sighting_B; sighting_C] /\
  same_cell lte_cell_id sighting_C sighting_B = true /\
  pss_pow sighting_C < pss_pow sighting_B.
Proof.
  split; [apply perm_skip, perm_swap|].
  repeat split; reflexivity.
Qed.

(** C2 (as amended) at the sightings A, B (one group) and D (another group),
    processed in two orders. *)
Lemma dedup_order_independent_on_groups_witness :
  Permutation (concat [[sighting_A; sighting_B]; [sighting_D]])
              (concat [[sighting_D]; [sighting_B; sighting_A]]) /\
  grouped lte_cell_id (concat [[sighting_A; sighting_B]; [sighting_D]]) /\
  forall y,
    In y (dedup lte_cell_id [[sighting_A; sighting_B]; [sighting_D]]) <->
    In y (dedup lte_cell_id [[sighting_D]; [sighting_B; sighting_A]]).
Proof.
  assert (Hp : Permutation (concat [[sighting_A; sighting_B]; [sighting_D]])
                           (concat [[sighting_D]; [sighting_B; sighting_A]])).
  { exact (Permutation_rev [sighting_A; sighting_B; sighting_D]). }
  split; [exact Hp|]. split; [exact sightings_grouped|].
  apply (dedup_order_independent_on_groups lte_cell_id _ _ Hp sightings_grouped).
  exact sightings_no_ties.
Defined.

(** ** The output of [dedup] is made of input cells *)

Section DedupMembers.

Variable n_id_cell : Cell -> Z.

Lemma dedup_insert_incl (acc : list Cell) (n : Cell) :
  incl (dedup_insert n_id_cell acc n) (n :: acc).
Proof.
  destruct (first_match_split n_id_cell n acc)
    as [Hnone|(pre & f & post & -> & Hpre & Hf)].
  - rewrite dedup_insert_none by exact Hnone.
    intros z Hz. apply in_app_or in Hz. destruct Hz as [Hz|[<-|[]]].
    + right. exact Hz.
    + left. reflexivity.
  - rewrite dedup_insert_first by assumption.
    intros z Hz. apply in_app_or in Hz. destruct Hz as [Hz|[<-|Hz]].
    + right. apply in_or_app. left. exact Hz.
    + destruct (Qltb (pss_pow f) (pss_pow n)).
      * left. reflexivity.
      * right. apply in_or_app. right. left. reflexivity.
    + right. apply in_or_app. right. right. exact Hz.
Qed.

Lemma dedup_list_incl (l acc : list Cell) :
  incl (dedup_list n_id_cell acc l) (acc ++ l).
Proof.
  revert acc. induction l as [|n l IH]; intro acc.
  - rewrite app_nil_r. apply incl_refl.
  - change (dedup_list n_id_cell acc (n :: l))
      with (dedup_list n_id_cell (dedup_insert n_id_cell acc n) l).
    intros z Hz. apply IH, in_app_or in Hz. apply in_or_app.
    destruct Hz as [Hz|Hz].
    + apply dedup_insert_incl in Hz. destruct Hz as [<-|Hz].
      * right. left. reflexivity.
      * left. exact Hz.
    + right. right. exact Hz.
Qed.

(** Every entry of the output is one of the input cells, as it was. *)
Lemma dedup_incl (detected_cells : list (list Cell)) :
  incl (dedup n_id_cell detected_cells) (concat detected_cells).
Proof. rewrite dedup_concat. apply (dedup_list_incl _ []). Qed.

(** When no center frequency confirmed a cell, the report is empty. *)
Lemma dedup_nothing (n_fc : nat) : dedup n_id_cell (repeat [] n_fc) = [].
Proof.
  unfold dedup. induction n_fc as [|k IH]; simpl; [reflexivity|exact IH].
Qed.

End DedupMembers.

(** ** The examination of the peaks *)

Section PipelineFacts.

Variable n_id_cell : Cell -> Z.
Variable E : Collaborators.

(** The three ways the body of the loop ends. *)
Lemma examine_peak_cases (capbuf : capbuf_t E) (fc : Q) (peak : Cell) :
  let c1 := sss_detect E peak capbuf THRESH2_N_SIGMA fc in
  let c4 := mib_decoded n_id_cell E capbuf fc c1 in
  let called := [stage_sss_detect; stage_pss_sss_foe; stage_extract_tfg;
                 stage_tfoec; stage_decode_mib] in
  (n_id_1 c1 = (-1)%Z /\
   examine_peak n_id_cell E capbuf fc peak = ([stage_sss_detect], None)) \/
  (n_id_1 c1 <> (-1)%Z /\ n_rb_dl c4 = (-1)%Z /\
   examine_peak n_id_cell E capbuf fc peak = (called, None)) \/
  (n_id_1 c1 <> (-1)%Z /\ n_rb_dl c4 <> (-1)%Z /\
   examine_peak n_id_cell E capbuf fc peak = (called, Some c4)).
Proof.
  intros c1 c4 called. unfold examine_peak. fold c1.
  destruct (Z.eqb_spec (n_id_1 c1) (-1)) as [H1|H1]; [left; auto|right].
  unfold c4, mib_decoded.
  destruct (tfoec E _ _ _ _) as [c3 tfg_comp].
  match goal with
  | |- context [(n_rb_dl ?c =? -1)%Z] =>
      destruct (Z.eqb_spec (n_rb_dl c) (-1)) as [H4|H4]
  end; [left|right]; auto.
Qed.

Lemma examine_peak_kept (capbuf : capbuf_t E) (fc : Q) (peak x : Cell) :
  snd (examine_peak n_id_cell E capbuf fc peak) = Some x <->
  n_id_1 (sss_detect E peak capbuf THRESH2_N_SIGMA fc) <> (-1)%Z /\
  n_rb_dl x <> (-1)%Z /\
  x = mib_decoded n_id_cell E capbuf fc (sss_detect E peak capbuf THRESH2_N_SIGMA fc).
Proof.
  destruct (examine_peak_cases capbuf fc peak)
    as [(H1 & ->)|[(H1 & H4 & ->)|(H1 & H4 & ->)]]; simpl; split.
  - discriminate.
  - intros (Hn & _). contradiction.
  - discriminate.
  - intros (_ & Hn & ->). contradiction.
  - intros [= <-]. auto.
  - intros (_ & _ & ->). reflexivity.
Qed.

Lemma examine_peak_erased (capbuf : capbuf_t E) (fc : Q) (peak : Cell) :
  snd (examine_peak n_id_cell E capbuf fc peak) = None <->
  n_id_1 (sss_detect E peak capbuf THRESH2_N_SIGMA fc) = (-1)%Z \/
  n_rb_dl (mib_decoded n_id_cell E capbuf fc
             (sss_detect E peak capbuf THRESH2_N_SIGMA fc)) = (-1)%Z.
Proof.
  destruct (examine_peak_cases capbuf fc peak)
    as [(H1 & ->)|[(H1 & H4 & ->)|(H1 & H4 & ->)]]; simpl; split; auto.
  - discriminate.
  - intros [H|H]; contradiction.
Qed.

Lemma examine_peaks_app (capbuf : capbuf_t E) (fc : Q) (l1 l2 : list Cell) :
  examine_peaks n_id_cell E capbuf fc (l1 ++ l2)
  = examine_peaks n_id_cell E capbuf fc l1 ++ examine_peaks n_id_cell E capbuf fc l2.
Proof.
  induction l1 as [|peak l1 IH]; simpl; [reflexivity|].
  rewrite IH. destruct (snd (examine_peak n_id_cell E capbuf fc peak)); reflexivity.
Qed.

(** An erased cell leaves the list as if it had never been there. *)
Lemma examine_peaks_erased (capbuf : capbuf_t E) (fc : Q) (peak : Cell)
  (pre post : list Cell) :
  snd (examine_peak n_id_cell E capbuf fc peak) = None ->
  examine_peaks n_id_cell E capbuf fc (pre ++ peak :: post)
  = examine_peaks n_id_cell E capbuf fc (pre ++ post).
Proof.
  intro H. rewrite !examine_peaks_app. simpl. rewrite H. reflexivity.
Qed.

(** The cells left in the list are the peaks that passed every stage. *)
Lemma examine_peaks_In (capbuf : capbuf_t E) (fc : Q) (cells : list Cell) (x : Cell) :
  In x (examine_peaks n_id_cell E capbuf fc cells) <->
  exists peak, In peak cells /\
               snd (examine_peak n_id_cell E capbuf fc peak) = Some x.
Proof.
  induction cells as [|peak rest IH]; simpl.
  - split; [intros []|intros (peak & [] & _)].
  - destruct (snd (examine_peak n_id_cell E capbuf fc peak)) as [c|] eqn:Hc; simpl;
      rewrite IH; split.
    + intros [<-|(p & Hp & Hx)]; [exists peak; auto|exists p; auto].
    + intros (p & [<-|Hp] & Hx); [left; congruence|right; exists p; auto].
    + intros (p & Hp & Hx). exists p; auto.
    + intros (p & [<-|Hp] & Hx); [congruence|exists p; auto].
Qed.

(** Where a cell of [detected_cells] comes from. *)
Lemma detected_cells_In
  (freq_start freq_end ppm correction : Q) (save_cap use_recorded_data : bool)
  (l : list Cell) (x : Cell) :
  In l (detected_cells n_id_cell E freq_start freq_end ppm correction
                       save_cap use_recorded_data) ->
  In x l ->
  exists fc peak,
    In fc (fc_search_set freq_start freq_end) /\
    In peak (peak_search_cells E
               (capture_data E fc correction save_cap use_recorded_data)
               (f_search_set freq_start ppm) fc) /\
    snd (examine_peak n_id_cell E
           (capture_data E fc correction save_cap use_recorded_data) fc peak)
    = Some x.
Proof.
  unfold detected_cells. intros Hl Hx.
  apply in_map_iff in Hl. destruct Hl as (fc & <- & Hfc).
  unfold examine_center_frequency in Hx.
  apply examine_peaks_In in Hx. destruct Hx as (peak & Hpeak & Hkept).
  exists fc, peak. repeat split; try assumption.
  rewrite <- (firstn_skipn
    (Z.to_nat (to_uint16 (Z.of_nat (length (fc_search_set freq_start freq_end)))))
    (fc_search_set freq_start freq_end)).
  apply in_or_app. left. exact Hfc.
Qed.

(** [main] hands [dedup] a vector of fewer than 65536 lists. *)
Lemma detected_cells_length
  (freq_start freq_end ppm correction : Q) (save_cap use_recorded_data : bool) :
  (Z.of_nat (length (detected_cells n_id_cell E freq_start freq_end ppm
                                    correction save_cap use_recorded_data))
   < 65536)%Z.
Proof.
  unfold detected_cells. rewrite length_map, length_firstn.
  set (len := Z.of_nat (length (fc_search_set freq_start freq_end))).
  assert (H : (0 <= to_uint16 len < 65536)%Z)
    by (unfold to_uint16; apply Z.mod_pos_bound; reflexivity).
  lia.
Qed.

Lemma cells_final_In
  (freq_start freq_end ppm correction : Q) (save_cap use_recorded_data : bool)
  (x : Cell) :
  In x (cells_final n_id_cell E freq_start freq_end ppm correction
                    save_cap use_recorded_data) ->
  exists l,
    In l (detected_cells n_id_cell E freq_start freq_end ppm correction
                         save_cap use_recorded_data) /\ In x l.
Proof.
  unfold cells_final. intro Hx.
  apply dedup_incl, in_concat in Hx. exact Hx.
Qed.

(** C3.  A cell in which [sss_detect] leaves [n_id_1 = -1] is erased from
    its list at once (the list goes on as if the cell had never been there)
    and no later stage is called on it; and every cell of the final report
    comes from a peak in which [sss_detect] found a secondary identity,
    whatever the powers of the peaks. *)
Theorem failed_sss_detect_never_reported :
  (forall (capbuf : capbuf_t E) (fc : Q) (peak : Cell),
     n_id_1 (sss_detect E peak capbuf THRESH2_N_SIGMA fc) = (-1)%Z ->
     examine_peak n_id_cell E capbuf fc peak = ([stage_sss_detect], None) /\
     forall pre post,
       examine_peaks n_id_cell E capbuf fc (pre ++ peak :: post)
       = examine_peaks n_id_cell E capbuf fc (pre ++ post)) /\
  (forall (freq_start freq_end ppm correction : Q)
          (save_cap use_recorded_data : bool) (x : Cell),
     In x (cells_final n_id_cell E freq_start freq_end ppm correction
                       save_cap use_recorded_data) ->
     exists fc peak,
       In fc (fc_search_set freq_start freq_end) /\
       In peak (peak_search_cells E
                  (capture_data E fc correction save_cap use_recorded_data)
                  (f_search_set freq_start ppm) fc) /\
       n_id_1 (sss_detect E peak
                 (capture_data E fc correction save_cap use_recorded_data)
                 THRESH2_N_SIGMA fc) <> (-1)%Z /\
       snd (examine_peak n_id_cell E
              (capture_data E fc correction save_cap use_recorded_data) fc peak)
       = Some x).
Proof.
  split.
  - intros capbuf fc peak Hfail.
    assert (Hex : examine_peak n_id_cell E capbuf fc peak = ([stage_sss_detect], None)).
    { destruct (examine_peak_cases capbuf fc peak)
        as [(_ & H)|[(H1 & _)|(H1 & _)]]; [exact H|contradiction|contradiction]. }
    split; [exact Hex|].
    intros pre post. apply examine_peaks_erased. rewrite Hex. reflexivity.
  - intros freq_start freq_end ppm correction save_cap use_recorded_data x Hx.
    apply cells_final_In in Hx. destruct Hx as (l & Hl & Hx).
    destruct (detected_cells_In _ _ _ _ _ _ l x Hl Hx)
      as (fc & peak & Hfc & Hpeak & Hkept).
    exists fc, peak. repeat split; try assumption.
    apply examine_peak_kept in Hkept. apply Hkept.
Qed.

(** C4.  A cell in which [decode_mib] leaves [n_rb_dl = -1] is erased from
    its list; every cell of every list of [detected_cells] after the loop,
    and so every cell of the final report, has [n_rb_dl <> -1]. *)
Theorem confirmed_cells_have_bandwidth :
  (forall (capbuf : capbuf_t E) (fc : Q) (peak : Cell),
     n_rb_dl (mib_decoded n_id_cell E capbuf fc
                (sss_detect E peak capbuf THRESH2_N_SIGMA fc)) = (-1)%Z ->
     snd (examine_peak n_id_cell E capbuf fc peak) = None /\
     forall pre post,
       examine_peaks n_id_cell E capbuf fc (pre ++ peak :: post)
       = examine_peaks n_id_cell E capbuf fc (pre ++ post)) /\
  (forall (freq_start freq_end ppm correction : Q)
          (save_cap use_recorded_data : bool) (l : list Cell) (x : Cell),
     In l (detected_cells n_id_cell E freq_start freq_end ppm correction
                          save_cap use_recorded_data) ->
     In x l -> n_rb_dl x <> (-1)%Z) /\
  (forall (freq_start freq_end ppm correction : Q)
          (save_cap use_recorded_data : bool) (x : Cell),
     In x (cells_final n_id_cell E freq_start freq_end ppm correction
                       save_cap use_recorded_data) ->
     n_rb_dl x <> (-1)%Z).
Proof.
  assert (Hlists :
    forall freq_start freq_end ppm correction save_cap use_recorded_data l x,
      In l (detected_cells n_id_cell E freq_start freq_end ppm correction
                           save_cap use_recorded_data) ->
      In x l -> n_rb_dl x <> (-1)%Z).
  { intros freq_start freq_end ppm correction save_cap use_recorded_data l x Hl Hx.
    destruct (detected_cells_In _ _ _ _ _ _ l x Hl Hx) as (fc & peak & _ & _ & Hkept).
    apply examine_peak_kept in Hkept. apply Hkept. }
  split; [|split].
  - intros capbuf fc peak Hfail.
    assert (Hex : snd (examine_peak n_id_cell E capbuf fc peak) = None)
      by (apply examine_peak_erased; right; exact Hfail).
    split; [exact Hex|].
    intros pre post. apply examine_peaks_erased, Hex.
  - exact Hlists.
  - intros freq_start freq_end ppm correction save_cap use_recorded_data x Hx.
    apply cells_final_In in Hx. destruct Hx as (l & Hl & Hx).
    eapply Hlists; eassumption.
Qed.

End PipelineFacts.

(** ** The examination of the peaks, on the synthetic sweep *)

(** C3 on a peak of power 2, in which the synthetic [sss_detect] finds
    nothing: only [sss_detect] is called, and the cell is erased. *)
Lemma failed_sss_detect_never_reported_witness :
  n_id_1 (sss_detect Synthetic.collaborators (raw_peak 739000000 2) tt
            THRESH2_N_SIGMA 739000000) = (-1)%Z /\
  examine_peak lte_cell_id Synthetic.collaborators tt 739000000
               (raw_peak 739000000 2)
  = ([stage_sss_detect], None).
Proof.
  split; [reflexivity|].
  apply (proj1 (failed_sss_detect_never_reported lte_cell_id Synthetic.collaborators)).
  reflexivity.
Defined.

(** C4 on a peak of power 3, which passes [sss_detect] and on which the
    synthetic [decode_mib] fails: the cell is erased. *)
Lemma confirmed_cells_have_bandwidth_witness :
  n_rb_dl (mib_decoded lte_cell_id Synthetic.collaborators tt 739000000
             (sss_detect Synthetic.collaborators (raw_peak 739000000 3) tt
                THRESH2_N_SIGMA 739000000)) = (-1)%Z /\
  snd (examine_peak lte_cell_id Synthetic.collaborators tt 739000000
                    (raw_peak 739000000 3)) = None.
Proof.
  split; [reflexivity|].
  apply (proj1 (confirmed_cells_have_bandwidth lte_cell_id Synthetic.collaborators)).
  reflexivity.
Defined.

(** The synthetic sweep of two adjacent center frequencies: each one
    confirms the peak of power 5, as cell 301, and the report holds one
    entry. *)
Example synthetic_sweep_report :
  cells_final lte_cell_id Synthetic.collaborators 739000000 739100000 100 1
              false false
  = [mkCell 739000000 5 0 1 100 cp_type_t.NORMAL 25
            phich_duration_t.NORMAL phich_resource_t.one].
Proof. vm_compute. reflexivity. Qed.

(** ** The frequency offsets *)

Lemma nth_map_seq (f : nat -> Z) (m i : nat) :
  (i < m)%nat -> nth i (map f (seq 0 m)) 0%Z = f i.
Proof.
  intro H.
  rewrite (nth_indep _ 0%Z (f 0%nat)) by (rewrite length_map, length_seq; exact H).
  rewrite map_nth, seq_nth by exact H. reflexivity.
Qed.

(** The range from [-n*5000] to [n*5000] by steps of 5000. *)
Lemma matlab_range_symmetric (n : Z) :
  (0 <= n)%Z ->
  matlab_range (- n * 5000) 5000 (n * 5000)
  = map (fun k => (5000 * (Z.of_nat k - n))%Z) (seq 0 (Z.to_nat (2 * n + 1))).
Proof.
  intro Hn. unfold matlab_range.
  destruct (Z.ltb_spec (n * 5000) (- n * 5000)) as [H|_]; [lia|].
  replace (n * 5000 - - n * 5000)%Z with (2 * n * 5000)%Z by ring.
  rewrite Z.div_mul by discriminate.
  apply map_ext. intro k. ring.
Qed.

(** [n_extra] is the floor itself as long as it fits a [uint16]. *)
Lemma n_extra_floor (freq_start ppm : Q) :
  (0 <= Qfloor ((freq_start * ppm / 1e6 + 2.5e3) / 5e3) < 65536)%Z ->
  n_extra freq_start ppm = Qfloor ((freq_start * ppm / 1e6 + 2.5e3) / 5e3).
Proof. intro H. unfold n_extra, to_uint16, floor_i. apply Z.mod_small, H. Qed.

(** The floor brackets the excursion: [n*5000 <= x < n*5000 + 5000]. *)
Lemma floor_brackets (x : Q) :
  inject_Z (Qfloor (x / 5e3) * 5000) <= x /\
  x < inject_Z (Qfloor (x / 5e3) * 5000) + 5000.
Proof.
  plain_literals.
  assert (Hx : x == (x / 5000) * 5000) by field.
  assert (Hlo := Qfloor_le (x / 5000)).
  assert (Hhi := Qlt_floor (x / 5000)).
  rewrite inject_Z_plus in Hhi. rewrite inject_Z_mult.
  change (inject_Z 5000) with 5000. change (inject_Z 1) with 1 in Hhi.
  set (y := x / 5000) in *. set (f := inject_Z (Qfloor y)) in *.
  split; lra.
Qed.

Lemma excursion_floor_nonneg (freq_start ppm : Q) :
  1e6 <= freq_start -> 0 <= ppm ->
  (0 <= Qfloor ((freq_start * ppm / 1e6 + 2.5e3) / 5e3))%Z.
Proof.
  intros Hf Hp. rewrite <- (Qfloor_Z 0). apply Qfloor_resp_le.
  plain_literals.
  assert (H : 0 <= freq_start * ppm) by (apply Qmult_le_0_compat; lra).
  setoid_replace ((freq_start * ppm / 1000000 + (25000 # 10)) / 5000)
    with (freq_start * ppm * (1 # 5000000000) + (1 # 2)) by field.
  change (inject_Z 0) with 0. lra.
Qed.

(** The offsets, as long as the floor fits a [uint16]. *)
Lemma f_search_ints_progression (freq_start ppm : Q) :
  let n := Qfloor ((freq_start * ppm / 1e6 + 2.5e3) / 5e3) in
  1e6 <= freq_start -> 0 <= ppm -> (n < 65536)%Z ->
  f_search_ints freq_start ppm
  = map (fun k => (5000 * (Z.of_nat k - n))%Z) (seq 0 (Z.to_nat (2 * n + 1))).
Proof.
  intros n Hf Hp Hn.
  assert (Hn0 : (0 <= n)%Z) by (apply excursion_floor_nonneg; assumption).
  unfold f_search_ints. rewrite n_extra_floor by (fold n; lia).
  apply matlab_range_symmetric, Hn0.
Qed.

(** The offsets are the multiples [5000*j] with [-n <= j <= n]. *)
Lemma f_search_ints_In (freq_start ppm : Q) (v : Z) :
  let n := Qfloor ((freq_start * ppm / 1e6 + 2.5e3) / 5e3) in
  1e6 <= freq_start -> 0 <= ppm -> (n < 65536)%Z ->
  (In v (f_search_ints freq_start ppm) <->
   exists j, (- n <= j <= n)%Z /\ v = (5000 * j)%Z).
Proof.
  intros n Hf Hp Hn.
  assert (Hn0 : (0 <= n)%Z) by (apply excursion_floor_nonneg; assumption).
  rewrite (f_search_ints_progression freq_start ppm Hf Hp Hn). fold n.
  rewrite in_map_iff. split.
  - intros (k & <- & Hk). apply in_seq in Hk.
    exists (Z.of_nat k - n)%Z. split; [lia|reflexivity].
  - intros (j & Hj & ->). exists (Z.to_nat (j + n)). split.
    + f_equal. lia.
    + apply in_seq. lia.
Qed.

(** C5 (as amended).  For [freq_start >= 1 MHz] and [ppm >= 0], with
    [n = floor((freq_start*ppm/1e6 + 2500) / 5000)] below 65536, the
    frequency offsets are exactly [-n*5000, ..., -5000, 0, 5000, ..., n*5000]:
    symmetric around zero, spaced 5000 Hz apart, with an outer bound
    [n*5000] such that [n*5000 <= freq_start*ppm/1e6 + 2500 < n*5000 + 5000]
    (the outer bound is not above [freq_start*ppm/1e6 + 2500], and less than
    2500 Hz below the excursion [freq_start*ppm/1e6]). *)
Theorem offsets_symmetric_progression (freq_start ppm : Q) :
  let n := Qfloor ((freq_start * ppm / 1e6 + 2.5e3) / 5e3) in
  1e6 <= freq_start -> 0 <= ppm -> (n < 65536)%Z ->
  f_search_ints freq_start ppm
  = map (fun k => (5000 * (Z.of_nat k - n))%Z) (seq 0 (Z.to_nat (2 * n + 1))) /\
  f_search_set freq_start ppm = to_vec (f_search_ints freq_start ppm) /\
  (forall v, In v (f_search_ints freq_start ppm)
             <-> In (- v)%Z (f_search_ints freq_start ppm)) /\
  (forall i, (S i < length (f_search_ints freq_start ppm))%nat ->
     (nth (S i) (f_search_ints freq_start ppm) 0
      - nth i (f_search_ints freq_start ppm) 0 = 5000)%Z) /\
  last (f_search_ints freq_start ppm) 0%Z = (n * 5000)%Z /\
  inject_Z (n * 5000) <= freq_start * ppm / 1e6 + 2.5e3 /\
  freq_start * ppm / 1e6 + 2.5e3 < inject_Z (n * 5000) + 5000.
Proof.
  intros n Hf Hp Hn.
  assert (Hn0 : (0 <= n)%Z) by (apply excursion_floor_nonneg; assumption).
  assert (Hl := f_search_ints_progression freq_start ppm Hf Hp Hn). fold n in Hl.
  assert (Hmem := fun v => f_search_ints_In freq_start ppm v Hf Hp Hn).
  fold n in Hmem.
  split; [exact Hl|]. split; [reflexivity|]. split; [|split; [|split]].
  - intro v. rewrite !Hmem.
    split; intros (j & Hj & Hv); exists (- j)%Z; split; lia.
  - intro i. rewrite Hl, length_map, length_seq. intro Hi.
    rewrite !nth_map_seq by lia. lia.
  - rewrite Hl.
    replace (Z.to_nat (2 * n + 1)) with (Z.to_nat (2 * n) + 1)%nat by lia.
    rewrite seq_app, map_app. cbn [seq map Nat.add]. rewrite last_last. lia.
  - apply floor_brackets.
Qed.

(** X9.  The grid covers the excursion: every offset [e] within
    [freq_start*ppm/1e6] of zero is within 2500 Hz of a point of the grid. *)
Lemma offsets_cover_excursion (freq_start ppm e : Q) :
  1e6 <= freq_start -> 0 <= ppm ->
  (Qfloor ((freq_start * ppm / 1e6 + 2.5e3) / 5e3) < 65536)%Z ->
  Qabs e <= freq_start * ppm / 1e6 ->
  exists g, In g (f_search_set freq_start ppm) /\ Qabs (e - g) <= 2.5e3.
Proof.
  intros Hf Hp Hn He.
  set (n := Qfloor ((freq_start * ppm / 1e6 + 2.5e3) / 5e3)) in *.
  destruct (floor_brackets (freq_start * ppm / 1e6 + 2.5e3)) as [Hlo Hhi].
  fold n in Hlo, Hhi.
  destruct (floor_brackets (e + 2.5e3)) as [Hklo Hkhi].
  set (k := Qfloor ((e + 2.5e3) / 5e3)) in *.
  apply Qabs_Qle_condition in He. destruct He as [He1 He2].
  rewrite inject_Z_mult in Hlo, Hhi, Hklo, Hkhi.
  change (inject_Z 5000) with 5000 in *.
  plain_literals.
  assert (Hk : (- n <= k <= n)%Z).
  { assert (H1 : inject_Z k < inject_Z (n + 1))
      by (rewrite inject_Z_plus; change (inject_Z 1) with 1; lra).
    assert (H2 : inject_Z (- n) < inject_Z (k + 1)).
    { rewrite inject_Z_plus, inject_Z_opp. change (inject_Z 1) with 1. lra. }
    rewrite <- Zlt_Qlt in H1, H2. lia. }
  exists (inject_Z (5000 * k)). split.
  - unfold f_search_set, to_vec. apply in_map.
    apply (f_search_ints_In freq_start ppm); try assumption.
    exists k. split; [exact Hk|reflexivity].
  - rewrite inject_Z_mult. change (inject_Z 5000) with 5000.
    apply Qabs_Qle_condition. split; lra.
Qed.

(** C5, as stated, fails on its outer bound: at 1 GHz and 100 ppm the
    offsets run from -100 kHz to 100 kHz, and 100000 is below
    [1e9 * 100 / 1e6 + 2500 = 102500]. *)
Lemma offsets_outer_bound_below_excursion :
  1e6 <= 1e9 /\ 0 <= 100 /\
  Qfloor ((1e9 * 100 / 1e6 + 2.5e3) / 5e3) = 20%Z /\
  f_search_ints 1e9 100
  = map (fun k => (5000 * (Z.of_nat k - 20))%Z) (seq 0 41) /\
  last (f_search_set 1e9 100) 0 = 100000 /\
  100000 < 1e9 * 100 / 1e6 + 2.5e3.
Proof.
  split; [discriminate|]. split; [discriminate|].
  repeat split; vm_compute; reflexivity.
Qed.

(** Beyond 65535 the count wraps: at 1 GHz and 400000 ppm the floor is 80000
    and [n_extra] is [80000 - 65536]. *)
Example n_extra_wraps :
  Qfloor ((1e9 * 400000 / 1e6 + 2.5e3) / 5e3) = 80000%Z /\
  n_extra 1e9 400000 = 14464%Z.
Proof. split; vm_compute; reflexivity. Qed.

(** The grid at 1 GHz and 100 ppm covers an offset of 99 kHz. *)
Lemma offsets_cover_excursion_witness :
  1e6 <= 1e9 /\ 0 <= 100 /\
  (Qfloor ((1e9 * 100 / 1e6 + 2.5e3) / 5e3) < 65536)%Z /\
  Qabs 99000 <= 1e9 * 100 / 1e6 /\
  exists g, In g (f_search_set 1e9 100) /\ Qabs (99000 - g) <= 2.5e3.
Proof.
  assert (H1 : 1e6 <= 1e9) by discriminate.
  assert (H2 : 0 <= 100) by discriminate.
  assert (H3 : (Qfloor ((1e9 * 100 / 1e6 + 2.5e3) / 5e3) < 65536)%Z) by reflexivity.
  assert (H4 : Qabs 99000 <= 1e9 * 100 / 1e6) by discriminate.
  split; [exact H1|]. split; [exact H2|]. split; [exact H3|]. split; [exact H4|].
  exact (offsets_cover_excursion 1e9 100 99000 H1 H2 H3 H4).
Defined.

(** C5 (as amended) at 1 GHz and 100 ppm: [n = 20], and
    [100000 <= 102500 < 105000]. *)
Lemma offsets_symmetric_progression_witness :
  1e6 <= 1e9 /\ 0 <= 100 /\
  (Qfloor ((1e9 * 100 / 1e6 + 2.5e3) / 5e3) < 65536)%Z /\
  last (f_search_ints 1e9 100) 0%Z = (20 * 5000)%Z /\
  inject_Z (20 * 5000) <= 1e9 * 100 / 1e6 + 2.5e3 /\
  1e9 * 100 / 1e6 + 2.5e3 < inject_Z (20 * 5000) + 5000.
Proof.
  assert (H1 : 1e6 <= 1e9) by discriminate.
  assert (H2 : 0 <= 100) by discriminate.
  assert (H3 : (Qfloor ((1e9 * 100 / 1e6 + 2.5e3) / 5e3) < 65536)%Z) by reflexivity.
  split; [exact H1|]. split; [exact H2|]. split; [exact H3|].
  exact (proj2 (proj2 (proj2 (proj2
           (offsets_symmetric_progression 1e9 100 H1 H2 H3))))).
Defined.

(** ** The sanity checks of the command line *)

Section CommandLineFacts.

Import CommandLine.

Lemma on_raster_fixed (x : Q) : off_raster x = false -> to_raster x == x.
Proof.
  unfold off_raster, to_raster. intro H.
  apply negb_false_iff, Qeq_bool_iff in H. rewrite <- H.
  plain_literals. field.
Qed.

(** The start frequency that the later checks see. *)
Lemma checked_start (x : Q) :
  (if off_raster x then to_raster x else x) == to_raster x.
Proof.
  destruct (off_raster x) eqn:H; [reflexivity|].
  symmetry. apply on_raster_fixed, H.
Qed.

Lemma exit_fails (e : error) : fails (Exit (-1) e).
Proof. exists (-1)%Z, e. split; [reflexivity|discriminate]. Qed.

(** C6 (as amended).  [parse_commandline] ends the process with a nonzero
    status whenever [freq_start < 1 MHz], whenever [ppm < 0], and whenever
    an end frequency is given ([freq_end] is not the default [-1]) that is
    less than [freq_start] rounded to the 100 kHz raster; in particular for
    every pair with [freq_start > freq_end >= 0] whose [freq_start] is on the
    raster. *)
Theorem parse_commandline_rejects (a : options) :
  (freq_start a < 1e6 -> fails (parse_commandline a)) /\
  (ppm a < 0 -> fails (parse_commandline a)) /\
  (~ freq_end a == -1 -> freq_end a < to_raster (freq_start a) ->
   fails (parse_commandline a)) /\
  (off_raster (freq_start a) = false ->
   0 <= freq_end a -> freq_end a < freq_start a ->
   fails (parse_commandline a)).
Proof.
  assert (Hend : ~ freq_end a == -1 -> freq_end a < to_raster (freq_start a) ->
                 fails (parse_commandline a)).
  { intros Hset Hlt. unfold parse_commandline.
    destruct (extra_arguments a); [apply exit_fails|].
    destruct (Qltb (freq_start a) 1e6); [apply exit_fails|].
    destruct (Qeq_bool (freq_end a) (-1)) eqn:Hdef;
      [apply Qeq_bool_iff in Hdef; contradiction|].
    rewrite <- (checked_start (freq_start a)) in Hlt.
    apply Qltb_lt in Hlt. rewrite Hlt. apply exit_fails. }
  split; [|split; [|split]].
  - intro H. unfold parse_commandline.
    destruct (extra_arguments a); [apply exit_fails|].
    apply Qltb_lt in H. rewrite H. apply exit_fails.
  - intro H. unfold parse_commandline.
    destruct (extra_arguments a); [apply exit_fails|].
    destruct (Qltb (freq_start a) 1e6); [apply exit_fails|].
    match goal with
    | |- context [if Qltb ?x ?y then Exit (-1) end_frequency_below_start else _] =>
        destruct (Qltb x y); [apply exit_fails|]
    end.
    apply Qltb_lt in H. rewrite H. apply exit_fails.
  - exact Hend.
  - intros Hraster Hpos Hlt. apply Hend.
    + intro Heq. rewrite Heq in Hpos. apply (Qle_not_lt _ _ Hpos). reflexivity.
    + rewrite on_raster_fixed by exact Hraster. exact Hlt.
Qed.

End CommandLineFacts.

(** C6, as stated, fails: the start frequency 1000.04 MHz is rounded to
    1000 MHz before it is compared with the end frequency 1000 MHz, and
    [parse_commandline] returns, with a warning. *)
Lemma descending_range_accepted :
  CommandLine.freq_end descending_range < CommandLine.freq_start descending_range /\
  0 <= CommandLine.freq_end descending_range /\
  CommandLine.parse_commandline descending_range
  = CommandLine.Return
      (CommandLine.mkOptions 1000000000 1000000000 100 1 false false false)
      [CommandLine.start_frequency_rounded].
Proof.
  split; [reflexivity|]. split; [discriminate|]. vm_compute. reflexivity.
Qed.

(** C6 (as amended) on a descending range whose start is on the raster. *)
Lemma parse_commandline_rejects_witness :
  CommandLine.off_raster (CommandLine.freq_start descending_raster_range) = false /\
  0 <= CommandLine.freq_end descending_raster_range /\
  CommandLine.freq_end descending_raster_range
  < CommandLine.freq_start descending_raster_range /\
  CommandLine.fails (CommandLine.parse_commandline descending_raster_range).
Proof.
  split; [reflexivity|]. split; [discriminate|]. split; [reflexivity|].
  apply (proj2 (proj2 (proj2 (parse_commandline_rejects descending_raster_range))));
    [reflexivity|discriminate|reflexivity].
Defined.

(** ** The correction factor *)

(** C9.  The correction factor printed with every cell of the report is
    [correction * (fc / (fc - freq_superfine))]; for a cell at 1 GHz with a
    residual offset of 100 Hz and a previous correction of 1, it is
    [1e9 / (1e9 - 100)]. *)
Theorem correction_factor_formula (correction : Q) (cells_final : list Cell) :
  report_corrections correction cells_final
  = map (fun it => correction_factor_spec correction (fc it) (freq_superfine it))
        cells_final /\
  (forall it, In it cells_final ->
     In (correction * (fc it / (fc it - freq_superfine it)))
        (report_corrections correction cells_final)) /\
  correction_new 1 cell_at_1GHz == 1e9 / (1e9 - 100).
Proof.
  split; [|split].
  - unfold report_corrections. apply map_ext. intro it.
    unfold correction_new, correction_factor_spec. reflexivity.
  - intros it Hit. unfold report_corrections.
    change (correction * (fc it / (fc it - freq_superfine it)))
      with (correction_new correction it).
    apply in_map, Hit.
  - unfold correction_new, cell_at_1GHz. simpl fc. simpl freq_superfine.
    rewrite Qmult_1_l. reflexivity.
Qed.

(** ** The threshold vector *)

Section ThresholdFacts.

Import Threshold.
Local Open Scope R_scope.

(** *** Partial sums of the exponential series *)

Lemma term_nonneg (k : nat) (y : R) : 0 <= y -> 0 <= y ^ k / INR (fact k).
Proof.
  intro Hy. apply Rmult_le_pos; [apply pow_le, Hy|].
  apply Rlt_le, Rinv_0_lt_compat, INR_fact_lt_0.
Qed.

Lemma exp_partial_nonneg (m : nat) (y : R) : 0 <= y -> 0 <= exp_partial m y.
Proof.
  intro Hy. induction m as [|k IH]; simpl; [lra|].
  assert (H := term_nonneg k y Hy). lra.
Qed.

Lemma exp_partial_ge_1 (m : nat) (y : R) :
  0 <= y -> (0 < m)%nat -> 1 <= exp_partial m y.
Proof.
  intros Hy Hm. destruct m as [|k]; [lia|]. clear Hm.
  induction k as [|k IH].
  - simpl. lra.
  - change (exp_partial (S (S k)) y)
      with (exp_partial (S k) y + y ^ S k / INR (fact (S k))).
    assert (H := term_nonneg (S k) y Hy). lra.
Qed.

Lemma exp_partial_0 (m : nat) : (0 < m)%nat -> exp_partial m 0 = 1.
Proof.
  intro Hm. destruct m as [|k]; [lia|]. clear Hm.
  induction k as [|k IH].
  - simpl. lra.
  - change (exp_partial (S (S k)) 0)
      with (exp_partial (S k) 0 + 0 ^ S k / INR (fact (S k))).
    rewrite IH, pow_i by lia. unfold Rdiv. lra.
Qed.

(** A polynomial bound on the partial sum. *)
Lemma exp_partial_le_pow (m : nat) (y : R) :
  0 <= y -> exp_partial (S m) y <= (1 + y) ^ m.
Proof.
  intro Hy. induction m as [|k IH].
  - simpl. lra.
  - change (exp_partial (S (S k)) y)
      with (exp_partial (S k) y + y ^ S k / INR (fact (S k))).
    assert (Hterm : y ^ S k / INR (fact (S k)) <= y * (1 + y) ^ k).
    { apply Rle_trans with (y ^ S k).
      - rewrite <- (Rdiv_1_r (y ^ S k)) at 2. unfold Rdiv.
        apply Rmult_le_compat_l; [apply pow_le, Hy|].
        apply Rinv_le_contravar; [lra|].
        change 1 with (INR 1). apply le_INR.
        assert (H := lt_O_fact (S k)). lia.
      - simpl. apply Rmult_le_compat_l; [exact Hy|].
        apply pow_incr. lra. }
    simpl ((1 + y) ^ S k). lra.
Qed.

Lemma exp_pow_nat (t : R) (k : nat) : exp (INR k * t) = exp t ^ k.
Proof.
  induction k as [|k IH].
  - simpl. rewrite Rmult_0_l. apply exp_0.
  - rewrite S_INR, Rmult_plus_distr_r, Rmult_1_l, exp_plus, IH. simpl. ring.
Qed.

(** [(1 + y/k)^k <= exp y]. *)
Lemma exp_ge_compound (y : R) (k : nat) :
  0 <= y -> (0 < k)%nat -> (1 + y / INR k) ^ k <= exp y.
Proof.
  intros Hy Hk.
  assert (HK : 1 <= INR k) by (change 1 with (INR 1); apply le_INR; lia).
  replace y with (INR k * (y / INR k)) at 2 by (field; lra).
  rewrite exp_pow_nat. apply pow_incr. split.
  - assert (0 <= y / INR k); [|lra].
    apply Rmult_le_pos; [lra|]. apply Rlt_le, Rinv_0_lt_compat. lra.
  - apply exp_ineq1_le.
Qed.

(** [exp] dominates every power: [((1+y)/k)^k <= exp y]. *)
Lemma exp_ge_pow (y : R) (k : nat) :
  0 <= y -> (0 < k)%nat -> ((1 + y) / INR k) ^ k <= exp y.
Proof.
  intros Hy Hk.
  assert (HK : 1 <= INR k) by (change 1 with (INR 1); apply le_INR; lia).
  apply Rle_trans with ((1 + y / INR k) ^ k); [|apply exp_ge_compound; assumption].
  apply pow_incr. split.
  - apply Rmult_le_pos; [lra|]. apply Rlt_le, Rinv_0_lt_compat. lra.
  - unfold Rdiv. rewrite Rmult_plus_distr_r.
    apply Rplus_le_compat_r. rewrite Rmult_1_l.
    rewrite <- Rinv_1. apply Rinv_le_contravar; lra.
Qed.

(** From [z >= m+1] on, the terms of the sum grow. *)
Lemma term_grows (m : nat) (z : R) :
  INR (S m) <= z -> z ^ m / INR (fact m) <= z ^ S m / INR (fact (S m)).
Proof.
  intro Hz.
  assert (Hm : 0 < INR (S m)) by (apply lt_0_INR; lia).
  assert (Hf := INR_fact_lt_0 m).
  assert (Hz0 : 0 <= z) by lra.
  replace (z ^ S m / INR (fact (S m)))
    with (z ^ m / INR (fact m) * (z / INR (S m))).
  - rewrite <- (Rmult_1_r (z ^ m / INR (fact m))) at 1.
    apply Rmult_le_compat_l; [apply term_nonneg, Hz0|].
    apply Rmult_le_reg_r with (INR (S m)); [exact Hm|].
    unfold Rdiv. rewrite Rmult_assoc, Rinv_l by lra. lra.
  - rewrite fact_simpl, mult_INR. simpl (z ^ S m). field. lra.
Qed.

(** The sum of [m+1] terms is at most [m+1] times the last one. *)
Lemma exp_partial_le_last (m : nat) (z : R) :
  INR m <= z -> exp_partial (S m) z <= INR (S m) * (z ^ m / INR (fact m)).
Proof.
  induction m as [|m IH]; intro Hz.
  - simpl. lra.
  - change (exp_partial (S (S m)) z)
      with (exp_partial (S m) z + z ^ S m / INR (fact (S m))).
    assert (Hz' : INR m <= z) by (rewrite S_INR in Hz; lra).
    assert (Hgrow := term_grows m z Hz).
    assert (Hm : 0 <= INR (S m)) by apply pos_INR.
    specialize (IH Hz').
    rewrite (S_INR (S m)).
    apply Rle_trans
      with (INR (S m) * (z ^ S m / INR (fact (S m))) + z ^ S m / INR (fact (S m)));
      [|lra].
    apply Rplus_le_compat_r.
    apply Rle_trans with (INR (S m) * (z ^ m / INR (fact m))); [exact IH|].
    apply Rmult_le_compat_l; assumption.
Qed.

(** The sum is at least its last term. *)
Lemma exp_partial_ge_last (m : nat) (y : R) :
  0 <= y -> y ^ m / INR (fact m) <= exp_partial (S m) y.
Proof.
  intro Hy. simpl. assert (H := exp_partial_nonneg m y Hy). lra.
Qed.

Lemma fact_4 : INR (fact 4) = 24.
Proof. simpl. lra. Qed.

Lemma fact_9 : INR (fact 9) = 362880.
Proof.
  rewrite !fact_simpl, !mult_INR. change (fact 0) with 1%nat.
  rewrite !S_INR. simpl. lra.
Qed.

Lemma exp_partial_continuity (m : nat) : continuity (exp_partial m).
Proof.
  induction m as [|k IH].
  - apply continuity_const. intros x y. reflexivity.
  - change (continuity (plus_fct (exp_partial k)
                          (mult_fct (fun y => y ^ k) (fct_cte (/ INR (fact k)))))).
    apply continuity_plus; [exact IH|].
    apply continuity_mult.
    + apply derivable_continuous, derivable_pow.
    + apply continuity_const. intros x y. reflexivity.
Qed.

(** *** The distribution function and its inverse *)

(** The distribution function is continuous. *)
Lemma chi2cdf_continuity (dof : Z) : continuity (chi2cdf dof).
Proof.
  set (m := Z.to_nat (dof / 2)).
  set (half := fun x : R => x / 2).
  assert (Hhalf : continuity half).
  { apply derivable_continuous. unfold half. reg. }
  change (continuity (minus_fct (fct_cte 1)
                        (mult_fct (comp exp (opp_fct half))
                                  (comp (exp_partial m) half)))).
  apply continuity_minus; [apply continuity_const; intros x y; reflexivity|].
  apply continuity_mult.
  - apply continuity_comp; [apply continuity_opp, Hhalf|].
    apply derivable_continuous, derivable_exp.
  - apply continuity_comp; [exact Hhalf|apply exp_partial_continuity].
Qed.

(** The tail of the distribution is as small as wanted. *)
Lemma chi2_tail (m : nat) (eps : R) :
  (0 < m)%nat -> 0 < eps ->
  exists y, 0 < y /\ exp (- y) * exp_partial m y < eps.
Proof.
  intros Hm Heps. destruct m as [|k]; [lia|]. clear Hm.
  set (M := INR (S k)).
  assert (HM : 1 <= M) by (change 1 with (INR 1); apply le_INR; lia).
  assert (HMk : 0 < M ^ S k) by (apply pow_lt; lra).
  set (y := M ^ S k / eps).
  assert (Hy : 0 < y) by (apply Rdiv_lt_0_compat; assumption).
  exists y. split; [exact Hy|].
  set (u := 1 + y).
  assert (Hu : 0 < u) by (unfold u; lra).
  assert (Huk : 0 < u ^ k) by (apply pow_lt, Hu).
  assert (Hexp : (u / M) ^ S k <= exp y) by (apply exp_ge_pow; [lra|lia]).
  assert (Hsum : exp_partial (S k) y <= u ^ k) by (apply exp_partial_le_pow; lra).
  assert (Hpow : 0 < (u / M) ^ S k).
  { apply pow_lt, Rdiv_lt_0_compat; lra. }
  rewrite exp_Ropp.
  apply Rle_lt_trans with (/ (u / M) ^ S k * u ^ k).
  - apply Rmult_le_compat; try assumption.
    + apply Rlt_le, Rinv_0_lt_compat, exp_pos.
    + apply exp_partial_nonneg. lra.
    + apply Rinv_le_contravar; assumption.
  - replace (/ (u / M) ^ S k * u ^ k) with (M ^ S k / u).
    + apply Rmult_lt_reg_r with u; [exact Hu|].
      unfold Rdiv. rewrite Rmult_assoc, Rinv_l, Rmult_1_r by lra.
      replace (M ^ S k) with (eps * y) by (unfold y; field; lra).
      unfold u. nra.
    + unfold Rdiv. rewrite Rpow_mult_distr, pow_inv. simpl. field.
      repeat split; try lra; apply pow_nonzero; lra.
Qed.

Lemma chi2cdf_at_0 (dof : Z) : (2 <= dof)%Z -> chi2cdf dof 0 = 0.
Proof.
  intro H. unfold chi2cdf.
  replace (0 / 2) with 0 by lra.
  rewrite Ropp_0, exp_0, exp_partial_0; [lra|].
  assert (1 <= dof / 2)%Z by (apply Z.div_le_lower_bound; lia). lia.
Qed.

(** The distribution function takes every value of the open unit interval. *)
Lemma chi2cdf_inv_exists (p : R) (dof : Z) :
  0 < p < 1 -> (2 <= dof)%Z -> exists x, 0 <= x /\ chi2cdf dof x = p.
Proof.
  intros Hp Hdof.
  assert (Hm : (0 < Z.to_nat (dof / 2))%nat).
  { assert (1 <= dof / 2)%Z by (apply Z.div_le_lower_bound; lia). lia. }
  destruct (chi2_tail (Z.to_nat (dof / 2)) (1 - p) Hm) as (y & Hy & Htail); [lra|].
  destruct (IVT (fun x => chi2cdf dof x - p) 0 (2 * y)) as (z & Hz & Hfz).
  - change (continuity (minus_fct (chi2cdf dof) (fct_cte p))).
    apply continuity_minus; [apply chi2cdf_continuity|].
    apply continuity_const. intros a b. reflexivity.
  - lra.
  - rewrite chi2cdf_at_0 by exact Hdof. lra.
  - unfold chi2cdf. replace (2 * y / 2) with y by lra. lra.
  - exists z. split; [apply Hz|lra].
Qed.

Lemma chi2cdf_inv_spec (p : R) (dof : Z) :
  0 < p < 1 -> (2 <= dof)%Z ->
  0 < chi2cdf_inv p dof /\ chi2cdf dof (chi2cdf_inv p dof) = p.
Proof.
  intros Hp Hdof. unfold chi2cdf_inv.
  destruct (epsilon_spec (inhabits 0) (fun x => 0 <= x /\ chi2cdf dof x = p)
              (chi2cdf_inv_exists p dof Hp Hdof)) as [Hx Hcdf].
  split; [|exact Hcdf].
  destruct Hx as [Hx|Hx]; [exact Hx|].
  rewrite <- Hx, chi2cdf_at_0 in Hcdf by exact Hdof. lra.
Qed.

Lemma budget_in_unit_interval : 0 < 1 - / 10 ^ thresh1_n_nines < 1.
Proof.
  assert (H : 0 < / 10 ^ thresh1_n_nines < 1).
  { split.
    - apply Rinv_0_lt_compat, pow_lt. lra.
    - rewrite <- Rinv_1. apply Rinv_lt_contravar.
      + rewrite Rmult_1_l. apply pow_lt. lra.
      + unfold thresh1_n_nines. simpl. lra. }
  lra.
Qed.

(** [R_th1] is the point where the tail of the distribution is [10^-12]. *)
Lemma R_th1_spec (n_comb_xc : Z) :
  (1 <= n_comb_xc)%Z ->
  0 < R_th1 n_comb_xc /\
  chi2cdf (2 * n_comb_xc * (2 * DS_COMB_ARM + 1)) (R_th1 n_comb_xc)
  = 1 - / 10 ^ thresh1_n_nines.
Proof.
  intro Hn. unfold R_th1. apply chi2cdf_inv_spec.
  - apply budget_in_unit_interval.
  - unfold DS_COMB_ARM. lia.
Qed.

Lemma R_th1_tail (n_comb_xc : Z) :
  (1 <= n_comb_xc)%Z ->
  exp (R_th1 n_comb_xc / 2)
  = 10 ^ 12 * exp_partial (Z.to_nat (5 * n_comb_xc)) (R_th1 n_comb_xc / 2).
Proof.
  intro Hn. destruct (R_th1_spec n_comb_xc Hn) as [_ H].
  unfold chi2cdf, thresh1_n_nines, DS_COMB_ARM in H.
  replace (2 * n_comb_xc * (2 * 2 + 1))%Z with (5 * n_comb_xc * 2)%Z in H by ring.
  rewrite Z.div_mul in H by discriminate.
  rewrite exp_Ropp in H.
  assert (He := exp_pos (R_th1 n_comb_xc / 2)).
  set (e := exp (R_th1 n_comb_xc / 2)) in *.
  set (s := exp_partial (Z.to_nat (5 * n_comb_xc)) (R_th1 n_comb_xc / 2)) in *.
  assert (H' : / e * s = / 10 ^ 12) by lra.
  assert (Hs : s = e * / 10 ^ 12).
  { rewrite <- H'. field. lra. }
  rewrite Hs. field.
Qed.

(** *** One hypothesis against two *)

(** Half of [R_th1 1] is at least 5 ... *)
Lemma half_R_th1_1_lower : 5 <= R_th1 1 / 2.
Proof.
  destruct (Rle_or_lt 5 (R_th1 1 / 2)) as [H|H]; [exact H|exfalso].
  assert (Htail := R_th1_tail 1 ltac:(lia)).
  destruct (R_th1_spec 1 ltac:(lia)) as [Hpos _].
  assert (Hsum : 1 <= exp_partial (Z.to_nat (5 * 1)) (R_th1 1 / 2))
    by (apply exp_partial_ge_1; [lra|lia]).
  assert (Hexp : exp (R_th1 1 / 2) < exp 5) by (apply exp_increasing, H).
  assert (H5 : exp 5 <= 3 ^ 5).
  { replace 5 with (INR 5 * 1) at 1 by (simpl; lra).
    rewrite exp_pow_nat. apply pow_incr. split; [apply Rlt_le, exp_pos|apply exp_le_3]. }
  simpl in H5. simpl (10 ^ 12) in Htail. nra.
Qed.

(** ... and at most [10^9]. *)
Lemma half_R_th1_1_upper : R_th1 1 / 2 <= 10 ^ 9.
Proof.
  assert (Hlow := half_R_th1_1_lower).
  assert (Htail := R_th1_tail 1 ltac:(lia)).
  set (y := R_th1 1 / 2) in *.
  assert (Hy : 0 <= y) by lra.
  change (Z.to_nat (5 * 1)) with 5%nat in Htail.
  assert (Hsum := exp_partial_le_pow 4 y Hy).
  assert (Hexp := exp_ge_pow y 6 Hy ltac:(lia)).
  set (u := 1 + y) in *.
  assert (Hu : 1 <= u) by (unfold u; lra).
  assert (Hu4 : 0 < u ^ 4) by (apply pow_lt; lra).
  assert (Hineq : u ^ 4 * (u * u) <= u ^ 4 * (46656 * 10 ^ 12)).
  { apply Rle_trans with (46656 * (u / INR 6) ^ 6).
    - replace (INR 6) with 6 by (simpl; lra). apply Req_le. field.
    - apply Rle_trans with (46656 * exp y); [lra|]. rewrite Htail. nra. }
  apply Rmult_le_reg_l in Hineq; [|exact Hu4].
  destruct (Rle_or_lt y (10 ^ 9)) as [H|H]; [exact H|exfalso].
  assert (Hu9 : 10 ^ 9 < u) by (unfold u; lra).
  simpl in Hu9, Hineq. nra.
Qed.

(** From one hypothesis to two, the normalized quantile decreases:
    [R_th1 2 / 2 < R_th1 1]. *)
Lemma R_th1_two_hypotheses : R_th1 2 / 2 < R_th1 1.
Proof.
  destruct (Rlt_or_le (R_th1 2 / 2) (R_th1 1)) as [H|H]; [exact H|exfalso].
  assert (Hlow := half_R_th1_1_lower).
  assert (Hupp := half_R_th1_1_upper).
  assert (Htail1 := R_th1_tail 1 ltac:(lia)).
  assert (Htail2 := R_th1_tail 2 ltac:(lia)).
  change (Z.to_nat (5 * 1)) with 5%nat in Htail1.
  change (Z.to_nat (5 * 2)) with 10%nat in Htail2.
  set (y := R_th1 1 / 2) in *.
  set (d := R_th1 2 / 2 - 2 * y).
  assert (Hd : 0 <= d) by (unfold d, y; lra).
  replace (R_th1 2 / 2) with (y + y + d) in Htail2 by (unfold d; lra).
  assert (Hy : 0 <= y) by lra.
  set (P := (1 + d / 10) ^ 9).
  assert (HP : 0 < P) by (apply pow_lt; nra).
  assert (Hy8 : 0 < y ^ 8) by (apply pow_lt; lra).
  (* the sum of ten terms, from above *)
  assert (Hz : INR 9 <= y + y + d) by (simpl; lra).
  assert (Hs10 := exp_partial_le_last 9 (y + y + d) Hz).
  rewrite fact_9 in Hs10. replace (INR 10) with 10 in Hs10 by (simpl; lra).
  assert (Hz9 : (y + y + d) ^ 9 <= 512 * (y * y ^ 8) * P).
  { replace (512 * (y * y ^ 8) * P) with ((2 * y * (1 + d / 10)) ^ 9)
      by (unfold P; rewrite !Rpow_mult_distr; simpl; ring).
    apply pow_incr. split; nra. }
  (* the sum of five terms, from below *)
  assert (Hs5 := exp_partial_ge_last 4 y Hy). rewrite fact_4 in Hs5.
  assert (Hy4 : 0 <= y ^ 4 / 24) by (apply Rmult_le_pos; [apply pow_le, Hy|lra]).
  assert (Hsq : y ^ 8 / 576 <= exp_partial 5 y * exp_partial 5 y).
  { replace (y ^ 8 / 576) with (y ^ 4 / 24 * (y ^ 4 / 24)) by (simpl; field).
    apply Rmult_le_compat; assumption. }
  (* the exponential of the excess *)
  assert (Hed := exp_ge_compound d 10 Hd ltac:(lia)).
  replace (INR 10) with 10 in Hed by (simpl; lra).
  assert (HP10 : P <= exp d).
  { apply Rle_trans with ((1 + d / 10) ^ 10); [|exact Hed].
    change ((1 + d / 10) ^ 10) with ((1 + d / 10) * P).
    rewrite <- (Rmult_1_l P) at 1. apply Rmult_le_compat_r; [lra|nra]. }
  rewrite !exp_plus, Htail1 in Htail2.
  set (s5 := exp_partial 5 y) in *.
  set (s10 := exp_partial 10 (y + y + d)) in *.
  assert (Hs5pos : 0 <= s5 * s5) by nra.
  (* [10^24 * s5^2 * P <= 10^12 * s10 <= 10^13 * 512 * y^9 * P / 362880] *)
  assert (Hchain : 10 ^ 12 * (y ^ 8 / 576) * P
                   <= 10 * (512 * (y * y ^ 8) * P / 362880)).
  { apply Rle_trans with (10 * ((y + y + d) ^ 9 / 362880));
      [|unfold Rdiv; nra].
    apply Rle_trans with s10; [|exact Hs10].
    apply Rmult_le_reg_l with (10 ^ 12); [apply pow_lt; lra|].
    rewrite <- Htail2.
    apply Rle_trans with (10 ^ 12 * s5 * (10 ^ 12 * s5) * P).
    - assert (H1 : y ^ 8 / 576 * P <= s5 * s5 * P)
        by (apply Rmult_le_compat_r; lra).
      assert (H12 : 0 < 10 ^ 12) by (apply pow_lt; lra).
      nra.
    - apply Rmult_le_compat_l; [|exact HP10].
      assert (H12 : 0 < 10 ^ 12) by (apply pow_lt; lra). nra. }
  assert (Hfinal : (y ^ 8 * P) * (10 ^ 12 / 576) <= (y ^ 8 * P) * (5120 / 362880 * y))
    by (unfold Rdiv in *; lra).
  apply Rmult_le_reg_l in Hfinal; [|nra].
  simpl in Hfinal, Hupp. lra.
Qed.

(** *** The threshold vector *)

Lemma rx_cutoff_pos (FS_LTE : R) : 0 < FS_LTE -> 0 < rx_cutoff FS_LTE.
Proof.
  intro H. unfold rx_cutoff.
  apply Rdiv_lt_0_compat; lra.
Qed.

Lemma Z_th1_gain (FS_LTE : R) (n_comb_xc : Z) (sp_incoherent : list R) :
  Z_th1 FS_LTE n_comb_xc sp_incoherent
  = map (fun sp => threshold_gain FS_LTE n_comb_xc * sp) sp_incoherent.
Proof.
  unfold Z_th1, threshold_gain. apply map_ext. intro sp.
  unfold Rdiv. ring.
Qed.

Lemma threshold_gain_pos (FS_LTE : R) (n_comb_xc : Z) :
  0 < FS_LTE -> (1 <= n_comb_xc)%Z -> 0 < threshold_gain FS_LTE n_comb_xc.
Proof.
  intros HFS Hn. unfold threshold_gain, DS_COMB_ARM.
  destruct (R_th1_spec n_comb_xc Hn) as [Hq _].
  assert (Hrx := rx_cutoff_pos FS_LTE HFS).
  assert (HnR : 0 < IZR n_comb_xc) by (apply IZR_lt; lia).
  assert (H5 : 0 < IZR (2 * 2 + 1)) by (apply IZR_lt; lia).
  repeat apply Rdiv_lt_0_compat; try assumption; lra.
Qed.

Lemma threshold_gain_two_hypotheses (FS_LTE : R) :
  0 < FS_LTE -> threshold_gain FS_LTE 2 < threshold_gain FS_LTE 1.
Proof.
  intro HFS. unfold threshold_gain, DS_COMB_ARM.
  assert (Hrx := rx_cutoff_pos FS_LTE HFS).
  assert (Hq := R_th1_two_hypotheses).
  replace (R_th1 2 / rx_cutoff FS_LTE / 137 / 2 / 2 / IZR (2 * 2 + 1))
    with (R_th1 2 / 2 * (/ rx_cutoff FS_LTE / 1370))
    by (simpl; field; lra).
  replace (R_th1 1 / rx_cutoff FS_LTE / 137 / 2 / 1 / IZR (2 * 2 + 1))
    with (R_th1 1 * (/ rx_cutoff FS_LTE / 1370))
    by (simpl; field; lra).
  apply Rmult_lt_compat_r; [|exact Hq].
  apply Rdiv_lt_0_compat; [apply Rinv_0_lt_compat, Hrx|lra].
Qed.

(** C7 (as amended).  For the budget of 12 nines, the combining arm 2 and a
    fixed hypothesis count [n_comb_xc >= 1], every entry of the threshold
    vector increases with the noise-power estimate of its bin (weakly for
    [<=], strictly for [<]).  It does not increase with the hypothesis
    count: from [n_comb_xc = 1] to [n_comb_xc = 2], the threshold of every
    bin with a positive noise power decreases. *)
Theorem threshold_increasing_in_noise (FS_LTE : R) (n_comb_xc : Z) :
  0 < FS_LTE -> (1 <= n_comb_xc)%Z ->
  (forall sp sp', Forall2 Rle sp sp' ->
     Forall2 Rle (Z_th1 FS_LTE n_comb_xc sp) (Z_th1 FS_LTE n_comb_xc sp')) /\
  (forall sp sp', Forall2 Rlt sp sp' ->
     Forall2 Rlt (Z_th1 FS_LTE n_comb_xc sp) (Z_th1 FS_LTE n_comb_xc sp')) /\
  (forall sp, Forall (Rlt 0) sp ->
     Forall2 Rlt (Z_th1 FS_LTE 2 sp) (Z_th1 FS_LTE 1 sp)).
Proof.
  intros HFS Hn.
  assert (Hg := threshold_gain_pos FS_LTE n_comb_xc HFS Hn).
  assert (Hg21 := threshold_gain_two_hypotheses FS_LTE HFS).
  split; [|split].
  - intros sp sp' H. rewrite !Z_th1_gain.
    induction H as [|s s' l l' Hs _ IH]; simpl; constructor; [|exact IH].
    apply Rmult_le_compat_l; lra.
  - intros sp sp' H. rewrite !Z_th1_gain.
    induction H as [|s s' l l' Hs _ IH]; simpl; constructor; [|exact IH].
    apply Rmult_lt_compat_l; lra.
  - intros sp H. rewrite !Z_th1_gain.
    induction H as [|s l Hs _ IH]; simpl; constructor; [|exact IH].
    apply Rmult_lt_compat_r; lra.
Qed.

(** C7, as stated, fails in the hypothesis count: with a sampling rate of
    30.72 MHz and a noise power of 1, the threshold for two hypotheses is
    below the threshold for one. *)
Lemma threshold_not_increasing_in_hypotheses :
  nth 0 (Z_th1 30720000 2 [1]) 0 < nth 0 (Z_th1 30720000 1 [1]) 0.
Proof.
  rewrite !Z_th1_gain. simpl. rewrite !Rmult_1_r.
  apply threshold_gain_two_hypotheses. lra.
Qed.

(** C7 (as amended) at the sampling rate 30.72 MHz and one hypothesis. *)
Lemma threshold_increasing_in_noise_witness :
  0 < 30720000 /\ (1 <= 1)%Z /\
  Forall2 Rle (Z_th1 30720000 1 [1]) (Z_th1 30720000 1 [2]).
Proof.
  assert (H1 : 0 < 30720000) by lra.
  assert (H2 : (1 <= 1)%Z) by lia.
  split; [exact H1|]. split; [exact H2|].
  apply (proj1 (threshold_increasing_in_noise 30720000 1 H1 H2)).
  constructor; [lra|constructor].
Defined.

(** C8 (as amended).  For [n_comb_xc >= 1], [R_th1] is the inverse CDF of the
    chi-squared distribution with [2 * n_comb_xc * (2*DS_COMB_ARM+1)]
    degrees of freedom at [1 - 10^(-12)] (the distribution function takes
    that value there), and every entry of the threshold vector is [R_th1]
    times the noise-power estimate of the bin, divided by [rx_cutoff], by
    the constants 137 and 2, by [n_comb_xc] and by [2*DS_COMB_ARM+1]. *)
Theorem threshold_formula (FS_LTE : R) (n_comb_xc : Z) (sp_incoherent : list R) :
  (1 <= n_comb_xc)%Z ->
  0 < R_th1 n_comb_xc /\
  chi2cdf (2 * n_comb_xc * (2 * DS_COMB_ARM + 1)) (R_th1 n_comb_xc)
  = 1 - / 10 ^ 12 /\
  Z_th1 FS_LTE n_comb_xc sp_incoherent
  = map (fun sp =>
           chi2cdf_inv (1 - / 10 ^ 12) (2 * n_comb_xc * (2 * DS_COMB_ARM + 1)) * sp
           / (rx_cutoff FS_LTE * 137 * 2 * IZR n_comb_xc * IZR (2 * DS_COMB_ARM + 1)))
        sp_incoherent.
Proof.
  intro Hn. destruct (R_th1_spec n_comb_xc Hn) as [Hq Hcdf].
  split; [exact Hq|]. split; [exact Hcdf|].
  unfold Z_th1. apply map_ext. intro sp.
  unfold R_th1, thresh1_n_nines, Rdiv. rewrite !Rinv_mult. ring.
Qed.

(** C8, as stated, fails: the threshold divided only by [rx_cutoff], the
    hypothesis count and the combining width is 274 times the one [main]
    computes, which is not zero. *)
Lemma threshold_spec_misses_constants :
  nth 0 (threshold_spec 30720000 1 [1]) 0
  = 274 * nth 0 (Z_th1 30720000 1 [1]) 0 /\
  0 < nth 0 (Z_th1 30720000 1 [1]) 0.
Proof.
  split.
  - unfold threshold_spec, Z_th1, R_th1, thresh1_n_nines. simpl nth. field.
    apply Rgt_not_eq, rx_cutoff_pos. lra.
  - rewrite Z_th1_gain. simpl. rewrite Rmult_1_r.
    apply threshold_gain_pos; [lra|lia].
Qed.

(** C8 (as amended) at one hypothesis. *)
Lemma threshold_formula_witness :
  (1 <= 1)%Z /\
  chi2cdf (2 * 1 * (2 * DS_COMB_ARM + 1)) (R_th1 1) = 1 - / 10 ^ 12.
Proof.
  assert (H : (1 <= 1)%Z) by lia.
  split; [exact H|].
  exact (proj1 (proj2 (threshold_formula 30720000 1 [1] H))).
Defined.

End ThresholdFacts.

(** * Further properties *)

(** ** [dedup] on any input *)

Section DedupMore.

Variable n_id_cell : Cell -> Z.

Lemma dedup_insert_length (acc : list Cell) (n : Cell) :
  (length (dedup_insert n_id_cell acc n) <= S (length acc))%nat.
Proof.
  destruct (first_match_split n_id_cell n acc)
    as [Hnone|(pre & f & post & -> & Hpre & Hf)].
  - rewrite dedup_insert_none by exact Hnone. rewrite length_app. simpl. lia.
  - rewrite dedup_insert_first by assumption. rewrite !length_app. simpl. lia.
Qed.

Lemma dedup_list_length (l acc : list Cell) :
  (length (dedup_list n_id_cell acc l) <= length acc + length l)%nat.
Proof.
  revert acc. induction l as [|n l IH]; intro acc; simpl.
  - unfold dedup_list. simpl. lia.
  - change (dedup_list n_id_cell acc (n :: l))
      with (dedup_list n_id_cell (dedup_insert n_id_cell acc n) l).
    specialize (IH (dedup_insert n_id_cell acc n)).
    assert (H := dedup_insert_length acc n). lia.
Qed.

(** X1.  The report is made of input candidates, as they were, and holds no more
    entries than there are candidates. *)
Theorem dedup_output_from_input (detected_cells : list (list Cell)) :
  incl (dedup n_id_cell detected_cells) (concat detected_cells) /\
  (length (dedup n_id_cell detected_cells)
   <= length (concat detected_cells))%nat.
Proof.
  split; [apply dedup_incl|].
  rewrite dedup_concat. apply (dedup_list_length _ []).
Qed.

(** Two cells that match have the same identity. *)
Lemma same_cell_identity (n f : Cell) :
  same_cell n_id_cell n f = true -> n_id_cell n = n_id_cell f.
Proof. intro H. apply same_cell_spec in H. apply H. Qed.

Lemma dedup_insert_covered (done acc : list Cell) (n : Cell) :
  covered n_id_cell done acc ->
  covered n_id_cell (done ++ [n]) (dedup_insert n_id_cell acc n).
Proof.
  intro Hcov.
  destruct (first_match_split n_id_cell n acc)
    as [Hnone|(pre & f & post & -> & Hpre & Hf)].
  - rewrite dedup_insert_none by exact Hnone.
    intros x Hx. apply in_app_or in Hx. destruct Hx as [Hx|[<-|[]]].
    + destruct (Hcov x Hx) as (y & Hy & Hid & Hpow).
      exists y. repeat split; try assumption. apply in_or_app. left. exact Hy.
    + exists n. repeat split; [|apply Qle_refl].
      apply in_or_app. right. left. reflexivity.
  - rewrite dedup_insert_first by assumption.
    assert (Hid := same_cell_identity n f Hf).
    destruct (Qltb (pss_pow f) (pss_pow n)) eqn:Hpow.
    + apply Qltb_lt in Hpow.
      intros x Hx. apply in_app_or in Hx. destruct Hx as [Hx|[<-|[]]].
      * destruct (Hcov x Hx) as (y & Hy & Hyid & Hle).
        apply in_app_or in Hy. destruct Hy as [Hy|[<-|Hy]].
        -- exists y. repeat split; try assumption. apply in_or_app. left. exact Hy.
        -- exists n. repeat split.
           ++ apply in_or_app. right. left. reflexivity.
           ++ congruence.
           ++ apply Qlt_le_weak. eapply Qle_lt_trans; eassumption.
        -- exists y. repeat split; try assumption.
           apply in_or_app. right. right. exact Hy.
      * exists n. repeat split; [|apply Qle_refl].
        apply in_or_app. right. left. reflexivity.
    + apply Qltb_ge in Hpow.
      intros x Hx. apply in_app_or in Hx. destruct Hx as [Hx|[<-|[]]].
      * apply Hcov, Hx.
      * exists f. repeat split; [|congruence|exact Hpow].
        apply in_or_app. right. left. reflexivity.
Qed.

Lemma dedup_list_covered (l done acc : list Cell) :
  covered n_id_cell done acc ->
  covered n_id_cell (done ++ l) (dedup_list n_id_cell acc l).
Proof.
  revert done acc. induction l as [|n l IH]; intros done acc Hcov.
  - rewrite app_nil_r. exact Hcov.
  - change (dedup_list n_id_cell acc (n :: l))
      with (dedup_list n_id_cell (dedup_insert n_id_cell acc n) l).
    replace (done ++ n :: l) with ((done ++ [n]) ++ l)
      by (rewrite <- app_assoc; reflexivity).
    apply IH, dedup_insert_covered, Hcov.
Qed.

Lemma dedup_covered (detected_cells : list (list Cell)) :
  covered n_id_cell (concat detected_cells) (dedup n_id_cell detected_cells).
Proof.
  rewrite dedup_concat.
  apply (dedup_list_covered (concat detected_cells) [] []).
  intros x [].
Qed.

(** X2.  No identity is lost and no power is understated: every input candidate
    has an entry in the report with its cell identity and at least its
    power. *)
Theorem dedup_keeps_identity_and_power (detected_cells : list (list Cell)) :
  forall x, In x (concat detected_cells) ->
    exists y, In y (dedup n_id_cell detected_cells) /\
              n_id_cell y = n_id_cell x /\ pss_pow x <= pss_pow y.
Proof.
  intros x Hx. destruct (dedup_covered detected_cells x Hx) as (y & Hy).
  exists y. exact Hy.
Qed.

(** X3.  The report is empty exactly when there is no candidate at all. *)
Theorem dedup_empty_iff (detected_cells : list (list Cell)) :
  dedup n_id_cell detected_cells = [] <-> concat detected_cells = [].
Proof.
  split; intro H.
  - destruct (concat detected_cells) as [|x l] eqn:Hc; [reflexivity|exfalso].
    assert (Hcov : covered n_id_cell (x :: l) (dedup n_id_cell detected_cells)).
    { rewrite <- Hc. apply dedup_covered. }
    destruct (Hcov x (or_introl eq_refl)) as (y & Hy & _).
    rewrite H in Hy. exact Hy.
  - rewrite dedup_concat, H. reflexivity.
Qed.

Lemma dedup_list_separated (l acc : list Cell) :
  separated n_id_cell (acc ++ l) -> dedup_list n_id_cell acc l = acc ++ l.
Proof.
  revert acc. induction l as [|n l IH]; intros acc Hsep.
  - rewrite app_nil_r. reflexivity.
  - change (dedup_list n_id_cell acc (n :: l))
      with (dedup_list n_id_cell (dedup_insert n_id_cell acc n) l).
    assert (Hnone : forall z, In z acc -> same_cell n_id_cell n z = false).
    { intros z Hz. apply separated_app in Hsep.
      destruct Hsep as (_ & _ & Hcross).
      rewrite same_cell_sym. apply Hcross; [exact Hz|left; reflexivity]. }
    rewrite dedup_insert_none by exact Hnone.
    replace (acc ++ n :: l) with ((acc ++ [n]) ++ l) in *
      by (rewrite <- app_assoc; reflexivity).
    apply IH, Hsep.
Qed.

(** X4.  Candidates of which no two match are all reported, in the order in
    which they were found. *)
Theorem dedup_separated_input (detected_cells : list (list Cell)) :
  separated n_id_cell (concat detected_cells) ->
  dedup n_id_cell detected_cells = concat detected_cells.
Proof.
  intro Hsep. rewrite dedup_concat. apply (dedup_list_separated _ []), Hsep.
Qed.

(** X5.  On candidates that fall into groups, a second pass of [dedup] over its
    own output changes nothing. *)
Theorem dedup_idempotent (detected_cells : list (list Cell)) :
  grouped n_id_cell (concat detected_cells) ->
  dedup n_id_cell [dedup n_id_cell detected_cells]
  = dedup n_id_cell detected_cells.
Proof.
  intro Hgr. destruct (dedup_groups n_id_cell detected_cells Hgr) as (_ & Hsep & _).
  rewrite (dedup_concat n_id_cell [dedup n_id_cell detected_cells]).
  simpl concat. rewrite app_nil_r.
  apply (dedup_list_separated _ []), Hsep.
Qed.

End DedupMore.

Lemma sightings_separated :
  separated lte_cell_id (concat [[sighting_A]; [sighting_D]]).
Proof.
  simpl. repeat split; intros y Hy; in_cases Hy; try contradiction; reflexivity.
Qed.

Lemma dedup_keeps_identity_and_power_witness :
  In sighting_A (concat [[sighting_A]; [sighting_B]]) /\
  exists y, In y (dedup lte_cell_id [[sighting_A]; [sighting_B]]) /\
            lte_cell_id y = lte_cell_id sighting_A /\
            pss_pow sighting_A <= pss_pow y.
Proof.
  assert (H : In sighting_A (concat [[sighting_A]; [sighting_B]]))
    by (left; reflexivity).
  split; [exact H|].
  exact (dedup_keeps_identity_and_power lte_cell_id
           [[sighting_A]; [sighting_B]] sighting_A H).
Defined.

Lemma dedup_separated_input_witness :
  separated lte_cell_id (concat [[sighting_A]; [sighting_D]]) /\
  dedup lte_cell_id [[sighting_A]; [sighting_D]] = [sighting_A; sighting_D].
Proof.
  split; [exact sightings_separated|].
  exact (dedup_separated_input lte_cell_id [[sighting_A]; [sighting_D]]
           sightings_separated).
Defined.

Lemma dedup_idempotent_witness :
  grouped lte_cell_id (concat [[sighting_A; sighting_B]; [sighting_D]]) /\
  dedup lte_cell_id [dedup lte_cell_id [[sighting_A; sighting_B]; [sighting_D]]]
  = dedup lte_cell_id [[sighting_A; sighting_B]; [sighting_D]].
Proof.
  split; [exact sightings_grouped|].
  exact (dedup_idempotent lte_cell_id [[sighting_A; sighting_B]; [sighting_D]]
           sightings_grouped).
Defined.

(** ** The examination of the peaks, as a whole *)

Section PipelineMore.

Variable n_id_cell : Cell -> Z.
Variable E : Collaborators.

Lemma confirmed_kept (capbuf : capbuf_t E) (fc : Q) (peak : Cell) :
  snd (examine_peak n_id_cell E capbuf fc peak)
  = if confirmed n_id_cell E capbuf fc peak
    then Some (mib_decoded n_id_cell E capbuf fc
                 (sss_detect E peak capbuf THRESH2_N_SIGMA fc))
    else None.
Proof.
  unfold confirmed.
  destruct (examine_peak_cases n_id_cell E capbuf fc peak)
    as [(H1 & ->)|[(H1 & H4 & ->)|(H1 & H4 & ->)]]; simpl.
  - rewrite H1. reflexivity.
  - rewrite H4. apply Z.eqb_neq in H1. rewrite H1. reflexivity.
  - apply Z.eqb_neq in H1, H4. rewrite H1, H4. reflexivity.
Qed.

(** X6.  The loop over the peaks of one center frequency leaves, in the order of
    discovery, the decoded cells of exactly the peaks that pass both tests;
    so it never leaves more cells than there were peaks. *)
Theorem examine_peaks_filter_map
  (capbuf : capbuf_t E) (fc : Q) (cells : list Cell) :
  examine_peaks n_id_cell E capbuf fc cells
  = map (fun peak => mib_decoded n_id_cell E capbuf fc
                       (sss_detect E peak capbuf THRESH2_N_SIGMA fc))
        (filter (confirmed n_id_cell E capbuf fc) cells) /\
  (length (examine_peaks n_id_cell E capbuf fc cells) <= length cells)%nat.
Proof.
  assert (Heq : examine_peaks n_id_cell E capbuf fc cells
    = map (fun peak => mib_decoded n_id_cell E capbuf fc
                         (sss_detect E peak capbuf THRESH2_N_SIGMA fc))
          (filter (confirmed n_id_cell E capbuf fc) cells)).
  { induction cells as [|peak rest IH]; simpl; [reflexivity|].
    rewrite confirmed_kept.
    destruct (confirmed n_id_cell E capbuf fc peak); simpl; rewrite IH; reflexivity. }
  split; [exact Heq|].
  rewrite Heq, length_map. apply filter_length_le.
Qed.

Lemma examine_peaks_none (capbuf : capbuf_t E) (fc : Q) (cells : list Cell) :
  (forall peak, In peak cells -> confirmed n_id_cell E capbuf fc peak = false) ->
  examine_peaks n_id_cell E capbuf fc cells = [].
Proof.
  intro H. induction cells as [|peak rest IH]; simpl; [reflexivity|].
  rewrite confirmed_kept, (H peak (or_introl eq_refl)).
  apply IH. intros p Hp. apply H. right. exact Hp.
Qed.

Lemma dedup_of_empty_lists (detected : list (list Cell)) :
  (forall l, In l detected -> l = []) -> dedup n_id_cell detected = [].
Proof.
  intro H. rewrite dedup_concat.
  replace (concat detected) with (@nil Cell); [reflexivity|].
  symmetry. induction detected as [|l rest IH]; simpl; [reflexivity|].
  rewrite (H l (or_introl eq_refl)), IH; [reflexivity|].
  intros l' Hl'. apply H. right. exact Hl'.
Qed.

(** X7.  When no peak of the sweep passes both tests, the report is empty. *)
Theorem no_peak_confirmed_empty_report
  (freq_start freq_end ppm correction : Q) (save_cap use_recorded_data : bool) :
  (forall fc peak,
     In fc (fc_search_set freq_start freq_end) ->
     In peak (peak_search_cells E
                (capture_data E fc correction save_cap use_recorded_data)
                (f_search_set freq_start ppm) fc) ->
     confirmed n_id_cell E
       (capture_data E fc correction save_cap use_recorded_data) fc peak
     = false) ->
  cells_final n_id_cell E freq_start freq_end ppm correction
              save_cap use_recorded_data = [].
Proof.
  intro H. unfold cells_final. apply dedup_of_empty_lists.
  intros l Hl. unfold detected_cells in Hl.
  apply in_map_iff in Hl. destruct Hl as (fc & <- & Hfc).
  unfold examine_center_frequency. apply examine_peaks_none.
  intros peak Hpeak. apply H; [|exact Hpeak].
  rewrite <- (firstn_skipn
    (Z.to_nat (to_uint16 (Z.of_nat (length (fc_search_set freq_start freq_end)))))
    (fc_search_set freq_start freq_end)).
  apply in_or_app. left. exact Hfc.
Qed.

(** X8.  [detected_cells] holds one list per examined center frequency, and the
    number of examined center frequencies is the length of [fc_search_set]
    modulo 65536. *)
Theorem detected_cells_count
  (freq_start freq_end ppm correction : Q) (save_cap use_recorded_data : bool) :
  Z.of_nat (length (detected_cells n_id_cell E freq_start freq_end ppm
                                   correction save_cap use_recorded_data))
  = (Z.of_nat (length (fc_search_set freq_start freq_end)) mod 65536)%Z.
Proof.
  unfold detected_cells. rewrite length_map, length_firstn. unfold to_uint16.
  set (len := Z.of_nat (length (fc_search_set freq_start freq_end))).
  assert (H : (0 <= len mod 65536 <= len)%Z).
  { split; [apply Z.mod_pos_bound; reflexivity|].
    apply Z.mod_le; [unfold len; lia|reflexivity]. }
  unfold len in *. lia.
Qed.

End PipelineMore.

Lemma no_peak_confirmed_empty_report_witness :
  (forall fc peak,
     In fc (fc_search_set 739000000 739100000) ->
     In peak (peak_search_cells weak_peaks
                (capture_data weak_peaks fc 1 false false)
                (f_search_set 739000000 100) fc) ->
     confirmed lte_cell_id weak_peaks
       (capture_data weak_peaks fc 1 false false) fc peak = false) /\
  cells_final lte_cell_id weak_peaks 739000000 739100000 100 1 false false = [].
Proof.
  assert (H : forall fc peak,
     In fc (fc_search_set 739000000 739100000) ->
     In peak (peak_search_cells weak_peaks
                (capture_data weak_peaks fc 1 false false)
                (f_search_set 739000000 100) fc) ->
     confirmed lte_cell_id weak_peaks
       (capture_data weak_peaks fc 1 false false) fc peak = false).
  { intros fc peak _ Hpeak. simpl in Hpeak.
    destruct Hpeak as [<-|[]]. reflexivity. }
  split; [exact H|].
  exact (no_peak_confirmed_empty_report lte_cell_id weak_peaks
           739000000 739100000 100 1 false false H).
Defined.

(** ** The frequency offsets, for every input *)

(** X10.  Whatever the start frequency and the ppm value, the frequency offsets
    are the [2*n_extra + 1] multiples of 5000 from [-n_extra*5000] to
    [n_extra*5000]: the list is never empty, holds the zero offset, and has
    at most 131071 points. *)
Theorem offsets_always_symmetric (freq_start ppm : Q) :
  f_search_ints freq_start ppm
  = map (fun k => (5000 * (Z.of_nat k - n_extra freq_start ppm))%Z)
        (seq 0 (Z.to_nat (2 * n_extra freq_start ppm + 1))) /\
  In 0%Z (f_search_ints freq_start ppm) /\
  Z.of_nat (length (f_search_ints freq_start ppm))
  = (2 * n_extra freq_start ppm + 1)%Z /\
  (0 <= n_extra freq_start ppm <= 65535)%Z.
Proof.
  assert (Hn : (0 <= n_extra freq_start ppm < 65536)%Z)
    by (unfold n_extra, to_uint16; apply Z.mod_pos_bound; reflexivity).
  assert (Hl : f_search_ints freq_start ppm
    = map (fun k => (5000 * (Z.of_nat k - n_extra freq_start ppm))%Z)
          (seq 0 (Z.to_nat (2 * n_extra freq_start ppm + 1)))).
  { unfold f_search_ints. apply matlab_range_symmetric. lia. }
  split; [exact Hl|]. split; [|split; [|lia]].
  - rewrite Hl. apply in_map_iff.
    exists (Z.to_nat (n_extra freq_start ppm)). split; [lia|].
    apply in_seq. lia.
  - rewrite Hl, length_map, length_seq. lia.
Qed.

(** ** The sanity checks of the command line, as a whole *)

Section CommandLineMore.

Import CommandLine.

(** [round] does not depend on how its argument is written. *)
Lemma round_comp (x y : Q) : x == y -> round x = round y.
Proof.
  intro H. unfold round.
  rewrite (Qfloor_comp x y H).
  assert (Hc : (x - inject_Z (Qfloor y) ?= 1 # 2)
               = (y - inject_Z (Qfloor y) ?= 1 # 2)).
  { apply Qcompare_comp; [rewrite H|]; reflexivity. }
  rewrite Hc. reflexivity.
Qed.

Lemma round_Z (z : Z) : round (inject_Z z) = inject_Z z.
Proof.
  unfold round. rewrite Qfloor_Z.
  assert (Hc : (inject_Z z - inject_Z z ?= 1 # 2) = Lt).
  { apply Qlt_alt. setoid_replace (inject_Z z - inject_Z z) with 0 by ring.
    reflexivity. }
  rewrite Hc. reflexivity.
Qed.

Lemma round_integer (x : Q) :
  exists z, round x = inject_Z z /\ (Qfloor x <= z)%Z.
Proof.
  unfold round.
  destruct (x - inject_Z (Qfloor x) ?= 1 # 2);
    [destruct (Z.even (Qfloor x))| |];
    eexists; (split; [reflexivity|lia]).
Qed.

(** Rounding to the raster does not go below a raster point that the value
    has reached. *)
Lemma to_raster_ge (z : Z) (x : Q) :
  inject_Z z * 100e3 <= x -> inject_Z z * 100e3 <= to_raster x.
Proof.
  intro H. unfold to_raster.
  destruct (round_integer (x / 100e3)) as (r & -> & Hr).
  assert (Hz : (z <= Qfloor (x / 100e3))%Z).
  { rewrite <- (Qfloor_Z z). apply Qfloor_resp_le.
    plain_literals. apply Qle_shift_div_l; [reflexivity|exact H]. }
  assert (Hzr : inject_Z z <= inject_Z r) by (rewrite <- Zle_Qle; lia).
  plain_literals. apply Qmult_le_compat_r; [exact Hzr|discriminate].
Qed.

Lemma to_raster_on_raster (x : Q) : off_raster (to_raster x) = false.
Proof.
  unfold off_raster. apply negb_false_iff, Qeq_bool_iff.
  unfold to_raster.
  destruct (round_integer (x / 100e3)) as (r & -> & _).
  assert (H : inject_Z r * 100e3 / 100e3 == inject_Z r)
    by (plain_literals; field).
  rewrite (round_comp _ _ H), round_Z. exact H.
Qed.

Lemma to_raster_integer (x : Q) : exists z, to_raster x = inject_Z z * 100e3.
Proof.
  unfold to_raster. destruct (round_integer (x / 100e3)) as (r & -> & _).
  exists r. reflexivity.
Qed.

Lemma checked_start_raster (a : options) :
  off_raster (Checked.start a) = false /\
  Checked.start a == to_raster (freq_start a).
Proof.
  unfold Checked.start. destruct (off_raster (freq_start a)) eqn:H.
  - split; [apply to_raster_on_raster|reflexivity].
  - split; [exact H|]. symmetry. apply on_raster_fixed, H.
Qed.

Lemma checked_end_raster (a : options) :
  off_raster (Checked.final_end a) = false /\
  Checked.final_end a == to_raster (Checked.given_end a).
Proof.
  unfold Checked.final_end. destruct (off_raster (Checked.given_end a)) eqn:H.
  - split; [apply to_raster_on_raster|reflexivity].
  - split; [exact H|]. symmetry. apply on_raster_fixed, H.
Qed.

(** When [parse_commandline] returns, and what it returns. *)
Lemma parse_commandline_return (a o : options) (w : list warning) :
  parse_commandline a = Return o w ->
  extra_arguments a = false /\
  Qltb (freq_start a) 1e6 = false /\
  Qltb (Checked.given_end a) (Checked.start a) = false /\
  Qltb (ppm a) 0 = false /\
  save_cap a && use_recorded_data a = false /\
  o = mkOptions (Checked.start a) (Checked.final_end a) (ppm a) (correction a)
                (save_cap a) (use_recorded_data a) false.
Proof.
  unfold parse_commandline.
  fold (Checked.start a). fold (Checked.given_end a). fold (Checked.final_end a).
  destruct (extra_arguments a); [discriminate|].
  destruct (Qltb (freq_start a) 1e6); [discriminate|].
  destruct (Qltb (Checked.given_end a) (Checked.start a)); [discriminate|].
  destruct (Qltb (ppm a) 0); [discriminate|].
  destruct (save_cap a && use_recorded_data a); [discriminate|].
  intros [= <- _]. repeat split; reflexivity.
Qed.

(** Every exit of the checks has status [-1]. *)
Lemma parse_commandline_exit (a : options) (status : Z) (e : error) :
  parse_commandline a = Exit status e -> status = (-1)%Z.
Proof.
  unfold parse_commandline.
  repeat match goal with
         | |- context [if ?b then Exit (-1) _ else _] =>
             destruct b; [intros [= <- _]; reflexivity|]
         end.
  discriminate.
Qed.

(** X14.  Without an end frequency, the sweep has one center frequency: the end
    frequency that is returned is the start frequency that is returned. *)
Theorem default_end_is_start (a o : options) (w : list warning) :
  freq_end a == -1 -> parse_commandline a = Return o w ->
  freq_end o = freq_start o.
Proof.
  intros Hdef H. apply parse_commandline_return in H.
  destruct H as (_ & _ & _ & _ & _ & ->). simpl.
  destruct (checked_start_raster a) as [Hs _].
  unfold Checked.final_end, Checked.given_end.
  apply Qeq_bool_iff in Hdef. rewrite Hdef, Hs. reflexivity.
Qed.

End CommandLineMore.

Lemma single_frequency_returns :
  CommandLine.parse_commandline single_frequency
  = CommandLine.Return
      (CommandLine.mkOptions 739000000 739000000 100 1 false false false) [].
Proof. vm_compute. reflexivity. Qed.

Lemma default_end_is_start_witness :
  CommandLine.freq_end single_frequency == -1 /\
  CommandLine.parse_commandline single_frequency
  = CommandLine.Return
      (CommandLine.mkOptions 739000000 739000000 100 1 false false false) [] /\
  CommandLine.freq_end
    (CommandLine.mkOptions 739000000 739000000 100 1 false false false)
  = CommandLine.freq_start
      (CommandLine.mkOptions 739000000 739000000 100 1 false false false).
Proof.
  assert (H : CommandLine.freq_end single_frequency == -1) by reflexivity.
  split; [exact H|]. split; [exact single_frequency_returns|].
  exact (default_end_is_start _ _ _ H single_frequency_returns).
Defined.

(** ** The sanity checks on infinities and NaN *)

Section ExtendedFacts.

Import Extended.

(** On numbers, the checks are those of [CommandLine]. *)
Lemma checks_agree (a : CommandLine.options) :
  parse_commandline (of_options a) = of_outcome (CommandLine.parse_commandline a).
Proof.
  unfold parse_commandline, CommandLine.parse_commandline, of_options.
  cbn [freq_start freq_end ppm correction save_cap use_recorded_data
       extra_arguments].
  destruct (CommandLine.extra_arguments a); [reflexivity|].
  cbn [lt].
  destruct (Qltb (CommandLine.freq_start a) 1e6); [reflexivity|].
  change (off_raster (finite (CommandLine.freq_start a)))
    with (CommandLine.off_raster (CommandLine.freq_start a)).
  change (to_raster (finite (CommandLine.freq_start a)))
    with (finite (CommandLine.to_raster (CommandLine.freq_start a))).
  cbn [eq].
  set (s := if CommandLine.off_raster (CommandLine.freq_start a)
            then CommandLine.to_raster (CommandLine.freq_start a)
            else CommandLine.freq_start a).
  replace (if CommandLine.off_raster (CommandLine.freq_start a)
           then finite (CommandLine.to_raster (CommandLine.freq_start a))
           else finite (CommandLine.freq_start a))
    with (finite s)
    by (unfold s; destruct (CommandLine.off_raster (CommandLine.freq_start a));
        reflexivity).
  set (e := if Qeq_bool (CommandLine.freq_end a) (-1) then s
            else CommandLine.freq_end a).
  replace (if Qeq_bool (CommandLine.freq_end a) (-1) then finite s
           else finite (CommandLine.freq_end a))
    with (finite e)
    by (unfold e; destruct (Qeq_bool (CommandLine.freq_end a) (-1)); reflexivity).
  cbn [lt].
  destruct (Qltb e s); [reflexivity|].
  destruct (Qltb (CommandLine.ppm a) 0); [reflexivity|].
  destruct (CommandLine.save_cap a && CommandLine.use_recorded_data a);
    [reflexivity|].
  change (off_raster (finite e)) with (CommandLine.off_raster e).
  change (to_raster (finite e)) with (finite (CommandLine.to_raster e)).
  cbn [of_outcome of_options on_number abs lt].
  cbn [CommandLine.freq_start CommandLine.freq_end CommandLine.ppm
       CommandLine.correction CommandLine.save_cap CommandLine.use_recorded_data
       CommandLine.extra_arguments].
  f_equal. f_equal.
  destruct (CommandLine.off_raster e); reflexivity.
Qed.

Lemma off_raster_comp (x y : Q) :
  x == y -> CommandLine.off_raster x = CommandLine.off_raster y.
Proof.
  intro H. unfold CommandLine.off_raster.
  assert (Hd : x / 100e3 == y / 100e3) by (rewrite H; reflexivity).
  rewrite (round_comp _ _ Hd). f_equal.
  destruct (Qeq_bool (y / 100e3) (round (y / 100e3))) eqn:E.
  - apply Qeq_bool_iff. rewrite Hd. apply Qeq_bool_iff, E.
  - apply not_true_iff_false. intro E'. apply Qeq_bool_iff in E'.
    rewrite Hd in E'. apply Qeq_bool_iff in E'. congruence.
Qed.

Lemma off_raster_on_raster (q : Q) :
  CommandLine.off_raster q = false <-> on_raster q.
Proof.
  split.
  - intro H. destruct (to_raster_integer q) as (k & Hk). exists k.
    rewrite <- Hk. symmetry. apply on_raster_fixed, H.
  - intros (k & Hk).
    assert (Hk' : q == CommandLine.to_raster (inject_Z k * 100e3)).
    { rewrite Hk. unfold CommandLine.to_raster.
      assert (H : inject_Z k * 100e3 / 100e3 == inject_Z k)
        by (plain_literals; field).
      rewrite (round_comp _ _ H), round_Z. reflexivity. }
    rewrite (off_raster_comp _ _ Hk'). apply to_raster_on_raster.
Qed.

(** The comparison [x < y] is false exactly when a side is NaN or
    [y <= x]. *)
Lemma lt_false (x y : double) :
  lt x y = false <-> x = nan \/ y = nan \/ le y x = true.
Proof.
  destruct x as [p| | |], y as [q| | |]; simpl;
    try (split; [intros _; auto|reflexivity]; fail);
    try (split; [discriminate|intros [H|[H|H]]; discriminate]; fail).
  rewrite Qltb_ge, Qle_bool_iff. split; [auto|].
  intros [H|[H|H]]; [discriminate|discriminate|exact H].
Qed.

Lemma lt_irrefl (x : double) : lt x x = false.
Proof.
  destruct x as [p| | |]; simpl; try reflexivity.
  apply Qltb_ge, Qle_refl.
Qed.

(** A value after the rounding of lines 194-197 or 205-208. *)
Lemma rastered_cases (x : double) :
  (x = nan /\ (if off_raster x then to_raster x else x) = nan) \/
  (x = pos_inf /\ (if off_raster x then to_raster x else x) = pos_inf) \/
  (x = neg_inf /\ (if off_raster x then to_raster x else x) = neg_inf) \/
  (exists q q', x = finite q /\
     (if off_raster x then to_raster x else x) = finite q' /\
     q' == CommandLine.to_raster q /\ CommandLine.off_raster q' = false).
Proof.
  destruct x as [q| | |]; auto.
  right. right. right.
  change (off_raster (finite q)) with (CommandLine.off_raster q).
  change (to_raster (finite q)) with (finite (CommandLine.to_raster q)).
  destruct (CommandLine.off_raster q) eqn:H.
  - exists q, (CommandLine.to_raster q). repeat split; try reflexivity.
    apply to_raster_on_raster.
  - exists q, q. repeat split; try assumption.
    symmetry. apply on_raster_fixed, H.
Qed.

Lemma parse_commandline_return_ext (a o : options) (w : list CommandLine.warning) :
  parse_commandline a = Return o w ->
  extra_arguments a = false /\
  lt (freq_start a) (finite 1e6) = false /\
  lt (given_end a) (start a) = false /\
  lt (ppm a) (finite 0) = false /\
  save_cap a && use_recorded_data a = false /\
  o = mkOptions (start a) (final_end a) (ppm a) (correction a)
                (save_cap a) (use_recorded_data a) false.
Proof.
  unfold parse_commandline.
  fold (start a). fold (given_end a). fold (final_end a).
  destruct (extra_arguments a); [discriminate|].
  destruct (lt (freq_start a) (finite 1e6)); [discriminate|].
  destruct (lt (given_end a) (start a)); [discriminate|].
  destruct (lt (ppm a) (finite 0)); [discriminate|].
  destruct (save_cap a && use_recorded_data a); [discriminate|].
  intros [= <- _]. repeat split; reflexivity.
Qed.

Lemma parse_commandline_returns_ext (a : options) :
  extra_arguments a = false ->
  lt (freq_start a) (finite 1e6) = false ->
  lt (given_end a) (start a) = false ->
  lt (ppm a) (finite 0) = false ->
  save_cap a && use_recorded_data a = false ->
  exists w,
    parse_commandline a
    = Return (mkOptions (start a) (final_end a) (ppm a)
                        (correction a) (save_cap a) (use_recorded_data a) false)
             w.
Proof.
  intros H1 H2 H3 H4 H5. unfold parse_commandline.
  fold (start a). fold (given_end a). fold (final_end a).
  rewrite H1, H2, H3, H4, H5. eexists. reflexivity.
Qed.

(** The start frequency that passed the first check, after rounding. *)
Lemma start_cases (a : options) :
  lt (freq_start a) (finite 1e6) = false ->
  (freq_start a = nan /\ start a = nan) \/
  (freq_start a = pos_inf /\ start a = pos_inf) \/
  (exists q q', freq_start a = finite q /\ start a = finite q' /\
     q' == CommandLine.to_raster q /\ CommandLine.off_raster q' = false /\
     1e6 <= q').
Proof.
  intro Hlt. unfold start.
  destruct (rastered_cases (freq_start a))
    as [[H1 H2]|[[H1 H2]|[[H1 H2]|(q & q' & H1 & H2 & H3 & H4)]]]; auto.
  - rewrite H1 in Hlt. discriminate.
  - right. right. exists q, q'. repeat split; try assumption.
    rewrite H1 in Hlt. simpl in Hlt. apply Qltb_ge in Hlt.
    rewrite H3. apply Qle_trans with (inject_Z 10 * 100e3); [discriminate|].
    apply to_raster_ge. apply Qle_trans with 1e6; [discriminate|exact Hlt].
Qed.


(** The end frequency is not below the start frequency after its rounding
    either. *)
Lemma final_end_order (a : options) :
  lt (freq_start a) (finite 1e6) = false ->
  lt (given_end a) (start a) = false ->
  lt (final_end a) (start a) = false.
Proof.
  intros Hs Hord. unfold final_end.
  destruct (start_cases a Hs)
    as [[_ H2]|[[_ H2]|(q & s & _ & H2 & _ & Hs4 & _)]];
    rewrite H2 in *;
    destruct (rastered_cases (given_end a))
      as [[E1 E2]|[[E1 E2]|[[E1 E2]|(e & e' & E1 & E2 & E3 & E4)]]];
    rewrite E2; rewrite E1 in Hord; try reflexivity; try discriminate.
  simpl in *. apply Qltb_ge in Hord. apply Qltb_ge.
  apply off_raster_on_raster in Hs4. destruct Hs4 as (k & Hk).
  rewrite E3, Hk. apply to_raster_ge. rewrite <- Hk. exact Hord.
Qed.

Lemma returned_values_ext (a o : options) (w : list CommandLine.warning) :
  parse_commandline a = Return o w ->
  lt (freq_start o) (finite 1e6) = false /\
  lt (freq_end o) (freq_start o) = false /\
  lt (ppm o) (finite 0) = false /\
  save_cap o && use_recorded_data o = false /\
  extra_arguments o = false /\
  off_raster (freq_start o) = is_nan (freq_start o) /\
  off_raster (freq_end o) = is_nan (freq_end o) /\
  is_nan (freq_start o) = is_nan (freq_start a) /\
  is_number (freq_start o) = is_number (freq_start a).
Proof.
  intro H. apply parse_commandline_return_ext in H.
  destruct H as (_ & Hfs & Hord & Hppm & Hflags & ->). simpl.
  assert (Hend := final_end_order a Hfs Hord).
  repeat split; try assumption.
  - destruct (start_cases a Hfs)
      as [[_ H2]|[[_ H2]|(q & s & _ & H2 & _ & _ & H5)]];
      rewrite H2; try reflexivity.
    simpl. apply Qltb_ge, H5.
  - destruct (start_cases a Hfs)
      as [[_ H2]|[[_ H2]|(q & s & _ & H2 & _ & H4 & _)]];
      rewrite H2; try reflexivity. exact H4.
  - unfold final_end.
    destruct (rastered_cases (given_end a))
      as [[_ E2]|[[_ E2]|[[_ E2]|(e & e' & _ & E2 & _ & E4)]]];
      rewrite E2; try reflexivity. exact E4.
  - destruct (start_cases a Hfs)
      as [[H1 H2]|[[H1 H2]|(q & s & H1 & H2 & _)]];
      rewrite H1, H2; reflexivity.
  - destruct (start_cases a Hfs)
      as [[H1 H2]|[[H1 H2]|(q & s & H1 & H2 & _)]];
      rewrite H1, H2; reflexivity.
Qed.

(** X11.  What [parse_commandline] hands to [main] when it returns.  None of
    the comparisons of the checks holds of the returned values: the start
    frequency is not below 1 MHz, the end frequency is not below the start
    frequency, ppm is not negative; not both of record and load; ppm and
    correction are passed on as given.  For the returned values that are
    numbers this means: a start frequency of at least 1 MHz, start and end
    frequencies that are multiples of 100 kHz and in order, a ppm value of at
    least 0.  A NaN is not stopped: the returned start frequency is NaN
    exactly when the given one is, and a number exactly when the given one
    is. *)
Theorem parse_commandline_postconditions
  (a o : options) (w : list CommandLine.warning) :
  parse_commandline a = Return o w ->
  (lt (freq_start o) (finite 1e6) = false /\
   lt (freq_end o) (freq_start o) = false /\
   lt (ppm o) (finite 0) = false /\
   save_cap o && use_recorded_data o = false /\
   ppm o = ppm a /\ correction o = correction a) /\
  ((forall p, freq_start o = finite p -> 1e6 <= p /\ on_raster p) /\
   (forall q, freq_end o = finite q -> on_raster q) /\
   (forall p q, freq_start o = finite p -> freq_end o = finite q -> p <= q) /\
   (forall q, ppm o = finite q -> 0 <= q)) /\
  (is_nan (freq_start o) = is_nan (freq_start a) /\
   is_number (freq_start o) = is_number (freq_start a)).
Proof.
  intro H.
  destruct (returned_values_ext a o w H)
    as (H1 & H2 & H3 & H4 & _ & H6 & H7 & H8 & H9).
  apply parse_commandline_return_ext in H.
  destruct H as (_ & _ & _ & _ & _ & Ho).
  split; [|split].
  - repeat split; try assumption; rewrite Ho; reflexivity.
  - split; [|split; [|split]].
    + intros p Hp. rewrite Hp in H1, H6. simpl in H1. split.
      * apply Qltb_ge, H1.
      * apply off_raster_on_raster, H6.
    + intros q Hq. rewrite Hq in H7. apply off_raster_on_raster, H7.
    + intros p q Hp Hq. rewrite Hp, Hq in H2. simpl in H2. apply Qltb_ge, H2.
    + intros q Hq. rewrite Hq in H3. simpl in H3. apply Qltb_ge, H3.
  - split; assumption.
Qed.

(** X12.  The command lines that pass the checks: no argument left over; a
    start frequency that is NaN or at least 1 MHz; an end frequency that is
    absent ([-1]), or NaN, or given with a NaN start frequency, or not below
    the start frequency rounded to the raster; a ppm value that is NaN or at
    least 0; and not both of record and load. *)
Theorem parse_commandline_accepts_iff (a : options) :
  (exists o w, parse_commandline a = Return o w) <->
  extra_arguments a = false /\
  (freq_start a = nan \/ le (finite 1e6) (freq_start a) = true) /\
  (eq (freq_end a) (finite (-1)) = true \/ freq_end a = nan \/
   freq_start a = nan \/ le (to_raster (freq_start a)) (freq_end a) = true) /\
  (ppm a = nan \/ le (finite 0) (ppm a) = true) /\
  save_cap a && use_recorded_data a = false.
Proof.
  assert (Hfs : lt (freq_start a) (finite 1e6) = false <->
                freq_start a = nan \/ le (finite 1e6) (freq_start a) = true).
  { rewrite lt_false. split; [intros [H|[H|H]]|intros [H|H]]; auto.
    discriminate. }
  assert (Hppm : lt (ppm a) (finite 0) = false <->
                 ppm a = nan \/ le (finite 0) (ppm a) = true).
  { rewrite lt_false. split; [intros [H|[H|H]]|intros [H|H]]; auto.
    discriminate. }
  assert (Hend : lt (freq_start a) (finite 1e6) = false ->
            (lt (given_end a) (start a) = false <->
             eq (freq_end a) (finite (-1)) = true \/ freq_end a = nan \/
             freq_start a = nan \/
             le (to_raster (freq_start a)) (freq_end a) = true)).
  { intro Hs. unfold given_end.
    destruct (eq (freq_end a) (finite (-1))) eqn:Hdef.
    - split; [auto|]. intros _. apply lt_irrefl.
    - rewrite lt_false.
      destruct (start_cases a Hs)
        as [[H1 H2]|[[H1 H2]|(q & s & H1 & H2 & H3 & _)]];
        rewrite H1, H2.
      + split; auto.
      + simpl. split; [intros [H|[H|H]]|intros [H|[H|[H|H]]]]; auto;
          discriminate.
      + change (to_raster (finite q)) with (finite (CommandLine.to_raster q)).
        assert (Hle : le (finite s) (freq_end a)
                      = le (finite (CommandLine.to_raster q)) (freq_end a)).
        { destruct (freq_end a) as [e| | |]; simpl; try reflexivity.
          destruct (Qle_bool (CommandLine.to_raster q) e) eqn:E.
          - apply Qle_bool_iff. rewrite H3. apply Qle_bool_iff, E.
          - apply not_true_iff_false. intro E'. apply Qle_bool_iff in E'.
            rewrite H3 in E'. apply Qle_bool_iff in E'. congruence. }
        rewrite Hle.
        split; [intros [H|[H|H]]|intros [H|[H|[H|H]]]]; auto; discriminate. }
  split.
  - intros (o & w & H). apply parse_commandline_return_ext in H.
    destruct H as (Hextra & H1 & H2 & H3 & Hflags & _).
    repeat split; try assumption.
    + apply Hfs, H1.
    + apply (Hend H1), H2.
    + apply Hppm, H3.
  - intros (Hextra & H1 & H2 & H3 & Hflags).
    apply Hfs in H1.
    destruct (parse_commandline_returns_ext a) as (w & Hw); try assumption.
    + apply (Hend H1), H2.
    + apply Hppm, H3.
    + eauto.
Qed.

(** X13.  Checking the returned values again returns them unchanged.  A
    rounding warning is printed again exactly for a frequency that is NaN (of
    which [x/100e3 != round(x/100e3)] stays true): returned numbers and
    infinities raise none. *)
Theorem parse_commandline_idempotent
  (a o : options) (w : list CommandLine.warning) :
  parse_commandline a = Return o w ->
  exists w',
    parse_commandline o = Return o w' /\
    (In CommandLine.start_frequency_rounded w' <-> freq_start o = nan) /\
    (In CommandLine.end_frequency_rounded w' <-> freq_end o = nan).
Proof.
  intro H.
  destruct (returned_values_ext a o w H)
    as (H1 & H2 & H3 & H4 & H5 & H6 & H7 & _).
  assert (Hstart : (if off_raster (freq_start o) then to_raster (freq_start o)
                    else freq_start o) = freq_start o).
  { rewrite H6. destruct (freq_start o); reflexivity. }
  assert (Hdef : eq (freq_end o) (finite (-1)) = false).
  { destruct (freq_end o) as [e| | |] eqn:He; try reflexivity.
    simpl. apply not_true_iff_false. intro Heq. apply Qeq_bool_iff in Heq.
    change (off_raster (finite e)) with (CommandLine.off_raster e) in H7.
    rewrite (off_raster_comp _ _ Heq) in H7. discriminate. }
  assert (Hend : (if off_raster (freq_end o) then to_raster (freq_end o)
                  else freq_end o) = freq_end o).
  { rewrite H7. destruct (freq_end o); reflexivity. }
  unfold parse_commandline.
  rewrite H5, H1, Hstart, Hdef, H2, Hend, H3, H4, H6, H7.
  eexists. split; [|split].
  - f_equal. destruct o; simpl in *. rewrite H5. reflexivity.
  - split.
    + intro Hin. destruct (freq_start o); try reflexivity; simpl in Hin;
        repeat match type of Hin with
               | In _ (_ ++ _) => apply in_app_or in Hin; destruct Hin as [Hin|Hin]
               | In _ (if ?b then _ else _) => destruct b
               | In _ (_ :: _) => destruct Hin as [Hin|Hin]; [discriminate|]
               | In _ [] => contradiction
               end.
    + intros ->. simpl. left. reflexivity.
  - split.
    + intro Hin. destruct (freq_end o); try reflexivity; simpl in Hin;
        repeat match type of Hin with
               | In _ (_ ++ _) => apply in_app_or in Hin; destruct Hin as [Hin|Hin]
               | In _ (if ?b then _ else _) => destruct b
               | In _ (_ :: _) => destruct Hin as [Hin|Hin]; [discriminate|]
               | In _ [] => contradiction
               end.
    + intros ->. apply in_or_app. right. simpl. left. reflexivity.
Qed.

End ExtendedFacts.

Lemma nan_start_returns :
  Extended.parse_commandline nan_start
  = Extended.Return
      (Extended.mkOptions Extended.nan Extended.nan (Extended.finite 100)
                          (Extended.finite 1) false false false)
      [CommandLine.start_frequency_rounded; CommandLine.end_frequency_rounded].
Proof. vm_compute. reflexivity. Qed.

Lemma single_frequency_returns_ext :
  Extended.parse_commandline (Extended.of_options single_frequency)
  = Extended.Return
      (Extended.mkOptions (Extended.finite 739000000) (Extended.finite 739000000)
                          (Extended.finite 100) (Extended.finite 1)
                          false false false) [].
Proof. vm_compute. reflexivity. Qed.

(** X11 at [-s 739000000]: the start frequency returned is a number, at least
    1 MHz and on the raster. *)
Lemma parse_commandline_postconditions_witness :
  Extended.parse_commandline (Extended.of_options single_frequency)
  = Extended.Return
      (Extended.mkOptions (Extended.finite 739000000) (Extended.finite 739000000)
                          (Extended.finite 100) (Extended.finite 1)
                          false false false) [] /\
  1e6 <= 739000000 /\ Extended.on_raster 739000000.
Proof.
  split; [exact single_frequency_returns_ext|].
  exact (proj1 (proj1 (proj2 (parse_commandline_postconditions
                                _ _ _ single_frequency_returns_ext)))
               739000000 eq_refl).
Defined.

(** X13 at [-s nan]: the values (NaN, NaN) are returned, and returned again
    with both rounding warnings. *)
Lemma parse_commandline_idempotent_witness :
  Extended.parse_commandline nan_start
  = Extended.Return
      (Extended.mkOptions Extended.nan Extended.nan (Extended.finite 100)
                          (Extended.finite 1) false false false)
      [CommandLine.start_frequency_rounded; CommandLine.end_frequency_rounded] /\
  exists w',
    Extended.parse_commandline
      (Extended.mkOptions Extended.nan Extended.nan (Extended.finite 100)
                          (Extended.finite 1) false false false)
    = Extended.Return
        (Extended.mkOptions Extended.nan Extended.nan (Extended.finite 100)
                            (Extended.finite 1) false false false) w' /\
    In CommandLine.start_frequency_rounded w' /\
    In CommandLine.end_frequency_rounded w'.
Proof.
  split; [exact nan_start_returns|].
  destruct (parse_commandline_idempotent _ _ _ nan_start_returns)
    as (w' & Hw & Hs & He).
  exists w'. split; [exact Hw|]. split; [apply Hs|apply He]; reflexivity.
Defined.

(** ** The option loop *)

Section GetOptFacts.

Import GetOpt.

Lemma loop_app (s : variables) (l1 l2 : list option_seen) :
  loop s (l1 ++ l2)
  = match loop s l1 with
    | inl cause => inl cause
    | inr s1 => loop s1 l2
    end.
Proof.
  revert s. induction l1 as [|o l1 IH]; intro s; simpl; [reflexivity|].
  destruct (step s o) as [cause|s']; [reflexivity|apply IH].
Qed.

(** The loop exits on the first fatal option. *)
Lemma loop_fatal (s : variables) (seen : list option_seen) :
  existsb fatal seen = true -> exists cause, loop s seen = inl cause.
Proof.
  revert s. induction seen as [|o rest IH]; intro s; simpl; [discriminate|].
  destruct (step s o) as [cause|s'] eqn:Hstep; [eauto|].
  intro H. apply orb_true_iff in H. destruct H as [H|H]; [|apply IH, H].
  destruct o as [| | | |[v|]|[v|]|[v|]|[v|]| | | |]; simpl in *;
    discriminate.
Qed.

(** Without [-s], the start frequency stays as it was. *)
Lemma loop_without_s (seen : list option_seen) (s s' : variables) :
  existsb is_opt_s seen = false -> loop s seen = inr s' ->
  freq_start s' = freq_start s.
Proof.
  revert s. induction seen as [|o rest IH]; intros s Hno Hloop; simpl in *.
  - injection Hloop as <-. reflexivity.
  - apply orb_false_iff in Hno. destruct Hno as [Ho Hrest].
    destruct (step s o) as [cause|s1] eqn:Hstep; [discriminate|].
    rewrite (IH s1 Hrest Hloop).
    destruct o as [| | | |[v|]|[v|]|[v|]|[v|]| | | |]; simpl in *;
      try discriminate; injection Hstep as <-; reflexivity.
Qed.

(** A flag that is set stays set. *)
Lemma loop_save_cap (seen : list option_seen) (s s' : variables) :
  loop s seen = inr s' ->
  save_cap s = true \/ existsb is_opt_r seen = true -> save_cap s' = true.
Proof.
  revert s. induction seen as [|o rest IH]; intros s Hloop Hset; simpl in *.
  - injection Hloop as <-. destruct Hset as [H|H]; [exact H|discriminate].
  - destruct (step s o) as [cause|s1] eqn:Hstep; [discriminate|].
    apply (IH s1 Hloop).
    destruct o as [| | | |[v|]|[v|]|[v|]|[v|]| | | |]; simpl in *;
      try discriminate; injection Hstep as <-; simpl; tauto.
Qed.

Lemma loop_use_recorded_data (seen : list option_seen) (s s' : variables) :
  loop s seen = inr s' ->
  use_recorded_data s = true \/ existsb is_opt_l seen = true ->
  use_recorded_data s' = true.
Proof.
  revert s. induction seen as [|o rest IH]; intros s Hloop Hset; simpl in *.
  - injection Hloop as <-. destruct Hset as [H|H]; [exact H|discriminate].
  - destruct (step s o) as [cause|s1] eqn:Hstep; [discriminate|].
    apply (IH s1 Hloop).
    destruct o as [| | | |[v|]|[v|]|[v|]|[v|]| | | |]; simpl in *;
      try discriminate; injection Hstep as <-; simpl; tauto.
Qed.

(** The checks end in an exit with status [-1] whenever they cannot
    return. *)
Lemma checks_exit (a : CommandLine.options) :
  (forall o w, CommandLine.parse_commandline a <> CommandLine.Return o w) ->
  exists e, CommandLine.parse_commandline a = CommandLine.Exit (-1) e.
Proof.
  intro H. destruct (CommandLine.parse_commandline a) as [status e|o w] eqn:Hp.
  - apply parse_commandline_exit in Hp. subst. eauto.
  - exfalso. apply (H o w). reflexivity.
Qed.

(** X15.  [-s] is required: a command line without it ends in a nonzero exit. *)
Theorem start_frequency_required
  (seen : list option_seen) (extra_arguments : bool) :
  existsb is_opt_s seen = false ->
  fails (parse_commandline seen extra_arguments).
Proof.
  intro Hno. unfold parse_commandline.
  destruct (loop defaults seen) as [cause|s] eqn:Hloop; [simpl; discriminate|].
  assert (Hfs : freq_start s = -1) by apply (loop_without_s seen defaults s Hno Hloop).
  destruct (checks_exit (to_options s extra_arguments)) as (e & ->).
  - intros o w H. apply parse_commandline_return in H.
    destruct H as (_ & H & _). simpl in H. rewrite Hfs in H. discriminate.
  - simpl. discriminate.
Qed.

(** X16.  A help request, an unknown option, or a numeric argument that cannot be
    parsed, anywhere on the command line, ends the process in the loop with
    status [-1], whatever the other options are. *)
Theorem fatal_option_exits
  (seen : list option_seen) (extra_arguments : bool) :
  existsb fatal seen = true ->
  exists cause, parse_commandline seen extra_arguments = Exit_in_loop (-1) cause.
Proof.
  intro H. unfold parse_commandline.
  destruct (loop_fatal defaults seen H) as (cause & ->). eauto.
Qed.

(** X17.  [-r] and [-l] together, in any order and with any other options, end
    in a nonzero exit. *)
Theorem record_and_load_conflict
  (seen : list option_seen) (extra_arguments : bool) :
  existsb is_opt_r seen = true -> existsb is_opt_l seen = true ->
  fails (parse_commandline seen extra_arguments).
Proof.
  intros Hr Hl. unfold parse_commandline.
  destruct (loop defaults seen) as [cause|s] eqn:Hloop; [simpl; discriminate|].
  assert (Hsave := loop_save_cap seen defaults s Hloop (or_intror Hr)).
  assert (Hload := loop_use_recorded_data seen defaults s Hloop (or_intror Hl)).
  destruct (checks_exit (to_options s extra_arguments)) as (e & ->).
  - intros o w H. apply parse_commandline_return in H.
    destruct H as (_ & _ & _ & _ & H & _). simpl in H.
    rewrite Hsave, Hload in H. discriminate.
  - simpl. discriminate.
Qed.

(** X18.  The last [-s] decides: when [parse_commandline] returns, the start
    frequency is the argument of the last [-s], rounded to the raster. *)
Theorem last_start_frequency_wins
  (l1 l2 : list option_seen) (v : Q) (extra_arguments : bool)
  (o : CommandLine.options) (verb : Z) (dir : string)
  (w : list CommandLine.warning) :
  existsb is_opt_s l2 = false ->
  parse_commandline (l1 ++ opt_s (Some v) :: l2) extra_arguments
  = Return o verb dir w ->
  CommandLine.freq_start o == CommandLine.to_raster v.
Proof.
  intros Hno. unfold parse_commandline. rewrite loop_app.
  destruct (loop defaults l1) as [cause|s1]; [discriminate|].
  simpl loop.
  destruct (loop _ l2) as [cause|s] eqn:Hloop; [discriminate|].
  assert (Hfs := loop_without_s l2 _ s Hno Hloop). simpl in Hfs.
  destruct (CommandLine.parse_commandline (to_options s extra_arguments))
    as [status e|o' w'] eqn:Hp; [discriminate|].
  intros [= <- _ _ _].
  apply parse_commandline_return in Hp. destruct Hp as (_ & _ & _ & _ & _ & ->).
  simpl.
  destruct (checked_start_raster (to_options s extra_arguments)) as [_ Hs].
  rewrite Hs. simpl. rewrite Hfs. reflexivity.
Qed.

End GetOptFacts.

Lemma start_frequency_required_witness :
  existsb GetOpt.is_opt_s [GetOpt.opt_v; GetOpt.opt_p (Some 50)] = false /\
  GetOpt.fails
    (GetOpt.parse_commandline [GetOpt.opt_v; GetOpt.opt_p (Some 50)] false).
Proof.
  split; [reflexivity|].
  exact (start_frequency_required [GetOpt.opt_v; GetOpt.opt_p (Some 50)] false
           eq_refl).
Defined.

Lemma fatal_option_exits_witness :
  existsb GetOpt.fatal (typical_options ++ [GetOpt.opt_h]) = true /\
  exists cause,
    GetOpt.parse_commandline (typical_options ++ [GetOpt.opt_h]) false
    = GetOpt.Exit_in_loop (-1) cause.
Proof.
  split; [reflexivity|].
  exact (fatal_option_exits (typical_options ++ [GetOpt.opt_h]) false eq_refl).
Defined.

Lemma record_and_load_conflict_witness :
  existsb GetOpt.is_opt_r (typical_options ++ [GetOpt.opt_l]) = true /\
  existsb GetOpt.is_opt_l (typical_options ++ [GetOpt.opt_l]) = true /\
  GetOpt.fails
    (GetOpt.parse_commandline (typical_options ++ [GetOpt.opt_l]) false).
Proof.
  split; [reflexivity|]. split; [reflexivity|].
  exact (record_and_load_conflict (typical_options ++ [GetOpt.opt_l]) false
           eq_refl eq_refl).
Defined.

Lemma typical_options_return :
  GetOpt.parse_commandline
    ([GetOpt.opt_s (Some 1000000000)] ++ GetOpt.opt_s (Some 739000000)
       :: [GetOpt.opt_p (Some 50); GetOpt.opt_r]) false
  = GetOpt.Return
      (CommandLine.mkOptions 739000000 739000000 50 1 true false false)
      1 "." [].
Proof. vm_compute. reflexivity. Qed.

Lemma last_start_frequency_wins_witness :
  existsb GetOpt.is_opt_s [GetOpt.opt_p (Some 50); GetOpt.opt_r] = false /\
  GetOpt.parse_commandline
    ([GetOpt.opt_s (Some 1000000000)] ++ GetOpt.opt_s (Some 739000000)
       :: [GetOpt.opt_p (Some 50); GetOpt.opt_r]) false
  = GetOpt.Return
      (CommandLine.mkOptions 739000000 739000000 50 1 true false false)
      1 "." [] /\
  CommandLine.freq_start
    (CommandLine.mkOptions 739000000 739000000 50 1 true false false)
  == CommandLine.to_raster 739000000.
Proof.
  split; [reflexivity|]. split; [exact typical_options_return|].
  exact (last_start_frequency_wins
           [GetOpt.opt_s (Some 1000000000)]
           [GetOpt.opt_p (Some 50); GetOpt.opt_r] 739000000 false
           _ _ _ _ eq_refl typical_options_return).
Defined.

(** ** The correction factor and the residual offset *)

(** X19.  For a positive correction factor and a cell on a positive carrier:
    without a residual offset the correction factor is unchanged; a positive
    offset (below the carrier) raises it; a negative offset lowers it, and it
    stays positive. *)
Theorem correction_follows_offset (correction : Q) (it : Cell) :
  0 < correction -> 0 < fc it ->
  (freq_superfine it == 0 -> correction_new correction it == correction) /\
  (0 < freq_superfine it -> freq_superfine it < fc it ->
   correction < correction_new correction it) /\
  (freq_superfine it < 0 ->
   0 < correction_new correction it /\ correction_new correction it < correction).
Proof.
  intros Hc Hfc. unfold correction_new.
  set (f := fc it) in *. set (o := freq_superfine it) in *.
  split; [|split].
  - intro Ho. rewrite Ho. field. lra.
  - intros Ho Hlt.
    assert (Hr : 1 < f / (f - o)) by (apply Qlt_shift_div_l; lra).
    rewrite <- (Qmult_1_r correction) at 1.
    apply Qmult_lt_l; assumption.
  - intro Ho.
    assert (Hd : 0 < f - o) by lra.
    assert (Hr0 : 0 < f / (f - o)) by (apply Qlt_shift_div_l; lra).
    assert (Hr1 : f / (f - o) < 1) by (apply Qlt_shift_div_r; lra).
    split.
    + apply Qmult_lt_0_compat; assumption.
    + rewrite <- (Qmult_1_r correction) at 2.
      apply Qmult_lt_l; assumption.
Qed.

Lemma correction_follows_offset_witness :
  0 < 1 /\ 0 < fc cell_at_1GHz /\
  0 < freq_superfine cell_at_1GHz /\
  freq_superfine cell_at_1GHz < fc cell_at_1GHz /\
  1 < correction_new 1 cell_at_1GHz.
Proof.
  assert (H1 : 0 < 1) by reflexivity.
  assert (H2 : 0 < fc cell_at_1GHz) by reflexivity.
  assert (H3 : 0 < freq_superfine cell_at_1GHz) by reflexivity.
  assert (H4 : freq_superfine cell_at_1GHz < fc cell_at_1GHz) by reflexivity.
  repeat (split; [assumption|]).
  exact (proj1 (proj2 (correction_follows_offset 1 cell_at_1GHz H1 H2)) H3 H4).
Defined.

(** ** [freq_formatter] *)

Section StreamFacts.

Import Stream.

(** [nearest] is IT++'s [round], as an integer. *)
Lemma round_nearest (x : Q) : round x = inject_Z (nearest x).
Proof.
  unfold round, nearest.
  destruct (x - inject_Z (Qfloor x) ?= 1 # 2);
    [destruct (Z.even (Qfloor x))| |]; reflexivity.
Qed.

Lemma nearest_cases (x : Q) :
  nearest x = Qfloor x \/
  (nearest x = (Qfloor x + 1)%Z /\ 1 # 2 <= x - inject_Z (Qfloor x)).
Proof.
  unfold nearest.
  destruct (x - inject_Z (Qfloor x) ?= 1 # 2) eqn:E.
  - destruct (Z.even (Qfloor x)); [left; reflexivity|right].
    split; [reflexivity|]. apply Qeq_alt in E. rewrite E. apply Qle_refl.
  - left. reflexivity.
  - right. split; [reflexivity|]. apply Qgt_alt in E. apply Qlt_le_weak, E.
Qed.

Lemma floor_bounds (x : Q) :
  inject_Z (Qfloor x) <= x /\ x < inject_Z (Qfloor x) + 1.
Proof.
  split; [apply Qfloor_le|].
  assert (H := Qlt_floor x). rewrite inject_Z_plus in H. exact H.
Qed.

(** The nearest integer is within one half. *)
Lemma nearest_close (x : Q) : Qabs (inject_Z (nearest x) - x) <= 1 # 2.
Proof.
  destruct (floor_bounds x) as [H1 H2].
  apply Qabs_Qle_condition.
  unfold nearest.
  destruct (x - inject_Z (Qfloor x) ?= 1 # 2) eqn:E;
    [apply Qeq_alt in E; destruct (Z.even (Qfloor x))
    |apply Qlt_alt in E|apply Qgt_alt in E];
    try rewrite inject_Z_plus; change (inject_Z 1) with 1; lra.
Qed.

Lemma nearest_ge (x : Q) (a : Z) : inject_Z a <= x -> (a <= nearest x)%Z.
Proof.
  intro H.
  assert (Hf : (a <= Qfloor x)%Z).
  { rewrite <- (Qfloor_Z a). apply Qfloor_resp_le, H. }
  destruct (nearest_cases x) as [->|[-> _]]; lia.
Qed.

Lemma nearest_le (x : Q) (b : Z) : x <= inject_Z b -> (nearest x <= b)%Z.
Proof.
  intro H. destruct (floor_bounds x) as [H1 H2].
  assert (Hf : (Qfloor x <= b)%Z).
  { rewrite <- (Qfloor_Z b). apply Qfloor_resp_le, H. }
  destruct (nearest_cases x) as [->|[-> Hhalf]]; [exact Hf|].
  assert (Hlt : inject_Z (Qfloor x) < inject_Z b) by lra.
  rewrite <- Zlt_Qlt in Hlt. lia.
Qed.

Lemma exponent_search_spec (lo : Z) (n : nat) (a : Q) (X : Z) :
  (lo <= X <= lo + Z.of_nat n)%Z -> 10 ^ X <= a -> a < 10 ^ (X + 1) ->
  exponent_search lo n a = X.
Proof.
  intros HX Hlo Hhi. induction n as [|k IH].
  - simpl in *. lia.
  - cbn [exponent_search].
    destruct (Z.eq_dec X (lo + Z.of_nat (S k))) as [->|Hne].
    + apply Qle_bool_iff in Hlo. rewrite Hlo. reflexivity.
    + assert (Hfalse : Qle_bool (10 ^ (lo + Z.of_nat (S k))) a = false).
      { apply not_true_iff_false. intro H. apply Qle_bool_iff in H.
        apply (Qlt_not_le _ _ Hhi).
        apply Qle_trans with (10 ^ (lo + Z.of_nat (S k))); [|exact H].
        apply Qpower_le_compat_l; [lia|discriminate]. }
      rewrite Hfalse. apply IH. lia.
Qed.

Lemma decimal_exponent_spec (a : Q) (X : Z) :
  (-324 <= X <= 308)%Z -> 10 ^ X <= a -> a < 10 ^ (X + 1) ->
  decimal_exponent a = X.
Proof.
  intros HX. apply exponent_search_spec. lia.
Qed.


Lemma Qabs_of_pos (x : Q) : 0 < x -> Qabs x = x.
Proof.
  destruct x as [n d]. unfold Qlt, Qabs. simpl. intro H.
  f_equal. lia.
Qed.

(** The three digits that are written of a number [x] between [100*c] and
    [1000*c], for [c] a power of ten: they are within 0.5 % of [x]. *)
Lemma mantissa_bounds (x c : Q) :
  0 < c -> 100 * c <= x -> x < 1000 * c ->
  (100 <= nearest (x / c) <= 1000)%Z /\
  Qabs (inject_Z (nearest (x / c)) * c - x) <= x * (5 # 1000).
Proof.
  intros Hc Hlo Hhi.
  assert (Hy : x == x / c * c) by (field; lra).
  set (y := x / c) in *.
  assert (Hy1 : inject_Z 100 <= y).
  { unfold y. apply Qle_shift_div_l; assumption. }
  assert (Hy2 : y <= inject_Z 1000).
  { unfold y. apply Qlt_le_weak, Qlt_shift_div_r; assumption. }
  split; [split; [apply nearest_ge, Hy1|apply nearest_le, Hy2]|].
  assert (Hclose := nearest_close y).
  setoid_replace (inject_Z (nearest y) * c - x)
    with ((inject_Z (nearest y) - y) * c) by (rewrite Hy at 1; ring).
  rewrite Qabs_Qmult, (Qabs_pos c) by lra.
  apply Qle_trans with ((1 # 2) * c); [|lra].
  apply Qmult_le_compat_r; [exact Hclose|lra].
Qed.

Lemma general_3_fixed (x : Q) :
  998 # 1000 <= x -> x < 998 ->
  exists m X,
    general 3 x = fixed 3 m X /\
    (100 <= m <= 999)%Z /\ (-1 <= X <= 2)%Z /\
    998 # 1000 <= inject_Z m * 10 ^ (X - 2) /\
    inject_Z m * 10 ^ (X - 2) <= 998 /\
    Qabs (inject_Z m * 10 ^ (X - 2) - x) <= x * (5 # 1000).
Proof.
  intros Hlo Hhi.
  assert (Hpos : 0 < x) by lra.
  assert (HX : exists X0, (-1 <= X0 <= 2)%Z /\ 10 ^ X0 <= x /\ x < 10 ^ (X0 + 1)).
  { destruct (Qlt_le_dec x 1); [exists (-1)%Z|
      destruct (Qlt_le_dec x 10); [exists 0%Z|
        destruct (Qlt_le_dec x 100); [exists 1%Z|exists 2%Z]]];
      (split; [lia|]); cbn; lra. }
  destruct HX as (X0 & HX0 & H1 & H2).
  unfold general.
  assert (Hnz : Qeq_bool x 0 = false).
  { apply not_true_iff_false. intro H. apply Qeq_bool_iff in H. lra. }
  assert (Hsign : Qltb x 0 = false) by (apply Qltb_ge; lra).
  rewrite Hnz, Hsign, (Qabs_of_pos x Hpos).
  rewrite (decimal_exponent_spec x X0) by (try lia; assumption).
  cbn [append].
  assert (Hcases : X0 = (-1)%Z \/ X0 = 0%Z \/ X0 = 1%Z \/ X0 = 2%Z) by lia.
  destruct Hcases as [-> | [-> | [-> | ->]]].
  - change (10 ^ (-1 - Z.of_nat 3 + 1)) with (1 # 1000).
    change (10 ^ (-1)) with (1 # 10) in H1. change (10 ^ (-1 + 1)) with 1 in H2.
    destruct (mantissa_bounds x (1 # 1000)) as [[Hm1 Hm2] Herr]; try lra.
    assert (Hm3 : (998 <= nearest (x / (1 # 1000)))%Z).
    { apply nearest_ge. apply Qle_shift_div_l; [reflexivity|].
      change (inject_Z 998 * (1 # 1000)) with (998 # 1000). lra. }
    set (m0 := nearest (x / (1 # 1000))) in *.
    destruct (m0 =? 10 ^ Z.of_nat 3)%Z eqn:E.
    + apply Z.eqb_eq in E. change (10 ^ Z.of_nat 3)%Z with 1000%Z in E.
      exists 100%Z, 0%Z. rewrite E in Herr.
      split; [reflexivity|]. split; [lia|]. split; [lia|].
      change (10 ^ (0 - 2)) with (1 # 100).
      change (inject_Z 1000) with 1000 in Herr.
      change (inject_Z 100) with 100.
      setoid_replace (100 * (1 # 100))%Q with (1000 * (1 # 1000))%Q by reflexivity.
      repeat split; lra.
    + apply Z.eqb_neq in E. change (10 ^ Z.of_nat 3)%Z with 1000%Z in E.
      exists m0, (-1)%Z.
      split; [reflexivity|]. split; [lia|]. split; [lia|].
      change (10 ^ (-1 - 2)) with (1 # 1000).
      assert (Ha : inject_Z 998 <= inject_Z m0) by (rewrite <- Zle_Qle; lia).
      assert (Hb : inject_Z m0 <= inject_Z 999) by (rewrite <- Zle_Qle; lia).
      change (inject_Z 998) with 998 in Ha. change (inject_Z 999) with 999 in Hb.
      repeat split; lra.
  - change (10 ^ (0 - Z.of_nat 3 + 1)) with (1 # 100).
    change (10 ^ 0) with (1) in H1. change (10 ^ (0 + 1)) with (10) in H2.
    destruct (mantissa_bounds x (1 # 100)) as [[Hm1 Hm2] Herr]; try lra.
    set (m0 := nearest (x / (1 # 100))) in *.
    destruct (m0 =? 10 ^ Z.of_nat 3)%Z eqn:E.
    + apply Z.eqb_eq in E. change (10 ^ Z.of_nat 3)%Z with 1000%Z in E.
      exists 100%Z, 1%Z. rewrite E in Herr.
      split; [reflexivity|]. split; [lia|]. split; [lia|].
      change (10 ^ (1 - 2)) with (1 # 10).
      change (inject_Z 1000) with 1000 in Herr.
      change (inject_Z 100) with 100.
      setoid_replace (100 * (1 # 10))%Q with (1000 * (1 # 100))%Q by reflexivity.
      repeat split; lra.
    + apply Z.eqb_neq in E. change (10 ^ Z.of_nat 3)%Z with 1000%Z in E.
      exists m0, 0%Z.
      split; [reflexivity|]. split; [lia|]. split; [lia|].
      change (10 ^ (0 - 2)) with (1 # 100).
      assert (Ha : inject_Z 100 <= inject_Z m0) by (rewrite <- Zle_Qle; lia).
      assert (Hb : inject_Z m0 <= inject_Z 999) by (rewrite <- Zle_Qle; lia).
      change (inject_Z 100) with 100 in Ha. change (inject_Z 999) with 999 in Hb.
      repeat split; lra.
  - change (10 ^ (1 - Z.of_nat 3 + 1)) with (1 # 10).
    change (10 ^ 1) with (10) in H1. change (10 ^ (1 + 1)) with (100) in H2.
    destruct (mantissa_bounds x (1 # 10)) as [[Hm1 Hm2] Herr]; try lra.
    set (m0 := nearest (x / (1 # 10))) in *.
    destruct (m0 =? 10 ^ Z.of_nat 3)%Z eqn:E.
    + apply Z.eqb_eq in E. change (10 ^ Z.of_nat 3)%Z with 1000%Z in E.
      exists 100%Z, 2%Z. rewrite E in Herr.
      split; [reflexivity|]. split; [lia|]. split; [lia|].
      change (10 ^ (2 - 2)) with (1).
      change (inject_Z 1000) with 1000 in Herr.
      change (inject_Z 100) with 100.
      setoid_replace (100 * (1))%Q with (1000 * (1 # 10))%Q by reflexivity.
      repeat split; lra.
    + apply Z.eqb_neq in E. change (10 ^ Z.of_nat 3)%Z with 1000%Z in E.
      exists m0, 1%Z.
      split; [reflexivity|]. split; [lia|]. split; [lia|].
      change (10 ^ (1 - 2)) with (1 # 10).
      assert (Ha : inject_Z 100 <= inject_Z m0) by (rewrite <- Zle_Qle; lia).
      assert (Hb : inject_Z m0 <= inject_Z 999) by (rewrite <- Zle_Qle; lia).
      change (inject_Z 100) with 100 in Ha. change (inject_Z 999) with 999 in Hb.
      repeat split; lra.
  - change (10 ^ (2 - Z.of_nat 3 + 1)) with 1.
    change (10 ^ 2) with 100 in H1.
    destruct (mantissa_bounds x 1) as [[Hm1 _] Herr]; try lra.
    assert (Hm2 : (nearest (x / 1) <= 998)%Z).
    { apply nearest_le. apply Qlt_le_weak, Qlt_shift_div_r; [reflexivity|].
      change (inject_Z 998 * 1) with 998. exact Hhi. }
    set (m0 := nearest (x / 1)) in *.
    assert (E : (m0 =? 10 ^ Z.of_nat 3)%Z = false).
    { apply Z.eqb_neq. change (10 ^ Z.of_nat 3)%Z with 1000%Z. lia. }
    rewrite E.
    exists m0, 2%Z.
    split; [reflexivity|]. split; [lia|]. split; [lia|].
    change (10 ^ (2 - 2)) with 1.
    assert (Ha : inject_Z 100 <= inject_Z m0) by (rewrite <- Zle_Qle; lia).
    assert (Hb : inject_Z m0 <= inject_Z 998) by (rewrite <- Zle_Qle; lia).
    change (inject_Z 100) with 100 in Ha. change (inject_Z 998) with 998 in Hb.
    repeat split; lra.
Qed.


(** Reading back the text of three digits in fixed notation, checked on
    every mantissa and exponent. *)
Lemma fixed_3_text (m X : Z) :
  (100 <= m <= 999)%Z -> (-1 <= X <= 2)%Z ->
  exists v,
    read_number (setw 4 (fixed 3 m X)) = Some v /\
    v == inject_Z m * 10 ^ (X - 2) /\
    (String.length (setw 4 (fixed 3 m X)) = 4%nat \/
     (X < 0)%Z /\ String.length (setw 4 (fixed 3 m X)) = 5%nat).
Proof.
  intros Hm HX.
  assert (Hall :
    forallb (fun m =>
      forallb (fun X =>
        match read_number (setw 4 (fixed 3 m X)) with
        | Some v =>
            Qeq_bool v (inject_Z m * 10 ^ (X - 2))
            && (Nat.eqb (String.length (setw 4 (fixed 3 m X))) 4
                || (X <? 0)%Z
                   && Nat.eqb (String.length (setw 4 (fixed 3 m X))) 5)
        | None => false
        end) [-1; 0; 1; 2]%Z) (map Z.of_nat (seq 100 900)) = true)
    by (vm_compute; reflexivity).
  rewrite forallb_forall in Hall.
  assert (Hin : In m (map Z.of_nat (seq 100 900))).
  { apply in_map_iff. exists (Z.to_nat m). split; [lia|]. apply in_seq. lia. }
  specialize (Hall m Hin). rewrite forallb_forall in Hall.
  assert (HinX : In X [-1; 0; 1; 2]%Z) by (simpl; lia).
  specialize (Hall X HinX).
  destruct (read_number (setw 4 (fixed 3 m X))) as [v|]; [|discriminate].
  apply andb_true_iff in Hall. destruct Hall as [Hv Hlen].
  exists v. split; [reflexivity|]. split.
  - apply Qeq_bool_iff, Hv.
  - apply orb_true_iff in Hlen. destruct Hlen as [Hlen|Hlen].
    + left. apply Nat.eqb_eq, Hlen.
    + apply andb_true_iff in Hlen. destruct Hlen as [HX0 Hlen].
      right. split; [apply Z.ltb_lt, HX0|apply Nat.eqb_eq, Hlen].
Qed.

End StreamFacts.

(** X20.  From 998 Hz up to 998 THz, [freq_formatter] writes a number and one
    of the letters k, m, g, t, the letter for which the frequency lies from
    0.998 to 998 units.  The number is in fixed notation (spaces, digits and
    at most one point: it can be read back), it denotes a value from 0.998 to
    998 that is within 0.5 % of the frequency (three significant digits), and
    it takes four characters, or five when the value is below 1. *)
Theorem freq_formatter_text (freq : Q) :
  998 <= freq -> freq < 998000000000000 ->
  exists (number letter : string) (v unit : Q),
    freq_formatter freq = (number ++ letter)%string /\
    In (letter, unit)
       [("k"%string, 1e3); ("m"%string, 1e6); ("g"%string, 1e9);
        ("t"%string, 1e12)] /\
    unit * (998 # 1000) <= freq /\ freq < unit * 998 /\
    Stream.read_number number = Some v /\
    998 # 1000 <= v /\ v <= 998 /\
    Qabs (v * unit - freq) <= freq * (5 # 1000) /\
    (1 <= v -> String.length number = 4%nat) /\
    (v < 1 -> String.length number = 5%nat).
Proof.
  intros Hlo Hhi.
  assert (Hunit : exists letter unit,
    In (letter, unit)
       [("k"%string, 1e3); ("m"%string, 1e6); ("g"%string, 1e9);
        ("t"%string, 1e12)] /\
    unit * (998 # 1000) <= freq /\ freq < unit * 998 /\
    freq_formatter freq
    = (Stream.setw 4 (Stream.general 3 (freq / unit)) ++ letter)%string).
  { unfold freq_formatter.
    assert (H0 : Qltb freq 998.0 = false) by (apply Qltb_ge; lra).
    rewrite H0.
    destruct (Qltb freq 998000.0) eqn:H1;
      [|destruct (Qltb freq 998000000.0) eqn:H2;
        [|destruct (Qltb freq 998000000000.0) eqn:H3;
          [|destruct (Qltb freq 998000000000000.0) eqn:H4]]];
      repeat match goal with
             | H : Qltb _ _ = true |- _ => apply Qltb_lt in H
             | H : Qltb _ _ = false |- _ => apply Qltb_ge in H
             end.
    - exists "k"%string, 1e3. split; [simpl; auto|].
      change 1e3 with (1000 # 1). repeat split; try lra.
    - exists "m"%string, 1e6. split; [simpl; auto|].
      change 1e6 with (1000000 # 1). repeat split; try lra.
    - exists "g"%string, 1e9. split; [simpl; auto 6|].
      change 1e9 with (1000000000 # 1). repeat split; try lra.
    - exists "t"%string, 1e12. split; [simpl; auto 6|].
      change 1e12 with (1000000000000 # 1). repeat split; try lra.
    - exfalso. lra. }
  destruct Hunit as (letter & unit & Hin & Hu1 & Hu2 & Htext).
  assert (Hupos : 0 < unit).
  { simpl in Hin.
    destruct Hin as [H|[H|[H|[H|[]]]]]; injection H as _ <-; reflexivity. }
  set (x := freq / unit) in *.
  assert (Hx : freq == x * unit) by (unfold x; field; lra).
  assert (Hx1 : 998 # 1000 <= x).
  { unfold x. apply Qle_shift_div_l; [exact Hupos|]. lra. }
  assert (Hx2 : x < 998).
  { unfold x. apply Qlt_shift_div_r; [exact Hupos|]. lra. }
  destruct (general_3_fixed x Hx1 Hx2) as (m & X & Hg & Hm & HX & Hv1 & Hv2 & Herr).
  destruct (fixed_3_text m X Hm HX) as (v & Hread & Hv & Hlen).
  exists (Stream.setw 4 (Stream.fixed 3 m X)), letter, v, unit.
  rewrite Htext, Hg.
  split; [reflexivity|]. split; [exact Hin|]. split; [exact Hu1|].
  split; [exact Hu2|]. split; [exact Hread|].
  rewrite Hv. split; [exact Hv1|]. split; [exact Hv2|]. split; [|split].
  - setoid_replace (inject_Z m * 10 ^ (X - 2) * unit - freq)
      with ((inject_Z m * 10 ^ (X - 2) - x) * unit) by (rewrite Hx; ring).
    rewrite Qabs_Qmult, (Qabs_pos unit) by lra.
    apply Qle_trans with (x * (5 # 1000) * unit).
    + apply Qmult_le_compat_r; [exact Herr|lra].
    + rewrite Hx. apply Qle_lteq. right. ring.
  - intro H1. destruct Hlen as [Hlen|[E _]]; [exact Hlen|].
    exfalso. assert (X = (-1)%Z) by lia. subst X.
    change (10 ^ (-1 - 2)) with (1 # 1000) in H1.
    assert (Hb : inject_Z m <= inject_Z 999) by (rewrite <- Zle_Qle; lia).
    change (inject_Z 999) with 999 in Hb. lra.
  - intro H1. destruct Hlen as [Hlen|[_ Hlen]]; [|exact Hlen].
    exfalso.
    assert (Ha : inject_Z 100 <= inject_Z m) by (rewrite <- Zle_Qle; lia).
    change (inject_Z 100) with 100 in Ha.
    assert (HX1 : X = (-1)%Z).
    { assert (Hc : X = (-1)%Z \/ X = 0%Z \/ X = 1%Z \/ X = 2%Z) by lia.
      destruct Hc as [-> | [-> | [-> | ->]]]; [reflexivity| | |]; exfalso.
      - change (10 ^ (0 - 2)) with (1 # 100) in H1. lra.
      - change (10 ^ (1 - 2)) with (1 # 10) in H1. lra.
      - change (10 ^ (2 - 2)) with 1 in H1. lra. }
    subst X. change (10 ^ (-1 - 2)) with (1 # 1000) in Hv1.
    assert (Hm3 : (998 <= m)%Z).
    { rewrite Zle_Qle. change (inject_Z 998) with 998. lra. }
    assert (Hm4 : m = 998%Z \/ m = 999%Z) by lia.
    destruct Hm4 as [-> | ->]; vm_compute in Hlen; discriminate.
Qed.

(** Some texts: a frequency just below a change of unit is written with the
    smaller unit; a negative offset is always written in Hz, with an
    exponent from 1 kHz on. *)
Example freq_formatter_texts :
  freq_formatter 997999 = " 998k"%string /\
  freq_formatter 123456 = " 123k"%string /\
  freq_formatter 998 = "0.998k"%string /\
  freq_formatter 2500 = " 2.5k"%string /\
  freq_formatter 0 = "   0h"%string /\
  freq_formatter (-2500) = "-2.5e+03h"%string /\
  freq_formatter 1e15 = "1e+15"%string.
Proof. vm_compute. repeat split. Qed.

Lemma freq_formatter_text_witness :
  998 <= 997999 /\ 997999 < 998000000000000 /\
  exists (number letter : string) (v unit : Q),
    freq_formatter 997999 = (number ++ letter)%string /\
    In (letter, unit)
       [("k"%string, 1e3); ("m"%string, 1e6); ("g"%string, 1e9);
        ("t"%string, 1e12)] /\
    unit * (998 # 1000) <= 997999 /\ 997999 < unit * 998 /\
    Stream.read_number number = Some v /\
    998 # 1000 <= v /\ v <= 998 /\
    Qabs (v * unit - 997999) <= 997999 * (5 # 1000) /\
    (1 <= v -> String.length number = 4%nat) /\
    (v < 1 -> String.length number = 5%nat).
Proof.
  assert (H1 : 998 <= 997999) by discriminate.
  assert (H2 : 997999 < 998000000000000) by reflexivity.
  split; [exact H1|]. split; [exact H2|].
  exact (freq_formatter_text 997999 H1 H2).
Defined.
